(** * jack-example-tools: the latency tools [lsync] and [lset]

    A shallow embedding of [tools/lsync.c] (the resizable audio delay line,
    the pair equalizer and the JACK callbacks) and of the latency correction
    of [tools/lset.c], with the properties their specification states.

    Conventions of the embedding.
    - [jack_nframes_t] is [uint32_t]: a [Z] in [0, 2^32), every arithmetic
      step reduced with [u32]; the one [int] of the code goes through [s32].
    - A block of samples is a [list]; a pointer that may be [NULL] is an
      [option] of a block.
    - A computation is an [option]: [None] is undefined behaviour of the C
      program (an access outside a block, a [NULL] dereference, a float to
      integer conversion out of range).
    - [float] is IEEE-754 binary32, every operation rounded to nearest even,
      through the reference operations of [SpecFloat]. *)

From Stdlib Require Import ZArith List Lia Bool PeanoNat.
From Stdlib Require Import Floats.SpecFloat.
From Stdlib Require Import Ascii.
Import ListNotations.
Local Open Scope Z_scope.

Set Implicit Arguments.

(** ** The undefined-behaviour monad *)

Definition bind {A B : Type} (m : option A) (k : A -> option B) : option B :=
  match m with
  | Some a => k a
  | None => None
  end.

Notation "x <- m ;; k" := (bind m (fun x => k))
  (at level 61, m at next level, right associativity).
Notation "' pat <- m ;; k" := (bind m (fun x => match x with pat => k end))
  (at level 61, pat pattern, m at next level, right associativity).

(** ** Machine integers *)

Definition u32 (z : Z) : Z := z mod 2 ^ 32.

(** Conversion to [int] (two's complement). *)
Definition s32 (z : Z) : Z :=
  let w := z mod 2 ^ 32 in
  if w <? 2 ^ 31 then w else w - 2 ^ 32.

Definition INT_MAX : Z := 2 ^ 31 - 1.

(** ** Blocks of memory *)

Section Memory.
Variable T : Type.

(** [cnt] cells of [l] starting at cell [off]. *)
Definition load (l : list T) (off cnt : Z) : option (list T) :=
  if (0 <=? off) && (0 <=? cnt) && (off + cnt <=? Z.of_nat (length l))
  then Some (firstn (Z.to_nat cnt) (skipn (Z.to_nat off) l))
  else None.

(** [blk] written over [l] from cell [off] on. *)
Definition store (l : list T) (off : Z) (blk : list T) : option (list T) :=
  if (0 <=? off) && (off + Z.of_nat (length blk) <=? Z.of_nat (length l))
  then Some (firstn (Z.to_nat off) l ++ blk
             ++ skipn (Z.to_nat off + length blk) l)
  else None.

(** The same through a pointer that may be [NULL]; a transfer of zero
    cells touches nothing. *)
Definition peek (p : option (list T)) (off cnt : Z) : option (list T) :=
  if cnt =? 0 then Some []
  else match p with
       | Some l => load l off cnt
       | None => None
       end.

Definition poke (p : option (list T)) (off : Z) (blk : list T)
  : option (option (list T)) :=
  match blk with
  | [] => Some p
  | _ => match p with
         | Some l => l' <- store l off blk ;; Some (Some l')
         | None => None
         end
  end.

(** [memmove (p + dst, p + src, cnt)]: the source is read whole before the
    destination is written. *)
Definition memmove (p : option (list T)) (dst src cnt : Z)
  : option (option (list T)) :=
  blk <- peek p src cnt ;; poke p dst blk.

(** [memset (p + dst, 0x00, cnt)], [zero] being the all-zero cell. *)
Definition memset (zero : T) (p : option (list T)) (dst cnt : Z)
  : option (option (list T)) :=
  poke p dst (repeat zero (Z.to_nat cnt)).

(** What the allocator answers to a request: it refuses, or it grants a
    block whose new cells hold whatever [junk] was there. *)
Inductive heap_reply : Type :=
| Refuse
| Grant (junk : nat -> T).

(** [realloc (p, n * sizeof (T))]: the first [min (old, n)] cells are kept;
    a refusal yields [NULL]. *)
Definition realloc (h : heap_reply) (p : option (list T)) (n : Z)
  : option (list T) :=
  match h with
  | Refuse => None
  | Grant junk =>
      let old := match p with Some l => l | None => [] end in
      Some (firstn (Z.to_nat n) old
            ++ map junk (seq 0 (Z.to_nat n - length old)))
  end.

End Memory.

Arguments Refuse {T}.

(** ** The audio delay line (lsync.c, [audio_delay_line]) *)

Section DelayLine.
(** A sample ([jack_default_audio_sample_t]) and the sample whose bytes are
    all zero. *)
Variable sample : Type.
Variable silence : sample.

Record audio_delay_line : Type := mk_line {
  data : option (list sample);
  size : Z;
  alloc_size : Z;
  pos : Z
}.

Definition audio_delay_line_new : audio_delay_line :=
  {| data := None; size := 0; alloc_size := 0; pos := 0 |}.

(** The part of [audio_delay_line_resize] that follows the allocation. *)
Definition resize_in_place (line : audio_delay_line) (new_size : Z)
  : option audio_delay_line :=
  let p := s32 (u32 (u32 (pos line + new_size) - u32 (s32 (size line)))) in
  let p := if p <? 0 then 0 else p in
  d <- memmove (data line) (pos line) p (u32 (new_size - u32 p)) ;;
  d <- (if new_size >? size line
        then memset silence d (pos line) (u32 (new_size - size line))
        else Some d) ;;
  Some {| data := d;
          size := new_size;
          alloc_size := alloc_size line;
          pos := if size line =? 0 then 0 else u32 p |}.

(** [audio_delay_line_resize]: the returned integer and the line as the
    call leaves it. *)
Definition audio_delay_line_resize (h : heap_reply sample)
    (line : audio_delay_line) (new_size : Z)
  : option (Z * audio_delay_line) :=
  if new_size >? alloc_size line then
    let line := {| data := realloc h (data line) new_size;
                   size := size line;
                   alloc_size := new_size;
                   pos := pos line |} in
    match data line with
    | None => Some (1, line)
    | Some _ => line' <- resize_in_place line new_size ;; Some (0, line')
    end
  else
    line' <- resize_in_place line new_size ;; Some (0, line').

(** [audio_delay_line_process]: the line and the [out] block as the call
    leaves them. *)
Definition audio_delay_line_process (line : audio_delay_line)
    (inb out : list sample) (period : Z)
  : option (audio_delay_line * list sample) :=
  let to_swap := if period >? size line then size line else period in
  '(line, out) <-
    (if size line =? 0 then Some (line, out)
     else
       let chunk1 := u32 (size line - pos line) in
       let chunk1 := if chunk1 >? to_swap then to_swap else chunk1 in
       blk <- peek (data line) (pos line) chunk1 ;;
       out <- store out 0 blk ;;
       blk <- load inb (u32 (period - to_swap)) chunk1 ;;
       d <- poke (data line) (pos line) blk ;;
       let chunk2 := u32 (to_swap - chunk1) in
       blk <- peek d 0 chunk2 ;;
       out <- store out chunk1 blk ;;
       blk <- load inb (u32 (period - chunk2)) chunk2 ;;
       d <- poke d 0 blk ;;
       Some ({| data := d;
                size := size line;
                alloc_size := alloc_size line;
                pos := u32 (pos line + to_swap) mod size line |}, out)) ;;
  blk <- load inb 0 (u32 (period - to_swap)) ;;
  out <- store out to_swap blk ;;
  Some (line, out).

(** A run of process calls, one per block; each block comes with the [out]
    buffer the host hands over. *)
Fixpoint process_blocks (line : audio_delay_line)
    (blocks : list (list sample * list sample))
  : option (audio_delay_line * list (list sample)) :=
  match blocks with
  | [] => Some (line, [])
  | (inb, out) :: rest =>
      '(line, o) <- audio_delay_line_process line inb out
                      (Z.of_nat (length inb)) ;;
      '(line, os) <- process_blocks line rest ;;
      Some (line, o :: os)
  end.

(** The samples a line holds, oldest first: what it emits next. *)
Definition history (line : audio_delay_line) : list sample :=
  match data line with
  | Some l =>
      firstn (Z.to_nat (size line - pos line)) (skipn (Z.to_nat (pos line)) l)
      ++ firstn (Z.to_nat (pos line)) l
  | None => []
  end.

(** The state every call below leaves a line in: the block has
    [alloc_size] cells, the delay fits in it and in an [int], and the read
    position is inside the delay. *)
Definition well_formed (line : audio_delay_line) : Prop :=
  0 <= pos line /\ 0 <= size line <= alloc_size line /\
  alloc_size line < 2 ^ 32 /\ size line <= INT_MAX /\
  (size line = 0 -> pos line = 0) /\
  (0 < size line -> pos line < size line) /\
  match data line with
  | Some l => Z.of_nat (length l) = alloc_size line
  | None => alloc_size line = 0
  end.

(** Blocks as the host hands them over: [out] as long as [in], the length
    a [jack_nframes_t]. *)
Definition blocks_ok (blocks : list (list sample * list sample)) : Prop :=
  Forall (fun b => length (snd b) = length (fst b)
                   /\ Z.of_nat (length (fst b)) < 2 ^ 32) blocks.

End DelayLine.

(** ** Single-precision arithmetic *)

(** [float]. *)
Definition float : Type := spec_float.

Module F32.

Definition prec : Z := 24.
Definition emax : Z := 128.

Definition add : float -> float -> float := SFadd prec emax.
Definition sub : float -> float -> float := SFsub prec emax.
Definition mul : float -> float -> float := SFmul prec emax.
Definition div : float -> float -> float := SFdiv prec emax.
Definition ltb : float -> float -> bool := SFltb.
Definition leb : float -> float -> bool := SFleb.
Definition eqb : float -> float -> bool := SFeqb.
Definition ldexp : float -> Z -> float := SFldexp prec emax.

Definition zero : float := S754_zero false.

(** The float nearest to [m * 2 ^ e] (ties to even). *)
Definition nearest (m e : Z) : float := binary_normalize prec emax m e false.

(** Conversion of an integer to [float]. *)
Definition of_int (n : Z) : float := nearest n 0.
Definition of_uint32 (n : Z) : float := of_int n.

Definition one : float := of_int 1.
Definition half : float := ldexp one (-1).

(** 0.1f, the [float] that [atof ("0.1")] is stored as. *)
Definition tenth : float := S754_finite false 13421773 (-27).

(** The integral part of a finite value (the fraction is discarded). *)
Definition trunc (x : float) : option Z :=
  match x with
  | S754_zero _ => Some 0
  | S754_finite s m e =>
      let a := if 0 <=? e then Zpos m * 2 ^ e else Zpos m / 2 ^ (- e) in
      Some (if s then - a else a)
  | _ => None
  end.

(** Conversion of a [float] to [uint32_t]: undefined when the integral part
    is not a value of the type (C11, 6.3.1.4). *)
Definition to_uint32 (x : float) : option Z :=
  n <- trunc x ;;
  if (0 <=? n) && (n <? 2 ^ 32) then Some n else None.

(** [roundf]: the nearest integral value, halfway cases away from zero. *)
Definition roundf (x : float) : float :=
  match x with
  | S754_finite s m e =>
      if 0 <=? e then x
      else
        let d := 2 ^ (- e) in
        let q := Zpos m / d in
        let r := Zpos m mod d in
        let n := if d <=? 2 * r then q + 1 else q in
        if n =? 0 then S754_zero s
        else binary_normalize prec emax (if s then - n else n) 0 s
  | _ => x
  end.

End F32.

(** ** Double precision, as far as [lset] uses it *)

(** [double]. *)
Definition double : Type := spec_float.

Module F64.

Definition prec : Z := 53.
Definition emax : Z := 1024.

Definition mul : double -> double -> double := SFmul prec emax.

(** Conversion of a [float] to [double] (every [float] is a [double]). *)
Definition of_float (x : float) : double :=
  match x with
  | S754_finite s m e => binary_round prec emax s m e
  | _ => x
  end.

(** Conversion of a [double] to [float], rounded to nearest. *)
Definition to_float (x : double) : float :=
  match x with
  | S754_finite s m e => binary_round F32.prec F32.emax s m e
  | _ => x
  end.

End F64.

(** ** The JACK server, as far as the tools see it *)

Inductive jack_latency_callback_mode_t : Type :=
| JackCaptureLatency
| JackPlaybackLatency.

Record jack_latency_range_t : Type := mk_range {
  min : Z;
  max : Z
}.

(** A port handle: the port registered as [input_<n>] (with
    [JackPortIsInput]) or as [output_<n>]. *)
Inductive jack_port_t : Type :=
| input_ (n : nat)
| output_ (n : nat).

Definition port_eqb (a b : jack_port_t) : bool :=
  match a, b with
  | input_ i, input_ j => Nat.eqb i j
  | output_ i, output_ j => Nat.eqb i j
  | _, _ => false
  end.

Definition mode_eqb (a b : jack_latency_callback_mode_t) : bool :=
  match a, b with
  | JackCaptureLatency, JackCaptureLatency => true
  | JackPlaybackLatency, JackPlaybackLatency => true
  | _, _ => false
  end.

(** The latency range the server holds for each port and direction. *)
Definition jack_ranges : Type :=
  jack_port_t -> jack_latency_callback_mode_t -> jack_latency_range_t.

Definition jack_port_get_latency_range (jack : jack_ranges)
    (port : jack_port_t) (mode : jack_latency_callback_mode_t)
  : jack_latency_range_t :=
  jack port mode.

Definition jack_port_set_latency_range (jack : jack_ranges)
    (port : jack_port_t) (mode : jack_latency_callback_mode_t)
    (range : jack_latency_range_t) : jack_ranges :=
  fun p m => if port_eqb p port && mode_eqb m mode then range else jack p m.

(** The sample buffer of each port for the current block. *)
Definition jack_buffers : Type := jack_port_t -> list float.

Definition set_buffer (bufs : jack_buffers) (port : jack_port_t)
    (b : list float) : jack_buffers :=
  fun p => if port_eqb p port then b else bufs p.

(** ** lsync: client code *)

Definition delay_line : Type := audio_delay_line float.

Record port_pair : Type := mk_pair {
  input : jack_port_t;
  output : jack_port_t;
  line : delay_line;
  latency : float;
  delay : Z
}.

(** The command-line settings (fixed once [main] has parsed them). *)
Record settings : Type := mk_settings {
  equalize_capture : bool;
  equalize_playback : bool;
  keep_maximum : bool;
  latency_coefficient : float
}.

(** The globals that change while the client runs. *)
Record client_state : Type := mk_state {
  pairs : list port_pair;
  max_latency : float;
  recalc_required : bool
}.

(** What a negotiation pass does to the locks and to the lines. *)
Inductive event : Type :=
| Lock_pairs
| Unlock_pairs
| Resize (i : nat) (new_delay : Z) (result : Z)
| Lock_main
| Signal_main
| Unlock_main.

(** The weighting both tools apply to a latency range. *)
Definition weighted_latency (coefficient : float) (range : jack_latency_range_t)
  : float :=
  F32.add (F32.mul coefficient (F32.of_uint32 (max range)))
          (F32.mul (F32.sub (F32.of_int 1) coefficient)
                   (F32.of_uint32 (min range))).

Definition get_port_latency (cfg : settings) (jack : jack_ranges)
    (port : jack_port_t) (mode : jack_latency_callback_mode_t) : float :=
  let range := jack_port_get_latency_range jack port mode in
  weighted_latency (latency_coefficient cfg) range.

(** Body of the first loop of [recalculate_pair_delays]: the latency of one
    pair. *)
Definition measure_pair (cfg : settings) (jack : jack_ranges) (p : port_pair)
  : float :=
  let l := F32.of_int 0 in
  let l := if equalize_capture cfg
           then F32.add l (get_port_latency cfg jack (input p) JackCaptureLatency)
           else l in
  let l := if equalize_playback cfg
           then F32.add l (get_port_latency cfg jack (output p) JackPlaybackLatency)
           else l in
  l.

Definition set_latency (p : port_pair) (l : float) : port_pair :=
  {| input := input p; output := output p; line := line p;
     latency := l; delay := delay p |}.

(** The first loop: every pair's latency, and the running maximum. *)
Fixpoint measure_pairs (cfg : settings) (jack : jack_ranges)
    (ps : list port_pair) (mx : float) : list port_pair * float :=
  match ps with
  | [] => ([], mx)
  | p :: rest =>
      let p := set_latency p (measure_pair cfg jack p) in
      let mx := if F32.ltb mx (latency p) then latency p else mx in
      let '(rest, mx) := measure_pairs cfg jack rest mx in
      (p :: rest, mx)
  end.

(** The second loop, from pair [i] on: the pairs, [lock_acquired] and the
    events, in order. The value [audio_delay_line_resize] returns is
    dropped, as the caller drops it. *)
Fixpoint adjust_pairs (heap : nat -> heap_reply float) (mx : float)
    (i : nat) (ps : list port_pair) (lock_acquired : bool)
  : option (list port_pair * bool * list event) :=
  match ps with
  | [] => Some ([], lock_acquired, [])
  | p :: rest =>
      new_delay <- F32.to_uint32 (F32.roundf (F32.sub mx (latency p))) ;;
      if delay p =? new_delay then
        '(rest, la, evs) <- adjust_pairs heap mx (S i) rest lock_acquired ;;
        Some (p :: rest, la, evs)
      else
        let lock := if lock_acquired then [] else [Lock_pairs] in
        '(r, ln) <- audio_delay_line_resize F32.zero (heap i) (line p)
                      new_delay ;;
        let p := {| input := input p; output := output p; line := ln;
                    latency := latency p; delay := new_delay |} in
        '(rest, la, evs) <- adjust_pairs heap mx (S i) rest true ;;
        Some (p :: rest, la, lock ++ Resize i new_delay r :: evs)
  end.

(** [heap i] is what the allocator answers while pair [i] is resized. *)
Definition recalculate_pair_delays (cfg : settings) (jack : jack_ranges)
    (heap : nat -> heap_reply float) (st : client_state)
  : option (client_state * list event) :=
  let mx := if keep_maximum cfg then max_latency st else F32.of_int 0 in
  let '(ps, mx) := measure_pairs cfg jack (pairs st) mx in
  '(ps, lock_acquired, evs) <- adjust_pairs heap mx 0 ps false ;;
  if lock_acquired then
    Some ({| pairs := ps; max_latency := mx; recalc_required := true |},
          evs ++ [Unlock_pairs; Lock_main; Signal_main; Unlock_main])
  else
    Some ({| pairs := ps; max_latency := mx;
             recalc_required := recalc_required st |}, evs).

(** One turn of the loop of [jack_latency]: the range pair [p] publishes. *)
Definition publish_pair (mode : jack_latency_callback_mode_t)
    (jack : jack_ranges) (p : port_pair) : option jack_ranges :=
  let d := F32.of_uint32 (delay p) in
  let '(get, set) := match mode with
                     | JackCaptureLatency => (input p, output p)
                     | JackPlaybackLatency => (output p, input p)
                     end in
  let range := jack_port_get_latency_range jack get mode in
  lo <- F32.to_uint32 (F32.add (F32.of_uint32 (min range)) d) ;;
  hi <- F32.to_uint32 (F32.add (F32.of_uint32 (max range)) d) ;;
  Some (jack_port_set_latency_range jack set mode {| min := lo; max := hi |}).

Fixpoint publish_pairs (mode : jack_latency_callback_mode_t)
    (jack : jack_ranges) (ps : list port_pair) : option jack_ranges :=
  match ps with
  | [] => Some jack
  | p :: rest => jack <- publish_pair mode jack p ;; publish_pairs mode jack rest
  end.

Definition jack_latency (cfg : settings) (heap : nat -> heap_reply float)
    (mode : jack_latency_callback_mode_t) (jack : jack_ranges)
    (st : client_state) : option (client_state * jack_ranges * list event) :=
  '(st, evs) <- recalculate_pair_delays cfg jack heap st ;;
  jack <- publish_pairs mode jack (pairs st) ;;
  Some (st, jack, evs).

(** The loop of [jack_process], the lock being held. *)
Fixpoint process_pairs (nframes : Z) (bufs : jack_buffers)
    (ps : list port_pair) : option (list port_pair * jack_buffers) :=
  match ps with
  | [] => Some ([], bufs)
  | p :: rest =>
      '(ln, out) <- audio_delay_line_process (line p) (bufs (input p))
                      (bufs (output p)) nframes ;;
      let p := {| input := input p; output := output p; line := ln;
                  latency := latency p; delay := delay p |} in
      '(rest, bufs) <- process_pairs nframes (set_buffer bufs (output p) out)
                         rest ;;
      Some (p :: rest, bufs)
  end.

(** [jack_process]; [trylock] tells whether [pairs_lock] was free. *)
Definition jack_process (trylock : bool) (nframes : Z) (bufs : jack_buffers)
    (st : client_state) : option (client_state * jack_buffers) :=
  if trylock then
    '(ps, bufs) <- process_pairs nframes bufs (pairs st) ;;
    Some ({| pairs := ps; max_latency := max_latency st;
             recalc_required := recalc_required st |}, bufs)
  else Some (st, bufs).

(** The pairs as [main] sets them up, numbered from [i]. *)
Fixpoint setup_pairs (i count : nat) : list port_pair :=
  match count with
  | O => []
  | S count =>
      {| input := input_ (i + 1); output := output_ (i + 1);
         line := audio_delay_line_new float;
         latency := F32.of_int 0; delay := 0 |}
      :: setup_pairs (S i) count
  end.

Definition initial_state (pairs_count : nat) : client_state :=
  {| pairs := setup_pairs 0 pairs_count;
     max_latency := F32.of_int 0;
     recalc_required := false |}.


(** ** lsync: [main] *)

Inductive exit_status : Type :=
| EXIT_SUCCESS
| EXIT_FAILURE.

(** How the first part of [main] ends: with [show_usage] and a return, or
    with the arguments the rest of [main] works on. *)
Inductive parsed (A : Type) : Type :=
| Usage (status : exit_status)
| Proceed (a : A).

Arguments Usage {A}.

(** What [getopt_long] gives the loop of [main], call by call: an option
    and, where it has an argument, what [atoi] makes of it, or [atof] and
    the conversion to [float]. *)
Inductive lsync_option : Type :=
| opt_audio_ports (n : Z)
| opt_capture
| opt_playback
| opt_keep
| opt_coefficient (k : float)
| opt_name (optarg : list ascii)
| opt_server (optarg : list ascii)
| opt_help
| opt_unknown.

(** The locals and globals the option loop of [main] sets. *)
Record lsync_arguments : Type := mk_arguments {
  audio_ports : Z;
  chosen : settings;
  name : list ascii;
  server : option (list ascii);
  JackUseExactName : bool;
  JackServerName : bool
}.

Definition with_settings (a : lsync_arguments) (cfg : settings)
  : lsync_arguments :=
  {| audio_ports := audio_ports a; chosen := cfg; name := name a;
     server := server a; JackUseExactName := JackUseExactName a;
     JackServerName := JackServerName a |}.

(** The option loop of [main]. *)
Fixpoint parse_options (opts : list lsync_option) (a : lsync_arguments)
  : parsed lsync_arguments :=
  match opts with
  | [] => Proceed a
  | o :: rest =>
      let cfg := chosen a in
      match o with
      | opt_audio_ports n =>
          if n <? 0 then Usage EXIT_FAILURE
          else parse_options rest
                 {| audio_ports := n; chosen := cfg; name := name a;
                    server := server a;
                    JackUseExactName := JackUseExactName a;
                    JackServerName := JackServerName a |}
      | opt_capture =>
          parse_options rest
            (with_settings a
               {| equalize_capture := true;
                  equalize_playback := equalize_playback cfg;
                  keep_maximum := keep_maximum cfg;
                  latency_coefficient := latency_coefficient cfg |})
      | opt_playback =>
          parse_options rest
            (with_settings a
               {| equalize_capture := equalize_capture cfg;
                  equalize_playback := true;
                  keep_maximum := keep_maximum cfg;
                  latency_coefficient := latency_coefficient cfg |})
      | opt_keep =>
          parse_options rest
            (with_settings a
               {| equalize_capture := equalize_capture cfg;
                  equalize_playback := equalize_playback cfg;
                  keep_maximum := true;
                  latency_coefficient := latency_coefficient cfg |})
      | opt_coefficient k =>
          parse_options rest
            (with_settings a
               {| equalize_capture := equalize_capture cfg;
                  equalize_playback := equalize_playback cfg;
                  keep_maximum := keep_maximum cfg;
                  latency_coefficient := k |})
      | opt_help => Usage EXIT_SUCCESS
      | opt_name optarg =>
          parse_options rest
            {| audio_ports := audio_ports a; chosen := cfg; name := optarg;
               server := server a; JackUseExactName := true;
               JackServerName := JackServerName a |}
      | opt_server optarg =>
          parse_options rest
            {| audio_ports := audio_ports a; chosen := cfg; name := name a;
               server := Some optarg;
               JackUseExactName := JackUseExactName a;
               JackServerName := true |}
      | opt_unknown => Usage EXIT_FAILURE
      end
  end.

(** The values the locals and globals start with. *)
Definition lsync_defaults : lsync_arguments :=
  {| audio_ports := 2;
     chosen := {| equalize_capture := false; equalize_playback := false;
                  keep_maximum := false; latency_coefficient := F32.half |};
     name := ["l"; "s"; "y"; "n"; "c"]%char;
     server := None;
     JackUseExactName := false;
     JackServerName := false |}.

(** [main] up to [jack_client_open]: the option loop and the checks that
    follow it. [operands] is [argc - optind], the number of arguments left
    over once the options are read. *)
Definition read_arguments (opts : list lsync_option) (operands : nat)
  : parsed lsync_arguments :=
  match parse_options opts lsync_defaults with
  | Usage status => Usage status
  | Proceed a =>
      let cfg := chosen a in
      let pairs_count := audio_ports a in
      let cfg :=
        if negb (equalize_capture cfg) && negb (equalize_playback cfg)
        then {| equalize_capture := equalize_capture cfg;
                equalize_playback := true;
                keep_maximum := keep_maximum cfg;
                latency_coefficient := latency_coefficient cfg |}
        else cfg in
      if (0 <? operands)%nat || (pairs_count =? 0) then Usage EXIT_FAILURE
      else Proceed (with_settings a cfg)
  end.

(** One turn of the loop [main] ends in, once [pthread_cond_wait] has
    returned: whether [jack_recompute_total_latencies] is called, and the
    state the turn leaves. *)
Definition main_turn (st : client_state) : bool * client_state :=
  (recalc_required st,
   {| pairs := pairs st; max_latency := max_latency st;
      recalc_required := false |}).
(** ** lset: the latency correction *)

Module Lset.

Record settings : Type := mk_settings {
  correct_capture : bool;
  correct_playback : bool;
  join_range : bool;
  absolute : bool;
  latency_coefficient : float;
  amount : float
}.

(** The range [jack_latency] of lset publishes for the range it read. *)
Definition correct_range (cfg : settings)
    (mode : jack_latency_callback_mode_t) (range : jack_latency_range_t)
  : option jack_latency_range_t :=
  if (correct_capture cfg && mode_eqb mode JackCaptureLatency)
     || (correct_playback cfg && mode_eqb mode JackPlaybackLatency)
  then
    let latency := weighted_latency (latency_coefficient cfg) range in
    let correction :=
      F32.sub (amount cfg) (if absolute cfg then latency else F32.of_int 0) in
    lo <- F32.to_uint32
            (F32.roundf (F32.add (if join_range cfg then latency
                                  else F32.of_uint32 (min range))
                                 correction)) ;;
    hi <- F32.to_uint32
            (F32.roundf (F32.add (if join_range cfg then latency
                                  else F32.of_uint32 (max range))
                                 correction)) ;;
    Some {| min := lo; max := hi |}
  else Some range.

(** A pair of ports of lset. *)
Record port_pair : Type := mk_pair {
  input : jack_port_t;
  output : jack_port_t
}.

(** One turn of the loop of [jack_latency]. *)
Definition correct_pair (cfg : settings) (mode : jack_latency_callback_mode_t)
    (jack : jack_ranges) (p : port_pair) : option jack_ranges :=
  let '(get, set) := match mode with
                     | JackCaptureLatency => (input p, output p)
                     | JackPlaybackLatency => (output p, input p)
                     end in
  let range := jack_port_get_latency_range jack get mode in
  range <- correct_range cfg mode range ;;
  Some (jack_port_set_latency_range jack set mode range).

Fixpoint jack_latency (cfg : settings) (mode : jack_latency_callback_mode_t)
    (jack : jack_ranges) (ps : list port_pair) : option jack_ranges :=
  match ps with
  | [] => Some jack
  | p :: rest =>
      jack <- correct_pair cfg mode jack p ;; jack_latency cfg mode jack rest
  end.

(** [jack_process]: every input block is copied to its output. *)
Fixpoint jack_process (nframes : Z) (bufs : jack_buffers)
    (ps : list port_pair) : option jack_buffers :=
  match ps with
  | [] => Some bufs
  | p :: rest =>
      blk <- load (bufs (input p)) 0 nframes ;;
      out <- store (bufs (output p)) 0 blk ;;
      jack_process nframes (set_buffer bufs (output p) out) rest
  end.

(** The pairs as [main] sets them up, numbered from [i]. *)
Fixpoint setup_pairs (i count : nat) : list port_pair :=
  match count with
  | O => []
  | S count =>
      {| input := input_ (i + 1); output := output_ (i + 1) |}
      :: setup_pairs (S i) count
  end.

(** [amount_len >= 1 && amount_str[amount_len - 1] == c]. *)
Definition ends_in (amount_str : list ascii) (amount_len : nat) (c : ascii)
  : bool :=
  (1 <=? amount_len)%nat
  && match nth_error amount_str (amount_len - 1) with
     | Some x => Ascii.eqb x c
     | None => false
     end.

(** The part of [main] that computes [amount] from the operand: a number
    of frames, or of seconds (suffix [s]) or milliseconds (suffix [ms]) at
    the sample rate of the server. [atof] is the function of the C
    library. *)
Definition calculate_amount (atof : list ascii -> double) (sample_rate : Z)
    (amount_str : list ascii) : parsed float :=
  let amount := F32.of_int 1 in
  let amount_len := length amount_str in
  let '(amount_str, amount_len, amount) :=
    if ends_in amount_str amount_len "s" then
      let amount_len := (amount_len - 1)%nat in
      let amount_str := firstn amount_len amount_str in
      let amount := F32.mul amount (F32.of_uint32 sample_rate) in
      if ends_in amount_str amount_len "m" then
        let amount_len := (amount_len - 1)%nat in
        let amount_str := firstn amount_len amount_str in
        (amount_str, amount_len, F32.div amount (F32.of_int 1000))
      else (amount_str, amount_len, amount)
    else (amount_str, amount_len, amount) in
  if (amount_len =? 0)%nat then Usage EXIT_FAILURE
  else Proceed (F64.to_float (F64.mul (F64.of_float amount)
                                      (atof amount_str))).

(** The port a pair reads its range from, and the one it publishes on. *)
Definition upstream (mode : jack_latency_callback_mode_t) (p : port_pair)
  : jack_port_t :=
  match mode with
  | JackCaptureLatency => input p
  | JackPlaybackLatency => output p
  end.

Definition downstream (mode : jack_latency_callback_mode_t) (p : port_pair)
  : jack_port_t :=
  match mode with
  | JackCaptureLatency => output p
  | JackPlaybackLatency => input p
  end.

Definition ports (ps : list port_pair) : list jack_port_t :=
  flat_map (fun p => [input p; output p]) ps.

(** Whether the direction [mode] is one lset corrects. *)
Definition corrects (cfg : settings) (mode : jack_latency_callback_mode_t)
  : bool :=
  (correct_capture cfg && mode_eqb mode JackCaptureLatency)
  || (correct_playback cfg && mode_eqb mode JackPlaybackLatency).

End Lset.

(** ** Vocabulary of the statements *)

(** The update of [max_latency] in the first loop. *)
Definition fmax (m l : float) : float := if F32.ltb m l then l else m.

(** The delay the second loop wants for a pair. *)
Definition target (mx : float) (p : port_pair) : option Z :=
  F32.to_uint32 (F32.roundf (F32.sub mx (latency p))).

(** A pair after the first loop. *)
Definition measured (cfg : settings) (jack : jack_ranges) (p : port_pair)
  : port_pair :=
  set_latency p (measure_pair cfg jack p).

(** What the second loop leaves of a pair. *)
Definition adjusted (mx : float) (p p' : port_pair) : Prop :=
  input p' = input p /\ output p' = output p /\ latency p' = latency p
  /\ target mx p = Some (delay p')
  /\ (delay p' = delay p -> p' = p).

(** The invariant of a channel pair. *)
Definition delays_match (st : client_state) : Prop :=
  Forall (fun p => delay p = size (line p)) (pairs st).

(** The port a pair reads its range from, and the one it publishes on. *)
Definition upstream (mode : jack_latency_callback_mode_t) (p : port_pair)
  : jack_port_t :=
  match mode with
  | JackCaptureLatency => input p
  | JackPlaybackLatency => output p
  end.

Definition downstream (mode : jack_latency_callback_mode_t) (p : port_pair)
  : jack_port_t :=
  match mode with
  | JackCaptureLatency => output p
  | JackPlaybackLatency => input p
  end.

Definition ports (ps : list port_pair) : list jack_port_t :=
  flat_map (fun p => [input p; output p]) ps.

(** The range the loop of [jack_latency] makes of [range] for a pair
    delayed by [d]. *)
Definition shifted (range : jack_latency_range_t) (d : Z)
  : option jack_latency_range_t :=
  lo <- F32.to_uint32 (F32.add (F32.of_uint32 (min range)) (F32.of_uint32 d)) ;;
  hi <- F32.to_uint32 (F32.add (F32.of_uint32 (max range)) (F32.of_uint32 d)) ;;
  Some {| min := lo; max := hi |}.

(** Ranges and delays whose sums are below 2^24. *)
Definition in_exact_range (mode : jack_latency_callback_mode_t)
    (jack : jack_ranges) (p : port_pair) : Prop :=
  let range := jack (upstream mode p) mode in
  0 <= min range /\ 0 <= max range /\ 0 <= delay p
  /\ min range + delay p < 2 ^ 24 /\ max range + delay p < 2 ^ 24.

(** An event of the resizing loop. *)
Definition is_resize (e : event) : bool :=
  match e with
  | Resize _ _ _ => true
  | _ => false
  end.

(** What [jack_process] makes of one pair. *)
Definition processed (bufs bufs' : jack_buffers) (p p' : port_pair) : Prop :=
  input p' = input p /\ output p' = output p
  /\ latency p' = latency p /\ delay p' = delay p
  /\ well_formed (line p') /\ size (line p') = size (line p)
  /\ bufs' (output p) ++ history (line p')
     = history (line p) ++ bufs (input p).

(** What a pass leaves of a pair whose latency is [l] halves of a frame,
    the largest latency being [m] halves. *)
Definition centred (m l : Z) (p p' : port_pair) : Prop :=
  input p' = input p /\ output p' = output p
  /\ latency p' = F32.nearest l (-1) /\ delay p' = (m - l + 1) / 2.

(** The largest of the numbers [f] gives for the pairs, 0 at least. *)
Definition largest (f : port_pair -> Z) (ps : list port_pair) : Z :=
  fold_left Z.max (map f ps) 0.

(** The bound of a range the coefficient 1 ([true]) or 0 weighs. *)
Definition bound (b : bool) (r : jack_latency_range_t) : Z :=
  if b then max r else min r.

(** The states the client goes through as long as every allocation is
    granted, no delay exceeds what an [int] holds, and the host hands over
    buffers of [nframes] samples. *)
Inductive reachable (cfg : settings) : client_state -> Prop :=
| reach_initial pairs_count :
    reachable cfg (initial_state pairs_count)
| reach_latency st heap mode jack st' jack' evs :
    reachable cfg st ->
    (forall i, heap i <> Refuse) ->
    jack_latency cfg heap mode jack st = Some (st', jack', evs) ->
    Forall (fun p => delay p <= INT_MAX) (pairs st') ->
    reachable cfg st'
| reach_process st trylock nframes bufs st' bufs' :
    reachable cfg st ->
    0 <= nframes < 2 ^ 32 ->
    (forall port, In port (ports (pairs st)) ->
                  Z.of_nat (length (bufs port)) = nframes) ->
    jack_process trylock nframes bufs st = Some (st', bufs') ->
    reachable cfg st'
| reach_main st :
    reachable cfg st -> reachable cfg (snd (main_turn st)).

(** ** Rounding, step by step *)

(** [m * 2 ^ k] on mantissas. *)
Definition shl (m : positive) (k : Z) : positive :=
  match k with
  | Zpos k => Pos.iter xO m k
  | _ => m
  end.

(** A mantissa nothing has been shifted out of. *)
Definition exact (m : positive) : shr_record :=
  {| shr_m := Zpos m; shr_r := false; shr_s := false |}.

(** The first step of [binary_round]: the mantissa brought to the exponent
    of the result, with what was shifted out. *)
Definition align (m : positive) (e : Z) : shr_record * Z :=
  let '(mz, ez) :=
    shl_align m e (fexp F32.prec F32.emax (Zpos (digits2_pos m) + e)) in
  shr_fexp F32.prec F32.emax (Zpos mz) ez loc_Exact.

(** The second step: rounding to nearest even, and the overflow test. *)
Definition finish (s : bool) (st : shr_record * Z) : float :=
  let '(mrs', e') := st in
  let '(mrs'', e'') :=
    shr_fexp F32.prec F32.emax
      (round_nearest_even (shr_m mrs') (loc_of_shr_record mrs')) e'
      loc_Exact in
  match shr_m mrs'' with
  | Z0 => S754_zero s
  | Zpos m =>
      if e'' <=? F32.emax - F32.prec then S754_finite s m e''
      else S754_infinity s
  | Zneg _ => S754_nan
  end.

(** A normal number in canonical form. *)
Definition normal (x : float) : Prop :=
  match x with
  | S754_finite _ m e => Zpos (digits2_pos m) = 24 /\ -148 <= e <= 104
  | _ => False
  end.

(** ** Sample runs *)

(** The default settings of lsync: playback latencies, coefficient 0.5. *)
Definition default_settings : settings :=
  {| equalize_capture := false; equalize_playback := true;
     keep_maximum := false; latency_coefficient := F32.half |}.

(** A server on which [output_2] reports the playback range [lo, hi] and
    [input_1] the capture range [c, c]; every other range is [0, 0]. *)
Definition sample_ranges (lo hi c : Z) : jack_ranges :=
  fun p m =>
    match p, m with
    | output_ 2, JackPlaybackLatency => {| min := lo; max := hi |}
    | input_ 1, JackCaptureLatency => {| min := c; max := c |}
    | _, _ => {| min := 0; max := 0 |}
    end.

Definition granting : nat -> heap_reply float :=
  fun _ => Grant (fun _ => F32.one).

Definition refusing : nat -> heap_reply float := fun _ => Refuse.

(** One block of two frames on [input_1]; the other buffers hold silence. *)
Definition sample_buffers : jack_buffers :=
  fun p =>
    match p with
    | input_ 1 => [F32.one; F32.half]
    | _ => [F32.zero; F32.zero]
    end.

(** A line of integers that holds 1, 2, 3 and is about to emit 2. *)
Definition line_231 : audio_delay_line Z :=
  {| data := Some [1; 2; 3]; size := 3; alloc_size := 3; pos := 1 |}.

(** A fresh line of integers resized to three samples. *)
Definition fresh_3 : audio_delay_line Z :=
  {| data := Some [0; 0; 0]; size := 3; alloc_size := 3; pos := 0 |}.

(** What a fresh line emits when it is resized to 3, fed 1, 2, 3, resized
    to [n] (the new cells holding 99) and fed [inb]. *)
Definition emitted_after_resize (n : Z) (inb : list Z)
  : option (list Z * list Z) :=
  let junk := Grant (fun _ => 99) in
  '(_, l) <- audio_delay_line_resize 0 junk (audio_delay_line_new Z) 3 ;;
  '(l, o1) <- audio_delay_line_process l [1; 2; 3] [0; 0; 0] 3 ;;
  '(_, l) <- audio_delay_line_resize 0 junk l n ;;
  '(_, o2) <- audio_delay_line_process l inb (map (fun _ => 0) inb)
                (Z.of_nat (length inb)) ;;
  Some (o1, o2).

(** A line of integers that holds 1, 2, 3 and is about to emit 1. *)
Definition line_123 : audio_delay_line Z :=
  {| data := Some [1; 2; 3]; size := 3; alloc_size := 3; pos := 0 |}.

(** A line of integers that was resized to 0 and still owns its block. *)
Definition emptied_789 : audio_delay_line Z :=
  {| data := Some [7; 8; 9]; size := 0; alloc_size := 3; pos := 0 |}.

(** The state a pass leaves when [output_2] is 5 frames late: the first
    pair is delayed by 5 frames of silence. *)
Definition settled_state : client_state :=
  {| pairs :=
       [ {| input := input_ 1; output := output_ 1;
            line := {| data := Some (repeat F32.zero 5); size := 5;
                       alloc_size := 5; pos := 0 |};
            latency := F32.zero; delay := 5 |};
         {| input := input_ 2; output := output_ 2;
            line := audio_delay_line_new float;
            latency := F32.of_uint32 5; delay := 0 |} ];
     max_latency := F32.of_uint32 5;
     recalc_required := true |}.

(** lsync with [-l 0] (latencies aligned to their minimum) and with [-k]. *)
Definition minimum_settings : settings :=
  {| equalize_capture := false; equalize_playback := true;
     keep_maximum := false; latency_coefficient := F32.zero |}.

Definition keeping_settings : settings :=
  {| equalize_capture := false; equalize_playback := true;
     keep_maximum := true; latency_coefficient := F32.half |}.

(** lset correcting the playback direction by [a] frames, with or without
    [-j] and [-A], at the default coefficient. *)
Definition lset_settings (join absolute_ : bool) (a : Z) : Lset.settings :=
  {| Lset.correct_capture := false; Lset.correct_playback := true;
     Lset.join_range := join; Lset.absolute := absolute_;
     Lset.latency_coefficient := F32.half; Lset.amount := F32.of_int a |}.

(** * Proofs *)

(** ** Machine integers *)

Lemma u32_small z : 0 <= z < 2 ^ 32 -> u32 z = z.
Proof. intros. unfold u32. now apply Z.mod_small. Qed.

Lemma s32_small z : 0 <= z < 2 ^ 31 -> s32 z = z.
Proof.
  intros. unfold s32. rewrite Z.mod_small by lia.
  destruct (Z.ltb_spec z (2 ^ 31)); lia.
Qed.

Lemma s32_u32 z : - 2 ^ 31 <= z < 2 ^ 31 -> s32 (u32 z) = z.
Proof.
  intros H. unfold s32, u32. rewrite Z.mod_mod by lia.
  destruct (Z_lt_le_dec z 0).
  - replace (z mod 2 ^ 32) with (z + 2 ^ 32)
      by (apply Z.mod_unique with (-1); lia).
    destruct (Z.ltb_spec (z + 2 ^ 32) (2 ^ 31)); lia.
  - rewrite Z.mod_small by lia.
    destruct (Z.ltb_spec z (2 ^ 31)); lia.
Qed.

(** ** Blocks of memory *)

Section MemoryFacts.
Variable T : Type.
Implicit Types l blk : list T.

Lemma load_some l off cnt :
  0 <= off -> 0 <= cnt -> off + cnt <= Z.of_nat (length l) ->
  load l off cnt = Some (firstn (Z.to_nat cnt) (skipn (Z.to_nat off) l)).
Proof.
  intros. unfold load.
  replace ((0 <=? off) && (0 <=? cnt) && (off + cnt <=? Z.of_nat (length l)))
    with true; [reflexivity|].
  symmetry. rewrite !andb_true_iff, !Z.leb_le. lia.
Qed.

Lemma store_some l off blk :
  0 <= off -> off + Z.of_nat (length blk) <= Z.of_nat (length l) ->
  store l off blk
  = Some (firstn (Z.to_nat off) l ++ blk
          ++ skipn (Z.to_nat off + length blk) l).
Proof.
  intros. unfold store.
  replace ((0 <=? off) && (off + Z.of_nat (length blk) <=? Z.of_nat (length l)))
    with true; [reflexivity|].
  symmetry. rewrite !andb_true_iff, !Z.leb_le. lia.
Qed.

Lemma peek_some l off cnt :
  0 <= off -> 0 <= cnt -> off + cnt <= Z.of_nat (length l) ->
  peek (Some l) off cnt
  = Some (firstn (Z.to_nat cnt) (skipn (Z.to_nat off) l)).
Proof.
  intros. unfold peek. destruct (Z.eqb_spec cnt 0) as [->|].
  - reflexivity.
  - now apply load_some.
Qed.

Lemma poke_some l off blk :
  0 <= off -> off + Z.of_nat (length blk) <= Z.of_nat (length l) ->
  poke (Some l) off blk
  = Some (Some (firstn (Z.to_nat off) l ++ blk
                ++ skipn (Z.to_nat off + length blk) l)).
Proof.
  intros. unfold poke. destruct blk as [|b blk'] eqn:E.
  - simpl. rewrite Nat.add_0_r, firstn_skipn. reflexivity.
  - rewrite <- E in *. rewrite store_some by assumption. reflexivity.
Qed.

Lemma peek_ok l off cnt :
  0 <= off -> 0 <= cnt -> off + cnt <= Z.of_nat (length l) ->
  exists blk, peek (Some l) off cnt = Some blk
    /\ Z.of_nat (length blk) = cnt.
Proof.
  intros. eexists. split; [now apply peek_some|].
  rewrite length_firstn, length_skipn. lia.
Qed.

Lemma poke_ok l off blk :
  0 <= off -> off + Z.of_nat (length blk) <= Z.of_nat (length l) ->
  exists l', poke (Some l) off blk = Some (Some l')
    /\ length l' = length l.
Proof.
  intros. eexists. split; [now apply poke_some|].
  rewrite !length_app, length_firstn, length_skipn. lia.
Qed.

(** The same with the offsets given as naturals. *)

Lemma load_at l off cnt (o c : nat) :
  off = Z.of_nat o -> cnt = Z.of_nat c -> (o + c <= length l)%nat ->
  load l off cnt = Some (firstn c (skipn o l)).
Proof.
  intros -> -> ?. rewrite load_some by lia. now rewrite !Nat2Z.id.
Qed.

Lemma peek_at l off cnt (o c : nat) :
  off = Z.of_nat o -> cnt = Z.of_nat c -> (o + c <= length l)%nat ->
  peek (Some l) off cnt = Some (firstn c (skipn o l)).
Proof.
  intros -> -> ?. rewrite peek_some by lia. now rewrite !Nat2Z.id.
Qed.

Lemma store_at l off blk (o : nat) :
  off = Z.of_nat o -> (o + length blk <= length l)%nat ->
  store l off blk = Some (firstn o l ++ blk ++ skipn (o + length blk) l).
Proof.
  intros -> ?. rewrite store_some by lia. now rewrite !Nat2Z.id.
Qed.

Lemma poke_at l off blk (o : nat) :
  off = Z.of_nat o -> (o + length blk <= length l)%nat ->
  poke (Some l) off blk
  = Some (Some (firstn o l ++ blk ++ skipn (o + length blk) l)).
Proof.
  intros -> ?. rewrite poke_some by lia. now rewrite !Nat2Z.id.
Qed.

End MemoryFacts.

(** Equality of lists built from [firstn], [skipn] and [++], cell by cell. *)

Ltac nth_norm :=
  repeat first
    [ rewrite nth_error_app
    | rewrite nth_error_firstn
    | rewrite nth_error_skipn
    | rewrite length_app
    | rewrite length_firstn
    | rewrite length_skipn
    | rewrite repeat_length ].

Ltac norm_min :=
  repeat match goal with
    | |- context [Nat.min ?a ?b] =>
        first [ rewrite (Nat.min_l a b) by lia
              | rewrite (Nat.min_r a b) by lia ]
    end.

Ltac split_ltb :=
  repeat match goal with
    | |- context [(?a <? ?b)%nat] => destruct (Nat.ltb_spec a b); try lia
    end.

Ltac kill_none :=
  repeat match goal with
    | |- context [nth_error ?l ?a] =>
        rewrite (proj2 (nth_error_None l a)) by (nth_norm; lia)
    end.

Ltac list_ext :=
  apply nth_error_ext; intro; nth_norm; norm_min; split_ltb;
  kill_none;
  try reflexivity;
  try (f_equal; lia).

Ltac lens :=
  rewrite ?length_app, ?length_firstn, ?length_skipn, ?repeat_length,
    ?length_map, ?length_seq in *.

(** ** The circular buffer *)

Section Ring.
Variable T : Type.
Implicit Types l inb out : list T.

(** The lists of one [audio_delay_line_process] call: [P] is the read
    position, [S] the delay, [N] the length of the block; [t], [c1], [c2]
    are [to_swap], [chunk1], [chunk2]. What is emitted, followed by what
    the line then holds, is what the line held followed by the block. *)
Lemma ring_swap l inb out (P S N t c1 c2 : nat) :
  (P < S <= length l)%nat -> length inb = N -> length out = N ->
  ((t = N /\ c1 = N /\ c2 = 0 /\ P + N < S)
   \/ (t = N /\ c1 = S - P /\ c2 = P + N - S /\ S <= P + N /\ N <= S)
   \/ (t = S /\ c1 = S - P /\ c2 = P /\ S < N))%nat ->
  forall b1 o1 b2 d1 b3 o2 b4 d2 b5 o3,
    b1 = firstn c1 (skipn P l) ->
    o1 = firstn 0 out ++ b1 ++ skipn (0 + length b1) out ->
    b2 = firstn c1 (skipn (N - t) inb) ->
    d1 = firstn P l ++ b2 ++ skipn (P + length b2) l ->
    b3 = firstn c2 (skipn 0 d1) ->
    o2 = firstn c1 o1 ++ b3 ++ skipn (c1 + length b3) o1 ->
    b4 = firstn c2 (skipn (N - c2) inb) ->
    d2 = firstn 0 d1 ++ b4 ++ skipn (0 + length b4) d1 ->
    b5 = firstn (N - t) (skipn 0 inb) ->
    o3 = firstn t o2 ++ b5 ++ skipn (t + length b5) o2 ->
    let P' := if (P + t <? S)%nat then (P + t)%nat else (P + t - S)%nat in
    o3 ++ firstn (S - P') (skipn P' d2) ++ firstn P' d2
    = (firstn (S - P) (skipn P l) ++ firstn P l) ++ inb.
Proof.
  intros HPS Hi Ho Cases b1 o1 b2 d1 b3 o2 b4 d2 b5 o3
    Eb1 Eo1 Eb2 Ed1 Eb3 Eo2 Eb4 Ed2 Eb5 Eo3 P'.
  assert (Lb1 : length b1 = c1)
    by (subst b1; rewrite length_firstn, length_skipn; lia).
  assert (Lb2 : length b2 = c1)
    by (subst b2; rewrite length_firstn, length_skipn; lia).
  assert (Lb4 : length b4 = c2)
    by (subst b4; rewrite length_firstn, length_skipn; lia).
  assert (Lb5 : length b5 = (N - t)%nat)
    by (subst b5; rewrite length_firstn, length_skipn; lia).
  assert (A1 : o1 = b1 ++ skipn c1 out)
    by (subst o1; simpl; now rewrite Lb1).
  assert (A4 : b3 = firstn c2 l).
  { rewrite Eb3, Ed1. clear - Lb2 HPS Cases.
    destruct Cases as [C|[C|C]]; list_ext. }
  assert (Lb3 : length b3 = c2) by (rewrite A4, length_firstn; lia).
  assert (A2 : o2 = b1 ++ b3 ++ skipn (c1 + c2) out).
  { rewrite Eo2, A1. clear - Lb1 Lb3 Ho HPS Cases.
    destruct Cases as [C|[C|C]]; list_ext. }
  assert (A3 : o3 = b1 ++ b3 ++ b5).
  { rewrite Eo3, A2. clear - Lb1 Lb3 Lb5 Ho HPS Cases.
    destruct Cases as [C|[C|C]]; list_ext. }
  assert (A5 : d2 = b4 ++ skipn c2 d1)
    by (subst d2; simpl; now rewrite Lb4).
  rewrite A3, A5, A4, Ed1. subst P'.
  clear Eo1 Eo2 Eo3 A1 A2 A3 A4 A5 Ed1 Ed2 Eb3 Lb3 o1 o2 o3 d1 d2 b3.
  destruct Cases as [(-> & -> & -> & ?)|[(-> & -> & -> & ? & ?)
                                        |(-> & -> & -> & ?)]].
  - replace (P + N <? S)%nat with true by (symmetry; apply Nat.ltb_lt; lia).
    subst b1 b2 b4 b5. list_ext.
  - replace (P + N <? S)%nat with false by (symmetry; apply Nat.ltb_ge; lia).
    subst b1 b2 b4 b5. list_ext.
  - replace (P + S <? S)%nat with false by (symmetry; apply Nat.ltb_ge; lia).
    subst b1 b2 b4 b5. list_ext.
Qed.

End Ring.

(** ** The delay line *)

Section DelayLineFacts.
Variable sample : Type.
Variable silence : sample.

Lemma history_length (line : audio_delay_line sample) :
  well_formed line -> Z.of_nat (length (history line)) = size line.
Proof.
  unfold well_formed, history. intros (?&?&?&?&?&?&D).
  destruct (data line) as [l|].
  - rewrite length_app, !length_firstn, length_skipn. lia.
  - simpl. lia.
Qed.


Lemma process_spec (line : audio_delay_line sample) inb out period :
  well_formed line -> 0 <= period < 2 ^ 32 ->
  Z.of_nat (length inb) = period -> Z.of_nat (length out) = period ->
  exists line' out',
    audio_delay_line_process line inb out period = Some (line', out')
    /\ well_formed line'
    /\ size line' = size line
    /\ Z.of_nat (length out') = period
    /\ out' ++ history line' = history line ++ inb.
Proof.
  intros (Hp & Hs & Ha & Hm & Hz & Hlt & D) Hper Hi Ho.
  unfold audio_delay_line_process.
  destruct (Z.eqb_spec (size line) 0) as [E|E].
  - (* no delay: the block is copied through *)
    rewrite E.
    replace (if period >? 0 then 0 else period) with 0
      by (destruct (Z.gtb_spec period 0); lia).
    cbn [bind]. rewrite Z.sub_0_r, u32_small by lia.
    rewrite load_some by lia. cbn [bind].
    rewrite store_some by (lens; lia). cbn [bind].
    exists line, (firstn (Z.to_nat 0) out ++
               firstn (Z.to_nat period) (skipn (Z.to_nat 0) inb) ++
               skipn (Z.to_nat 0 + length (firstn (Z.to_nat period) (skipn (Z.to_nat 0) inb))) out).
    split; [reflexivity|].
    split; [unfold well_formed; tauto|].
    split; [lia|].
    split; [lens; lia|].
    unfold history. rewrite E, (Hz E).
    destruct (data line); simpl; rewrite ?app_nil_r;
      list_ext.
  - destruct (data line) as [l|] eqn:Dl; [|lia].
    unfold history. rewrite Dl.
    assert (exists P S : nat,
               pos line = Z.of_nat P /\ size line = Z.of_nat S
               /\ (P < S <= length l)%nat /\ Z.of_nat S < 2 ^ 31)
      as (P & S & -> & -> & HPS & HS).
    { exists (Z.to_nat (pos line)), (Z.to_nat (size line)).
      unfold INT_MAX in *. lia. }
    subst period.
    assert (LO : length out = length inb) by lia.
    remember (length inb) as N eqn:EN.
    clear Hp Hs Hm Hz Hlt Ho E.
    set (T := Nat.min N S). set (C1 := Nat.min (S - P) T).
    set (C2 := (T - C1)%nat).
    replace (if Z.of_nat N >? Z.of_nat S then Z.of_nat S else Z.of_nat N)
      with (Z.of_nat T)
      by (destruct (Z.gtb_spec (Z.of_nat N) (Z.of_nat S)); lia).
    rewrite (@u32_small (Z.of_nat S - Z.of_nat P)) by lia.
    replace (if Z.of_nat S - Z.of_nat P >? Z.of_nat T then Z.of_nat T
             else Z.of_nat S - Z.of_nat P)
      with (Z.of_nat C1)
      by (destruct (Z.gtb_spec (Z.of_nat S - Z.of_nat P) (Z.of_nat T)); lia).
    rewrite (@u32_small (Z.of_nat N - Z.of_nat T)) by lia.
    rewrite (@u32_small (Z.of_nat T - Z.of_nat C1)) by lia.
    replace (Z.of_nat T - Z.of_nat C1) with (Z.of_nat C2) by lia.
    rewrite (@u32_small (Z.of_nat N - Z.of_nat C2)) by lia.
    rewrite (@u32_small (Z.of_nat P + Z.of_nat T)) by lia.
    replace ((Z.of_nat P + Z.of_nat T) mod Z.of_nat S)
      with (Z.of_nat ((P + T) mod S))
      by (rewrite Nat2Z.inj_mod; f_equal; lia).
    assert (HT : T = Nat.min N S) by reflexivity.
    assert (HC1 : C1 = Nat.min (S - P) T) by reflexivity.
    assert (HC2 : C2 = (T - C1)%nat) by reflexivity.
    clearbody T C1 C2.
    rewrite (@peek_at _ l _ _ P C1) by lia. cbn [bind].
    remember (firstn C1 (skipn P l)) as b1 eqn:Eb1.
    assert (Lb1 : length b1 = C1) by (subst b1; lens; lia).
    rewrite (@store_at _ out _ b1 0) by lia. cbn [bind].
    remember (firstn 0 out ++ b1 ++ skipn (0 + length b1) out) as o1 eqn:Eo1.
    assert (Lo1 : length o1 = N) by (subst o1; lens; lia).
    rewrite (@load_at _ inb _ _ (N - T) C1) by lia. cbn [bind].
    remember (firstn C1 (skipn (N - T) inb)) as b2 eqn:Eb2.
    assert (Lb2 : length b2 = C1) by (subst b2; lens; lia).
    rewrite (@poke_at _ l _ b2 P) by lia. cbn [bind].
    remember (firstn P l ++ b2 ++ skipn (P + length b2) l) as d1 eqn:Ed1.
    assert (Ld1 : length d1 = length l) by (subst d1; lens; lia).
    rewrite (@peek_at _ d1 _ _ 0 C2) by lia. cbn [bind].
    remember (firstn C2 (skipn 0 d1)) as b3 eqn:Eb3.
    assert (Lb3 : length b3 = C2) by (subst b3; lens; lia).
    rewrite (@store_at _ o1 _ b3 C1) by lia. cbn [bind].
    remember (firstn C1 o1 ++ b3 ++ skipn (C1 + length b3) o1) as o2 eqn:Eo2.
    assert (Lo2 : length o2 = N) by (subst o2; lens; lia).
    rewrite (@load_at _ inb _ _ (N - C2) C2) by lia. cbn [bind].
    remember (firstn C2 (skipn (N - C2) inb)) as b4 eqn:Eb4.
    assert (Lb4 : length b4 = C2) by (subst b4; lens; lia).
    rewrite (@poke_at _ d1 _ b4 0) by lia. cbn [bind].
    remember (firstn 0 d1 ++ b4 ++ skipn (0 + length b4) d1) as d2 eqn:Ed2.
    assert (Ld2 : length d2 = length l) by (subst d2; lens; lia).
    rewrite (@load_at _ inb _ _ 0 (N - T)) by lia. cbn [bind].
    remember (firstn (N - T) (skipn 0 inb)) as b5 eqn:Eb5.
    assert (Lb5 : length b5 = (N - T)%nat) by (subst b5; lens; lia).
    rewrite (@store_at _ o2 _ b5 T) by lia. cbn [bind].
    remember (firstn T o2 ++ b5 ++ skipn (T + length b5) o2) as o3 eqn:Eo3.
    assert (Lo3 : length o3 = N) by (subst o3; lens; lia).
    eexists _, _. split; [reflexivity|].
    cbn [data size alloc_size pos].
    assert (HM : ((P + T) mod S)%nat
                 = if (P + T <? S)%nat then (P + T)%nat else (P + T - S)%nat).
    { destruct (Nat.ltb_spec (P + T) S).
      - apply Nat.mod_small; lia.
      - symmetry. apply Nat.mod_unique with 1%nat; lia. }
    split.
    { unfold well_formed, INT_MAX. cbn [data size alloc_size pos].
      rewrite HM. destruct (Nat.ltb_spec (P + T) S); repeat split; try lia. }
    split; [reflexivity|].
    split; [lia|].
    replace (Z.to_nat (Z.of_nat S - Z.of_nat P)) with (S - P)%nat by lia.
    replace (Z.to_nat (Z.of_nat S - Z.of_nat ((P + T) mod S)))
      with (S - (P + T) mod S)%nat by lia.
    rewrite !Nat2Z.id, HM.
    apply (@ring_swap _ l inb out P S N T C1 C2)
      with (b1 := b1) (o1 := o1) (b2 := b2) (d1 := d1) (b3 := b3)
           (o2 := o2) (b4 := b4) (d2 := d2) (b5 := b5);
      try assumption; lia.
Qed.

(** The read position [audio_delay_line_resize] computes. *)
Lemma resize_cursor (p s n : Z) :
  0 <= p -> (s = 0 -> p = 0) -> (0 < s -> p < s) ->
  0 <= s <= INT_MAX -> 0 <= n <= INT_MAX ->
  (let q := s32 (u32 (u32 (p + n) - u32 (s32 s))) in
   if q <? 0 then 0 else q) = Z.max 0 (p + n - s).
Proof.
  unfold INT_MAX. intros.
  rewrite (@s32_small s), (@u32_small s), (@u32_small (p + n)) by lia.
  rewrite s32_u32 by lia. cbv zeta.
  destruct (Z.ltb_spec (p + n - s) 0); lia.
Qed.

Lemma resize_in_place_ok (line : audio_delay_line sample) n :
  well_formed line -> 0 <= n <= alloc_size line -> n <= INT_MAX ->
  exists line',
    resize_in_place silence line n = Some line'
    /\ well_formed line' /\ size line' = n
    /\ alloc_size line' = alloc_size line
    /\ (data line = None -> data line' = None).
Proof.
  intros (Hp & Hs & Ha & Hm & Hz & Hlt & D) Hn Hn'.
  unfold resize_in_place.
  rewrite resize_cursor by (unfold INT_MAX in *; lia).
  set (q := Z.max 0 (pos line + n - size line)).
  assert (Hq : 0 <= q <= n) by lia.
  assert (Hq' : q = Z.max 0 (pos line + n - size line)) by reflexivity.
  clearbody q.
  rewrite (@u32_small q), (@u32_small (n - q)) by lia.
  unfold memmove, memset.
  destruct (data line) as [l|] eqn:Dl.
  - destruct (@peek_ok _ l q (n - q)) as (b & -> & Lb); try lia.
    cbn [bind].
    destruct (@poke_ok _ l (pos line) b) as (d & -> & Ld); try lia.
    cbn [bind].
    destruct (Z.gtb_spec n (size line)) as [G|G].
    + rewrite (@u32_small (n - size line)) by lia.
      destruct (@poke_ok _ d (pos line)
                  (repeat silence (Z.to_nat (n - size line))))
        as (d' & -> & Ld'); try (rewrite ?repeat_length; lia).
      cbn [bind]. eexists. split; [reflexivity|].
      unfold well_formed. cbn [data size alloc_size pos].
      destruct (Z.eqb_spec (size line) 0);
        repeat split; try lia; discriminate.
    + cbn [bind]. eexists. split; [reflexivity|].
      unfold well_formed. cbn [data size alloc_size pos].
      destruct (Z.eqb_spec (size line) 0);
        repeat split; try lia; discriminate.
  - assert (n = 0) by lia. subst n.
    assert (size line = 0) by lia. assert (q = 0) by lia. subst q.
    rewrite (Hz H). cbn. rewrite H. cbn.
    eexists. split; [reflexivity|].
    unfold well_formed. cbn [data size alloc_size pos].
    repeat split; try lia.
Qed.

Lemma realloc_granted junk (p : option (list sample)) old n :
  match p with
  | Some l => Z.of_nat (length l) = old
  | None => old = 0
  end ->
  old <= n ->
  exists l', realloc (Grant junk) p n = Some l'
             /\ Z.of_nat (length l') = n.
Proof.
  intros D Hn. unfold realloc. eexists. split; [reflexivity|].
  rewrite length_app, length_firstn, length_map, length_seq.
  destruct p; simpl length in *; lia.
Qed.

(** A granted resize succeeds and keeps the line well formed. *)
Lemma resize_granted junk (line : audio_delay_line sample) n :
  well_formed line -> 0 <= n <= INT_MAX ->
  exists line',
    audio_delay_line_resize silence (Grant junk) line n = Some (0, line')
    /\ well_formed line' /\ size line' = n
    /\ alloc_size line' = Z.max (alloc_size line) n.
Proof.
  intros W Hn. unfold audio_delay_line_resize.
  destruct (Z.gtb_spec n (alloc_size line)) as [G|G].
  - destruct W as (Hp & Hs & Ha & Hm & Hz & Hlt & D).
    destruct (@realloc_granted junk (data line) (alloc_size line) n)
      as (l' & E & L); try assumption; try lia.
    cbn [data]. rewrite E.
    destruct (@resize_in_place_ok
                {| data := Some l'; size := size line; alloc_size := n;
                   pos := pos line |} n)
      as (line' & -> & W' & S' & A' & _).
    + unfold well_formed, INT_MAX in *. cbn [data size alloc_size pos].
      repeat split; try lia.
    + cbn. lia.
    + lia.
    + cbn [bind]. exists line'. cbn [alloc_size] in A'.
      split; [reflexivity|]. split; [assumption|]. split; [assumption|].
      lia.
  - destruct (@resize_in_place_ok line n) as (line' & -> & W' & S' & A' & _);
      try assumption; try lia.
    cbn [bind]. exists line'.
    split; [reflexivity|]. split; [assumption|]. split; [assumption|].
    lia.
Qed.

(** The returned integer: nonzero exactly when the line has to grow and
    the allocator refuses. *)
Lemma resize_result h (line : audio_delay_line sample) n :
  well_formed line -> 0 <= n <= INT_MAX ->
  exists r line',
    audio_delay_line_resize silence h line n = Some (r, line')
    /\ (r <> 0 <-> n > alloc_size line /\ h = Refuse).
Proof.
  intros W Hn. destruct h as [|junk].
  - unfold audio_delay_line_resize.
    destruct (Z.gtb_spec n (alloc_size line)) as [G|G].
    + cbn. eexists _, _. split; [reflexivity|]. split; intros; [|lia].
      split; [lia|reflexivity].
    + destruct (@resize_in_place_ok line n) as (line' & -> & _);
        try assumption; try lia.
      cbn [bind]. eexists _, _. split; [reflexivity|]. lia.
  - destruct (@resize_granted junk line n) as (line' & -> & _);
      try assumption.
    eexists _, _. split; [reflexivity|]. split; [lia|].
    intros (_ & ?). discriminate.
Qed.

(** A line that starts empty holds silence once it has been resized. *)
Lemma resize_fresh junk n :
  0 <= n <= INT_MAX ->
  exists line,
    audio_delay_line_resize silence (Grant junk)
      (audio_delay_line_new sample) n = Some (0, line)
    /\ history line = repeat silence (Z.to_nat n).
Proof.
  intros Hn. unfold audio_delay_line_resize, audio_delay_line_new.
  cbn [data size alloc_size pos].
  destruct (Z.gtb_spec n 0) as [G|G].
  - cbn [realloc]. unfold resize_in_place. cbn [data size alloc_size pos].
    rewrite resize_cursor by (unfold INT_MAX in *; lia).
    replace (Z.max 0 (0 + n - 0)) with n by lia.
    rewrite (@u32_small n) by (unfold INT_MAX in *; lia).
    rewrite Z.sub_diag, Z.sub_0_r.
    rewrite (@u32_small n) by (unfold INT_MAX in *; lia).
    replace (n >? 0) with true by (destruct (Z.gtb_spec n 0); lia).
    rewrite firstn_nil. cbn [app length Nat.sub].
    unfold memmove, memset. change (u32 0) with 0.
    cbn [peek Z.eqb bind poke].
    rewrite poke_some
      by (rewrite ?repeat_length, ?length_map, ?length_seq; lia).
    cbn [bind]. eexists. split; [reflexivity|].
    unfold history. cbn [data size alloc_size pos Z.eqb].
    rewrite repeat_length, Z.sub_0_r.
    cbn [Z.to_nat firstn skipn]. rewrite app_nil_r.
    rewrite !Nat.add_0_l.
    apply nth_error_ext; intro i.
    cbn [app].
    rewrite nth_error_firstn, nth_error_app, repeat_length.
    destruct (Nat.ltb_spec i (Z.to_nat n)); [reflexivity|].
    symmetry. apply nth_error_None. rewrite repeat_length. lia.
  - assert (n = 0) by lia. subst n. cbn. eexists. split; reflexivity.
Qed.

Lemma process_blocks_spec (blocks : list (list sample * list sample)) :
  forall line : audio_delay_line sample,
  well_formed line -> blocks_ok blocks ->
  exists line' outs,
    process_blocks line blocks = Some (line', outs)
    /\ well_formed line'
    /\ size line' = size line
    /\ length (concat outs) = length (concat (map fst blocks))
    /\ concat outs ++ history line' = history line ++ concat (map fst blocks).
Proof.
  induction blocks as [|[inb out] rest IH]; intros line W B.
  - exists line, []. cbn. rewrite app_nil_r. auto.
  - inversion B as [|? ? [Lo Li] B']; subst. cbn [fst snd] in *.
    destruct (@process_spec line inb out (Z.of_nat (length inb)))
      as (l1 & o & E1 & W1 & S1 & L1 & C1); try assumption; try lia.
    destruct (IH l1 W1 B') as (l2 & os & E2 & W2 & S2 & L2 & C2).
    exists l2, (o :: os). cbn [process_blocks].
    rewrite E1. cbn [bind]. rewrite E2. cbn [bind].
    split; [reflexivity|]. split; [assumption|]. split; [congruence|].
    cbn [map concat fst]. split.
    + rewrite !length_app. lia.
    + rewrite <- !app_assoc, C2, !app_assoc, C1. reflexivity.
Qed.


(** Neither call changes the delay behind the caller's back. *)

Lemma bind_assoc (A B C : Type) (m : option A) (f : A -> option B)
    (g : B -> option C) :
  bind (bind m f) g = bind m (fun x => bind (f x) g).
Proof. now destruct m. Qed.

Lemma process_keeps_size (line : audio_delay_line sample) inb out period
    line' out' :
  audio_delay_line_process line inb out period = Some (line', out') ->
  size line' = size line.
Proof.
  unfold audio_delay_line_process.
  destruct (size line =? 0).
  - cbn [bind].
    destruct (load inb 0 _); cbn [bind]; [|discriminate].
    destruct (store out _ _); cbn [bind]; [|discriminate].
    intros E. injection E as E1 E2. now rewrite <- E1.
  - repeat (rewrite ?bind_assoc;
            match goal with
            | |- bind (Some _) _ = Some _ -> _ => cbn [bind]
            | |- bind ?m _ = Some _ -> _ =>
                destruct m; cbn [bind]; [|discriminate]
            end).
    intros E. injection E as E1 E2. now rewrite <- E1.
Qed.

Lemma resize_sets_size junk (line : audio_delay_line sample) n r line' :
  audio_delay_line_resize silence (Grant junk) line n = Some (r, line') ->
  r = 0 /\ size line' = n.
Proof.
  unfold audio_delay_line_resize.
  assert (R : forall l, (l' <- resize_in_place silence l n ;; Some (0, l'))
                        = Some (r, line') -> r = 0 /\ size line' = n).
  { intros l. unfold resize_in_place.
    repeat (rewrite ?bind_assoc;
            match goal with
            | |- bind (Some _) _ = Some _ -> _ => cbn [bind]
            | |- bind ?m _ = Some _ -> _ =>
                destruct m; cbn [bind]; [|discriminate]
            end).
    intros E. injection E as E1 E2. rewrite <- E1, <- E2. auto. }
  destruct (n >? alloc_size line); [|apply R].
  cbn [realloc data]. apply R.
Qed.

End DelayLineFacts.

(** ** Single-precision arithmetic *)

(** The operations of [SpecFloat] are those of the core library; they are
    folded into the ones [lia] knows. *)
Ltac zfold :=
  change IntDef.Z.add with Z.add in *;
  change IntDef.Z.sub with Z.sub in *;
  change IntDef.Z.opp with Z.opp in *;
  change IntDef.Z.mul with Z.mul in *;
  change IntDef.Z.leb with Z.leb in *;
  change IntDef.Z.ltb with Z.ltb in *;
  change IntDef.Z.eqb with Z.eqb in *;
  change IntDef.Z.compare with Z.compare in *.

Section Rounding.
Import F32.

(** *** Order *)

Lemma compare_cont_Lt_trans a b c :
  Pos.compare_cont Eq a b = Lt -> Pos.compare_cont Eq b c = Lt ->
  Pos.compare_cont Eq a c = Lt.
Proof.
  change (Pos.compare_cont Eq) with Pos.compare.
  rewrite !Pos.compare_lt_iff. lia.
Qed.

Lemma compare_cont_Gt_trans a b c :
  Pos.compare_cont Eq a b = Gt -> Pos.compare_cont Eq b c = Gt ->
  Pos.compare_cont Eq a c = Gt.
Proof.
  change (Pos.compare_cont Eq) with Pos.compare.
  rewrite !Pos.compare_gt_iff. lia.
Qed.

Lemma ltb_trans (x y z : float) :
  ltb x y = true -> ltb y z = true -> ltb x z = true.
Proof.
  unfold ltb, SFltb.
  destruct x as [sx|sx| |sx mx ex], y as [sy|sy| |sy my ey],
    z as [sz|sz| |sz mz ez]; cbn;
    try discriminate; try reflexivity;
    repeat match goal with
      | s : bool |- _ => destruct s
      end; try discriminate; try reflexivity.
  - destruct (Z.compare_spec ex ey), (Z.compare_spec ey ez),
      (Z.compare_spec ex ez); try discriminate; try reflexivity; try lia.
    all: subst.
    all: destruct (Pos.compare_cont Eq mx my) eqn:A; try discriminate.
    all: destruct (Pos.compare_cont Eq my mz) eqn:B; try discriminate.
    all: intros _ _.
    all: try (rewrite (compare_cont_Gt_trans _ _ _ A B); reflexivity).
  - destruct (Z.compare_spec ex ey), (Z.compare_spec ey ez),
      (Z.compare_spec ex ez); try discriminate; try reflexivity; try lia.
    all: subst.
    all: destruct (Pos.compare_cont Eq mx my) eqn:A; try discriminate.
    all: destruct (Pos.compare_cont Eq my mz) eqn:B; try discriminate.
    all: intros _ _.
    all: try (rewrite (compare_cont_Lt_trans _ _ _ A B); reflexivity).
Qed.

Lemma ltb_irrefl (x : float) : ltb x x = false.
Proof.
  unfold ltb, SFltb.
  destruct x as [[|]|[|]| |[|] m e]; cbn; try reflexivity;
    rewrite Z.compare_refl;
    change (Pos.compare_cont Eq m m) with (Pos.compare m m);
    now rewrite Pos.compare_refl.
Qed.

Lemma eqb_refl_of_leb (x l : float) : leb x l = true -> eqb l l = true.
Proof.
  unfold leb, SFleb, eqb, SFeqb.
  destruct x as [sx|sx| |sx mx ex], l as [[|]|[|]| |[|] m e]; cbn;
    try discriminate; try reflexivity; intros _;
    rewrite Z.compare_refl;
    change (Pos.compare_cont Eq m m) with (Pos.compare m m);
    now rewrite Pos.compare_refl.
Qed.

Lemma eqb_of_bounds (x l : float) :
  leb x l = true -> ltb x l = false -> eqb x l = true.
Proof.
  unfold leb, ltb, eqb, SFleb, SFltb, SFeqb.
  destruct (SFcompare x l) as [[| |]|]; congruence.
Qed.

Lemma sub_diag_rounds_to_zero (x : float) d :
  to_uint32 (roundf (sub x x)) = Some d -> d = 0.
Proof.
  destruct x as [[|]|[|]| |s m e]; cbn; try discriminate;
    try (intros [= <-]; reflexivity).
  unfold sub, SFsub. rewrite Z.sub_diag. cbn. intros [= <-]. reflexivity.
Qed.

(** *** Rounding *)

Lemma iter_xO_value m k : Zpos (Pos.iter xO m k) = Zpos m * 2 ^ Zpos k.
Proof.
  revert m. induction k using Pos.peano_ind; intros m.
  - cbn [Pos.iter]. lia.
  - rewrite Pos.iter_succ, Pos2Z.inj_succ, Z.pow_succ_r by lia.
    rewrite (Pos2Z.inj_xO (Pos.iter xO m k)), IHk. ring.
Qed.

Lemma shl_value m k : 0 <= k -> Zpos (shl m k) = Zpos m * 2 ^ k.
Proof.
  destruct k as [|k|k]; intros; try lia.
  - cbn [shl]. lia.
  - apply iter_xO_value.
Qed.

Lemma digits_xO_iter m k :
  Zpos (digits2_pos (Pos.iter xO m k)) = Zpos (digits2_pos m) + Zpos k.
Proof.
  induction k using Pos.peano_ind.
  - cbn. lia.
  - rewrite Pos.iter_succ. cbn [digits2_pos]. lia.
Qed.

Lemma digits_shl m k :
  0 <= k -> Zpos (digits2_pos (shl m k)) = Zpos (digits2_pos m) + k.
Proof.
  destruct k as [|k|k]; intros; try lia.
  - cbn [shl]. lia.
  - apply digits_xO_iter.
Qed.

Lemma digits_bound m :
  2 ^ (Zpos (digits2_pos m) - 1) <= Zpos m < 2 ^ Zpos (digits2_pos m).
Proof.
  induction m as [m IH|m IH|]; cbn [digits2_pos].
  - rewrite Pos2Z.inj_succ, (Pos2Z.inj_xI m).
    replace (Z.succ (Zpos (digits2_pos m)) - 1)
      with (Z.succ (Zpos (digits2_pos m) - 1)) by lia.
    rewrite !Z.pow_succ_r by lia.
    revert IH. generalize (2 ^ (Zpos (digits2_pos m) - 1)).
    generalize (2 ^ Zpos (digits2_pos m)). lia.
  - rewrite Pos2Z.inj_succ, (Pos2Z.inj_xO m).
    replace (Z.succ (Zpos (digits2_pos m)) - 1)
      with (Z.succ (Zpos (digits2_pos m) - 1)) by lia.
    rewrite !Z.pow_succ_r by lia.
    revert IH. generalize (2 ^ (Zpos (digits2_pos m) - 1)).
    generalize (2 ^ Zpos (digits2_pos m)). lia.
  - cbn. lia.
Qed.

Lemma digits_le m n : Zpos m < 2 ^ n -> 0 <= n -> Zpos (digits2_pos m) <= n.
Proof.
  intros H Hn. destruct (digits_bound m) as [L _].
  destruct (Z_le_gt_dec (Zpos (digits2_pos m)) n) as [|G]; [assumption|].
  exfalso.
  assert (2 ^ n <= 2 ^ (Zpos (digits2_pos m) - 1))
    by (apply Z.pow_le_mono_r; lia).
  lia.
Qed.

Lemma iter_pos_iter (A : Type) (f : A -> A) n x :
  iter_pos f n x = Pos.iter f x n.
Proof.
  revert x. induction n as [n IH|n IH|]; intros x; cbn.
  - rewrite !IH, !Pos.iter_swap. reflexivity.
  - rewrite !IH. reflexivity.
  - reflexivity.
Qed.

(** Shifting out [k] zero bits is exact. *)
Lemma shr_zeros m k :
  iter_pos shr_1 k
    {| shr_m := Zpos (Pos.iter xO m k); shr_r := false; shr_s := false |}
  = {| shr_m := Zpos m; shr_r := false; shr_s := false |}.
Proof.
  rewrite iter_pos_iter.
  induction k using Pos.peano_ind.
  - reflexivity.
  - rewrite !Pos.iter_succ, <- Pos.iter_swap. cbn [shr_1 orb]. exact IHk.
Qed.

Lemma shl_align_spec m e e' :
  shl_align m e e' = if e' <? e then (shl m (e - e'), e') else (m, e).
Proof.
  unfold shl_align, shl.
  destruct (Z.ltb_spec e' e) as [H|H].
  - destruct (e' - e) as [|d|d] eqn:E; try lia.
    replace (e - e') with (Zpos d) by lia. reflexivity.
  - destruct (e' - e) as [|d|d] eqn:E; try lia; reflexivity.
Qed.

Lemma shl_shl m j k : 0 <= j -> 0 <= k -> shl (shl m j) k = shl m (j + k).
Proof.
  intros Hj Hk.
  destruct j as [|j|j]; try lia; [reflexivity|].
  destruct k as [|k|k]; try lia; [reflexivity|].
  cbn [shl Z.add]. rewrite Pos.add_comm. symmetry. apply Pos.iter_add.
Qed.

Lemma shr_spec mrs e n :
  shr mrs e n
  = if 0 <? n then (iter_pos shr_1 (Z.to_pos n) mrs, e + n) else (mrs, e).
Proof. destruct n; reflexivity. Qed.

(** Shifting right by [n] a mantissa that ends in [n] zero bits. *)
Lemma shr_shl m e n :
  0 <= n -> shr (exact (shl m n)) e n = (exact m, e + n).
Proof.
  intros Hn. destruct n as [|n|n]; try lia.
  - cbn. now rewrite Z.add_0_r.
  - cbn [shr shl]. unfold exact. now rewrite shr_zeros.
Qed.

Lemma shr_shr mrs e j k :
  0 <= j -> 0 <= k ->
  shr mrs e (j + k) = (let '(mrs', e') := shr mrs e j in shr mrs' e' k).
Proof.
  intros Hj Hk.
  destruct j as [|j|j]; try lia; [reflexivity|].
  destruct k as [|k|k]; try lia.
  - cbn. reflexivity.
  - cbn [shr Z.add]. rewrite !iter_pos_iter, Pos.add_comm, Pos.iter_add.
    f_equal. lia.
Qed.

Lemma binary_round_stages s m e :
  binary_round prec emax s m e = finish s (align m e).
Proof.
  unfold binary_round, align, finish, binary_round_aux.
  destruct (shl_align m e _) as [mz ez]. reflexivity.
Qed.

Lemma align_spec m e :
  let t := fexp prec emax (Zpos (digits2_pos m) + e) in
  align m e = if t <? e then (exact (shl m (e - t)), t)
              else shr (exact m) e (t - e).
Proof.
  intros t. unfold align. fold t. rewrite shl_align_spec.
  destruct (Z.ltb_spec t e) as [H|H].
  - unfold shr_fexp. cbn [Zdigits2 shr_record_of_loc].
    rewrite digits_shl by lia.
    replace (Zpos (digits2_pos m) + (e - t) + t)
      with (Zpos (digits2_pos m) + e) by lia.
    fold t. rewrite Z.sub_diag. reflexivity.
  - unfold shr_fexp. cbn [Zdigits2 shr_record_of_loc]. reflexivity.
Qed.

(** Rounding sees the value only: trailing zero bits of the mantissa
    can be moved into the exponent. *)
Lemma align_shl m e k : 0 <= k -> align (shl m k) (e - k) = align m e.
Proof.
  intros Hk. rewrite !align_spec. cbv zeta.
  rewrite digits_shl by lia.
  replace (Zpos (digits2_pos m) + k + (e - k))
    with (Zpos (digits2_pos m) + e) by lia.
  set (t := fexp prec emax (Zpos (digits2_pos m) + e)).
  destruct (Z.ltb_spec t (e - k)) as [H|H].
  - replace (t <? e) with true by (symmetry; apply Z.ltb_lt; lia).
    rewrite shl_shl by lia. do 3 f_equal. lia.
  - destruct (Z.ltb_spec t e) as [H'|H'].
    + replace (shl m k) with (shl (shl m (e - t)) (t - (e - k)))
        by (rewrite shl_shl by lia; f_equal; lia).
      rewrite shr_shl by lia. f_equal. lia.
    + replace (t - (e - k)) with (k + (t - e)) by lia.
      rewrite shr_shr by lia. rewrite shr_shl by lia.
      replace (e - k + k) with e by lia. reflexivity.
Qed.

Lemma binary_round_shl s m e k :
  0 <= k -> binary_round prec emax s (shl m k) (e - k)
            = binary_round prec emax s m e.
Proof. intros. now rewrite !binary_round_stages, align_shl. Qed.

(** A mantissa of at most [prec] bits is not rounded. *)
Lemma binary_round_exact s m e :
  let d := Zpos (digits2_pos m) in
  d <= 24 -> -149 <= d + e - 24 <= 104 ->
  binary_round prec emax s m e
  = S754_finite s (shl m (24 - d)) (d + e - 24).
Proof.
  intros d Hd He. rewrite binary_round_stages, align_spec. cbv zeta.
  fold d. unfold fexp, emin, prec, emax.
  replace (Z.max (d + e - 24) (3 - 128 - 24)) with (d + e - 24) by lia.
  assert (D : Zpos (digits2_pos (shl m (24 - d))) = 24)
    by (rewrite digits_shl by lia; fold d; lia).
  assert (F : finish s (exact (shl m (24 - d)), d + e - 24)
              = S754_finite s (shl m (24 - d)) (d + e - 24)).
  { unfold finish, exact. cbn [shr_m loc_of_shr_record round_nearest_even].
    unfold shr_fexp. cbn [Zdigits2 shr_record_of_loc]. rewrite D.
    unfold fexp, emin, prec, emax.
    replace (Z.max (24 + (d + e - 24) - 24) (3 - 128 - 24) - (d + e - 24))
      with 0 by lia.
    cbn [shr shr_m].
    replace (d + e - 24 <=? 128 - 24) with true
      by (symmetry; apply Z.leb_le; lia).
    reflexivity. }
  destruct (Z.ltb_spec (d + e - 24) e) as [H|H].
  - replace (e - (d + e - 24)) with (24 - d) by lia. exact F.
  - assert (d = 24) by lia.
    replace (d + e - 24 - e) with 0 by lia. cbn [shr].
    replace (24 - d) with 0 in F |- * by lia. cbn [shl] in F |- *.
    replace (d + e - 24) with e in F |- * by lia. exact F.
Qed.

(** *** Integers below 2^24 *)

Lemma binary_round_aux_round s m e :
  e <= fexp prec emax (Zpos (digits2_pos m) + e) ->
  binary_round_aux prec emax s (Zpos m) e loc_Exact
  = binary_round prec emax s m e.
Proof.
  intros H. rewrite binary_round_stages, align_spec. cbv zeta.
  replace (_ <? e) with false by (symmetry; apply Z.ltb_ge; lia).
  reflexivity.
Qed.

Lemma pos_eq_by_value (a b : positive) : Zpos a = Zpos b -> a = b.
Proof. now intros [= ->]. Qed.

(** The product of a power of two of 24 bits and a normal number. *)
Lemma mul_pow2 sx ec m e :
  Zpos (digits2_pos m) = 24 -> -149 <= ec + e + 23 <= 104 ->
  mul (S754_finite false 8388608 ec) (S754_finite sx m e)
  = S754_finite sx m (ec + e + 23).
Proof.
  intros D He. unfold mul, SFmul. cbn [xorb].
  replace (8388608 * m)%positive with (shl m 23)
    by (apply pos_eq_by_value; rewrite shl_value by lia; lia).
  rewrite binary_round_aux_round.
  2:{ rewrite digits_shl, D by lia. unfold fexp, emin, prec, emax.
      zfold. lia. }
  replace (ec + e) with (ec + e + 23 - 23) by lia.
  rewrite binary_round_shl by lia.
  rewrite binary_round_exact by (rewrite D; lia).
  rewrite D. change (shl m (24 - 24)) with m. f_equal; lia.
Qed.

Lemma of_int_pos m :
  Zpos m < 2 ^ 24 ->
  of_int (Zpos m)
  = S754_finite false (shl m (24 - Zpos (digits2_pos m)))
      (Zpos (digits2_pos m) - 24).
Proof.
  intros H. pose proof (digits_le H ltac:(lia)).
  unfold of_int, nearest, binary_normalize.
  rewrite binary_round_exact by lia. f_equal; lia.
Qed.

Lemma of_int_normal n : 0 < n < 2 ^ 24 -> normal (of_int n).
Proof.
  intros [H0 H]. destruct n as [|m|m]; try lia.
  pose proof (digits_le H ltac:(lia)).
  rewrite of_int_pos by assumption. cbn [normal].
  rewrite digits_shl by lia. lia.
Qed.

Lemma to_uint32_of_int n :
  0 <= n < 2 ^ 24 -> to_uint32 (of_int n) = Some n.
Proof.
  intros [H0 H]. destruct n as [|m|m]; try lia; [reflexivity|].
  pose proof (digits_le H ltac:(lia)) as Hd.
  rewrite of_int_pos by assumption. unfold to_uint32, trunc.
  set (d := Zpos (digits2_pos m)) in *.
  assert (V : (if 0 <=? d - 24 then Zpos (shl m (24 - d)) * 2 ^ (d - 24)
               else Zpos (shl m (24 - d)) / 2 ^ (- (d - 24))) = Zpos m).
  { rewrite shl_value by lia.
    destruct (Z.leb_spec 0 (d - 24)).
    - replace (24 - d) with 0 by lia. replace (d - 24) with 0 by lia. lia.
    - replace (- (d - 24)) with (24 - d) by lia.
      apply Z.div_mul. apply Z.pow_nonzero; lia. }
  rewrite V. cbn [bind].
  replace ((0 <=? Zpos m) && (Zpos m <? 2 ^ 32)) with true; [reflexivity|].
  symmetry. apply andb_true_iff. split; [apply Z.leb_le|apply Z.ltb_lt]; lia.
Qed.

Lemma add_finite m1 e1 m2 e2 :
  add (S754_finite false m1 e1) (S754_finite false m2 e2)
  = binary_round prec emax false
      (shl m1 (e1 - Z.min e1 e2) + shl m2 (e2 - Z.min e1 e2))
      (Z.min e1 e2).
Proof.
  unfold add, SFadd. cbn [cond_Zopp]. rewrite !shl_align_spec.
  set (ez := Z.min e1 e2).
  assert (A : fst (if ez <? e1 then (shl m1 (e1 - ez), ez) else (m1, e1))
              = shl m1 (e1 - ez)).
  { destruct (Z.ltb_spec ez e1); [reflexivity|].
    replace (e1 - ez) with 0 by lia. reflexivity. }
  assert (B : fst (if ez <? e2 then (shl m2 (e2 - ez), ez) else (m2, e2))
              = shl m2 (e2 - ez)).
  { destruct (Z.ltb_spec ez e2); [reflexivity|].
    replace (e2 - ez) with 0 by lia. reflexivity. }
  rewrite A, B. reflexivity.
Qed.

(** The sum of two scaled integers, as long as it is rounded once. *)
Lemma add_scaled a b k :
  Zpos a < 2 ^ 24 -> Zpos b < 2 ^ 24 -> -100 <= k <= 0 ->
  add (binary_round prec emax false a k) (binary_round prec emax false b k)
  = binary_round prec emax false (a + b) k.
Proof.
  intros Ha Hb Hk.
  pose proof (digits_le Ha ltac:(lia)) as Da.
  pose proof (digits_le Hb ltac:(lia)) as Db.
  rewrite !binary_round_exact by lia.
  set (da := Zpos (digits2_pos a)) in *.
  set (db := Zpos (digits2_pos b)) in *.
  rewrite add_finite.
  set (ez := Z.min (da + k - 24) (db + k - 24)).
  replace (shl (shl a (24 - da)) (da + k - 24 - ez)
           + shl (shl b (24 - db)) (db + k - 24 - ez))%positive
    with (shl (a + b) (k - ez)).
  - replace ez with (k - (k - ez)) at 2 by lia.
    apply binary_round_shl. lia.
  - apply pos_eq_by_value.
    rewrite Pos2Z.inj_add, !shl_shl, !shl_value by lia.
    rewrite Pos2Z.inj_add.
    replace (24 - da + (da + k - 24 - ez)) with (k - ez) by lia.
    replace (24 - db + (db + k - 24 - ez)) with (k - ez) by lia.
    ring.
Qed.

Lemma add_of_int a b :
  0 <= a -> 0 <= b -> a + b < 2 ^ 24 ->
  add (of_int a) (of_int b) = of_int (a + b).
Proof.
  intros Ha Hb H.
  destruct a as [|a|a]; try lia.
  - destruct b as [|b|b]; try lia; [reflexivity|].
    cbn [Z.add]. rewrite of_int_pos by lia. reflexivity.
  - destruct b as [|b|b]; try lia.
    + cbn [Z.add]. rewrite of_int_pos by lia. reflexivity.
    + unfold of_int, nearest, binary_normalize. cbn [Z.add].
      apply add_scaled; lia.
Qed.

Lemma mul_one_of_int n : 0 <= n < 2 ^ 24 -> mul one (of_int n) = of_int n.
Proof.
  intros [H0 H]. destruct n as [|m|m]; try lia; [reflexivity|].
  pose proof (@of_int_normal (Zpos m) ltac:(lia)) as N.
  destruct (of_int (Zpos m)) as [| | |s m' e']; try contradiction.
  destruct N as [D E]. change one with (S754_finite false 8388608 (-23)).
  rewrite mul_pow2 by lia. f_equal; lia.
Qed.

Lemma mul_zero_of_int n : 0 <= n < 2 ^ 24 -> mul zero (of_int n) = zero.
Proof.
  intros [H0 H]. destruct n as [|m|m]; try lia; [reflexivity|].
  rewrite of_int_pos by assumption. reflexivity.
Qed.

Lemma mul_half_of_int m :
  Zpos m < 2 ^ 24 ->
  mul half (of_int (Zpos m)) = binary_round prec emax false m (-1).
Proof.
  intros H. pose proof (digits_le H ltac:(lia)) as Hd.
  rewrite of_int_pos by assumption.
  change half with (S754_finite false 8388608 (-24)).
  rewrite mul_pow2 by (rewrite ?digits_shl; lia).
  rewrite binary_round_exact by lia. f_equal; lia.
Qed.

Lemma ldexp_of_int m :
  Zpos m < 2 ^ 24 ->
  ldexp (of_int (Zpos m)) (-1) = binary_round prec emax false m (-1).
Proof.
  intros H. pose proof (digits_le H ltac:(lia)) as Hd.
  rewrite of_int_pos by assumption. unfold ldexp, SFldexp.
  set (d := Zpos (digits2_pos m)) in *.
  replace (d - 24 + -1) with (-1 - (24 - d)) by lia.
  apply binary_round_shl. lia.
Qed.

End Rounding.

(** ** The equalizer *)

Lemma measure_pairs_spec cfg jack ps mx :
  measure_pairs cfg jack ps mx
  = (map (measured cfg jack) ps,
     fold_left fmax (map (measure_pair cfg jack) ps) mx).
Proof.
  revert mx. induction ps as [|p ps IH]; intros mx; [reflexivity|].
  cbn [measure_pairs map fold_left]. rewrite IH. reflexivity.
Qed.

Lemma measured_fixed cfg jack p :
  latency p = measure_pair cfg jack p -> measured cfg jack p = p.
Proof. destruct p. unfold measured, set_latency. cbn. now intros <-. Qed.

Lemma measure_pair_ports cfg jack p q :
  input p = input q -> output p = output q ->
  measure_pair cfg jack p = measure_pair cfg jack q.
Proof. unfold measure_pair. now intros -> ->. Qed.

Lemma target_latency mx p q :
  latency p = latency q -> target mx p = target mx q.
Proof. unfold target. now intros ->. Qed.

(** The running maximum is above every latency it has seen. *)
Lemma fmax_upper ls : forall m l,
  In l ls -> F32.ltb (fold_left fmax ls m) l = false.
Proof.
  assert (G : forall ls m l, F32.ltb m l = false ->
                             F32.ltb (fold_left fmax ls m) l = false).
  { induction ls0 as [|x ls0 IH]; intros m l H; [exact H|].
    cbn [fold_left]. apply IH. unfold fmax.
    destruct (F32.ltb m x) eqn:A; [|exact H].
    destruct (F32.ltb x l) eqn:B; [|reflexivity].
    rewrite (ltb_trans _ _ _ A B) in H. discriminate. }
  induction ls as [|x ls IH]; intros m l Hin; [contradiction|].
  destruct Hin as [->|H].
  - cbn [fold_left]. apply G. unfold fmax.
    destruct (F32.ltb m l) eqn:A; [|exact A]. apply ltb_irrefl.
  - cbn [fold_left]. now apply IH.
Qed.

Lemma fmax_stable ls m :
  (forall l, In l ls -> F32.ltb m l = false) -> fold_left fmax ls m = m.
Proof.
  induction ls as [|x ls IH]; intros H; [reflexivity|].
  cbn [fold_left]. unfold fmax at 2. rewrite (H x) by (now left).
  apply IH. intros l Hl. apply H. now right.
Qed.

Lemma fmax_attained ls m : In (fold_left fmax ls m) (m :: ls).
Proof.
  revert m. induction ls as [|x ls IH]; intros m; [now left|].
  cbn [fold_left]. destruct (IH (fmax m x)) as [E|E].
  - rewrite <- E. unfold fmax. destruct (F32.ltb m x); [right|]; now left.
  - right. now right.
Qed.

Section Adjust.
Variable heap : nat -> heap_reply float.
Variable mx : float.

(** The second loop: what it leaves of the pairs, and what it logs. *)
Lemma adjust_pairs_spec ps : forall i la ps' la' evs,
  adjust_pairs heap mx i ps la = Some (ps', la', evs) ->
  Forall2 (adjusted mx) ps ps'
  /\ (forall j n r, In (Resize j n r) evs ->
        exists p, nth_error ps (j - i) = Some p /\ (i <= j)%nat
                  /\ delay p <> n /\ target mx p = Some n)
  /\ (In Lock_pairs evs -> exists j n r, In (Resize j n r) evs).
Proof.
  induction ps as [|p ps IH]; intros i la ps' la' evs E.
  - injection E as <- <- <-. repeat split; try constructor;
      try contradiction.
  - cbn [adjust_pairs] in E. fold (target mx p) in E.
    destruct (target mx p) as [nd|] eqn:T; [|discriminate].
    cbn [bind] in E.
    destruct (Z.eqb_spec (delay p) nd) as [D|D].
    + destruct (adjust_pairs heap mx (S i) ps la)
        as [[[rest la1] evs1]|] eqn:R; [|discriminate].
      cbn [bind] in E. injection E as <- <- <-.
      destruct (IH _ _ _ _ _ R) as (F & Rz & L).
      split; [constructor; [|exact F]|].
      { unfold adjusted. rewrite T, D. auto. }
      split; [|assumption].
      intros j n r Hin. destruct (Rz j n r Hin) as (q & Q1 & Q2 & Q3).
      exists q. replace (j - i)%nat with (S (j - S i)) by lia.
      split; [exact Q1|]. split; [lia|exact Q3].
    + destruct (audio_delay_line_resize F32.zero (heap i) (line p) nd)
        as [[r ln]|]; [|discriminate].
      cbn [bind] in E.
      destruct (adjust_pairs heap mx (S i) ps true)
        as [[[rest la1] evs1]|] eqn:R; [|discriminate].
      cbn [bind] in E. injection E as <- <- <-.
      destruct (IH _ _ _ _ _ R) as (F & Rz & L).
      split; [constructor; [|exact F]|].
      { unfold adjusted. cbn. rewrite T. repeat split. intros; lia. }
      split.
      * intros j n r' Hin. apply in_app_or in Hin.
        destruct Hin as [Hin|[Hin|Hin]].
        -- destruct la; [contradiction|].
           destruct Hin as [Hin|[]]. discriminate.
        -- injection Hin as <- <- <-. exists p.
           rewrite Nat.sub_diag. repeat split; try assumption. lia.
        -- destruct (Rz j n r' Hin) as (q & Q1 & Q2 & Q3).
           exists q. replace (j - i)%nat with (S (j - S i)) by lia.
           split; [exact Q1|]. split; [lia|exact Q3].
      * intros _. exists i, nd, r. apply in_or_app. right. now left.
Qed.

(** Pairs that already have their delay are left alone. *)
Lemma adjust_pairs_settled ps : forall i la,
  Forall (fun p => target mx p = Some (delay p)) ps ->
  adjust_pairs heap mx i ps la = Some (ps, la, []).
Proof.
  induction ps as [|p ps IH]; intros i la H; [reflexivity|].
  inversion H as [|? ? Hp Hps]; subst.
  cbn [adjust_pairs]. fold (target mx p). rewrite Hp. cbn [bind].
  rewrite Z.eqb_refl, IH by assumption. reflexivity.
Qed.

(** As long as the allocator grants, a resized pair has the delay of its
    line. *)
Lemma adjust_pairs_match ps : forall i la ps' la' evs,
  (forall j, heap j <> Refuse) ->
  Forall (fun p => delay p = size (line p)) ps ->
  adjust_pairs heap mx i ps la = Some (ps', la', evs) ->
  Forall (fun p => delay p = size (line p)) ps'.
Proof.
  induction ps as [|p ps IH]; intros i la ps' la' evs G H E.
  - injection E as <- _ _. constructor.
  - inversion H as [|? ? Hp Hps]; subst.
    cbn [adjust_pairs] in E.
    destruct (F32.to_uint32 _) as [nd|]; [|discriminate].
    cbn [bind] in E.
    destruct (delay p =? nd).
    + destruct (adjust_pairs heap mx (S i) ps la)
        as [[[rest la1] evs1]|] eqn:R; [|discriminate].
      cbn [bind] in E. injection E as <- _ _.
      constructor; [exact Hp|]. exact (IH _ _ _ _ _ G Hps R).
    + destruct (heap i) as [|junk] eqn:Hi; [now apply G in Hi|].
      destruct (audio_delay_line_resize F32.zero (Grant junk) (line p) nd)
        as [[r ln]|] eqn:Rs; [|discriminate].
      cbn [bind] in E.
      destruct (adjust_pairs heap mx (S i) ps true)
        as [[[rest la1] evs1]|] eqn:R; [|discriminate].
      cbn [bind] in E. injection E as <- _ _.
      constructor; [|exact (IH _ _ _ _ _ G Hps R)].
      cbn. symmetry. eapply resize_sets_size. eassumption.
Qed.

End Adjust.

Lemma adjusted_latencies mx ps ps' :
  Forall2 (adjusted mx) ps ps' -> map latency ps' = map latency ps.
Proof.
  induction 1 as [|p p' ps ps' (_ & _ & L & _) _ IH]; [reflexivity|].
  cbn [map]. now rewrite L, IH.
Qed.

Lemma adjusted_ports mx ps ps' :
  Forall2 (adjusted mx) ps ps' -> ports ps' = ports ps.
Proof.
  induction 1 as [|p p' ps ps' (I & O & _) _ IH]; [reflexivity|].
  cbn [ports flat_map]. fold (ports ps) (ports ps'). now rewrite I, O, IH.
Qed.

Lemma adjusted_targets mx ps ps' :
  Forall2 (adjusted mx) ps ps' ->
  forall p, In p ps' -> target mx p = Some (delay p).
Proof.
  induction 1 as [|q q' ps ps' (_ & _ & L & T & _) _ IH];
    intros p Hp; [contradiction|].
  destruct Hp as [<-|Hp]; [|now apply IH].
  rewrite (@target_latency mx q' q L). exact T.
Qed.

(** One pass of [recalculate_pair_delays], in terms of its two loops. *)
Lemma recalculate_outcome cfg jack heap st st' evs :
  recalculate_pair_delays cfg jack heap st = Some (st', evs) ->
  let lats := map (measure_pair cfg jack) (pairs st) in
  let mx := fold_left fmax lats
              (if keep_maximum cfg then max_latency st else F32.of_int 0) in
  max_latency st' = mx
  /\ exists la ev,
      adjust_pairs heap mx 0 (map (measured cfg jack) (pairs st)) false
      = Some (pairs st', la, ev)
      /\ (evs = ev \/ evs = ev ++ [Unlock_pairs; Lock_main; Signal_main;
                                   Unlock_main]).
Proof.
  unfold recalculate_pair_delays. cbv zeta. rewrite measure_pairs_spec.
  destruct (adjust_pairs _ _ _ _ _) as [[[ps la] ev]|]; [|discriminate].
  cbn [bind]. intros E.
  destruct la eqn:La; injection E as <- <-; cbn [pairs max_latency];
    (split; [reflexivity|]); [exists true, ev|exists false, ev];
    (split; [reflexivity|]); auto.
Qed.

(** ** The ports *)

Lemma port_eqb_eq a b : port_eqb a b = true <-> a = b.
Proof.
  destruct a, b; cbn; rewrite ?Nat.eqb_eq; split;
    try discriminate; try congruence.
Qed.

Lemma port_eqb_neq a b : a <> b -> port_eqb a b = false.
Proof.
  intros H. destruct (port_eqb a b) eqn:E; [|reflexivity].
  now apply port_eqb_eq in E.
Qed.

Lemma mode_eqb_refl m : mode_eqb m m = true.
Proof. now destruct m. Qed.

Lemma up_down_in_ports mode p ps :
  In p ps ->
  In (upstream mode p) (ports ps) /\ In (downstream mode p) (ports ps).
Proof.
  intros H. unfold ports. rewrite !in_flat_map.
  split; exists p; (split; [assumption|]); destruct mode; cbn; auto.
Qed.

Lemma up_down_distinct mode p q ps :
  NoDup (ports (p :: ps)) -> In q ps ->
  upstream mode q <> downstream mode p
  /\ downstream mode q <> downstream mode p.
Proof.
  intros N Hq. cbn [ports flat_map app] in N.
  inversion N as [|? ? N1 N2]; subst. inversion N2 as [|? ? N3 N4]; subst.
  destruct (@up_down_in_ports mode q ps Hq) as [U D]. fold (ports ps) in *.
  split; intros E; destruct mode; cbn in *; rewrite E in *;
    try contradiction; apply N1; now right.
Qed.

(** The loop of [jack_latency]: with distinct ports, every pair publishes
    the range it read, shifted, and no other range changes. *)
Lemma publish_pairs_spec mode ps : forall jack jack',
  NoDup (ports ps) ->
  publish_pairs mode jack ps = Some jack' ->
  (forall p, In p ps ->
     shifted (jack (upstream mode p) mode) (delay p)
     = Some (jack' (downstream mode p) mode))
  /\ (forall port m,
        (forall p, In p ps -> port <> downstream mode p) ->
        jack' port m = jack port m).
Proof.
  induction ps as [|p ps IH]; intros jack jack' N E.
  - injection E as <-. split; [intros ? []|reflexivity].
  - cbn [publish_pairs] in E.
    destruct (publish_pair mode jack p) as [jack1|] eqn:P; [|discriminate].
    cbn [bind] in E.
    assert (N' : NoDup (ports ps)).
    { cbn [ports flat_map app] in N. now inversion N as [|? ? _ [|? ? _ ?]]. }
    destruct (IH _ _ N' E) as [S K].
    assert (P1 : shifted (jack (upstream mode p) mode) (delay p)
                 = Some (jack1 (downstream mode p) mode)
                 /\ forall port m, port <> downstream mode p ->
                                   jack1 port m = jack port m).
    { unfold publish_pair in P. unfold shifted.
      replace (let '(get, set) := match mode with
                                  | JackCaptureLatency => (input p, output p)
                                  | JackPlaybackLatency => (output p, input p)
                                  end in _)
        with (let get := upstream mode p in
              let set := downstream mode p in
              let range := jack_port_get_latency_range jack get mode in
              lo <- F32.to_uint32
                      (F32.add (F32.of_uint32 (min range))
                               (F32.of_uint32 (delay p))) ;;
              hi <- F32.to_uint32
                      (F32.add (F32.of_uint32 (max range))
                               (F32.of_uint32 (delay p))) ;;
              Some (jack_port_set_latency_range jack set mode
                      {| min := lo; max := hi |})) in P
        by (destruct mode; reflexivity).
      cbv zeta in P. unfold jack_port_get_latency_range in P.
      destruct (F32.to_uint32 _) as [lo|]; [|discriminate].
      cbn [bind] in *.
      destruct (F32.to_uint32 _) as [hi|]; [|discriminate].
      cbn [bind] in *. injection P as <-.
      unfold jack_port_set_latency_range. split.
      - rewrite (proj2 (port_eqb_eq _ _) eq_refl), mode_eqb_refl. reflexivity.
      - intros port m Hne. now rewrite port_eqb_neq. }
    destruct P1 as [P1 P2]. split.
    + intros q [<-|Hq].
      * rewrite P1. f_equal. symmetry. apply K.
        intros q Hq. destruct (@up_down_distinct mode p q ps N Hq) as [_ D].
        congruence.
      * destruct (@up_down_distinct mode p q ps N Hq) as [U _].
        rewrite <- (S q Hq), P2 by assumption. reflexivity.
    + intros port m Hne. rewrite K, P2; auto.
      * apply Hne. now left.
      * intros q Hq. apply Hne. now right.
Qed.


(** Below 2^24 the shift is exact. *)
Lemma shifted_exact r d :
  0 <= min r -> 0 <= max r -> 0 <= d ->
  min r + d < 2 ^ 24 -> max r + d < 2 ^ 24 ->
  shifted r d = Some {| min := min r + d; max := max r + d |}.
Proof.
  intros. unfold shifted, F32.of_uint32.
  rewrite !add_of_int, !to_uint32_of_int by lia. reflexivity.
Qed.

(** On such pairs the loop runs to its end. *)
Lemma publish_pairs_total mode ps : forall jack,
  NoDup (ports ps) ->
  (forall p, In p ps -> in_exact_range mode jack p) ->
  exists jack', publish_pairs mode jack ps = Some jack'.
Proof.
  induction ps as [|p ps IH]; intros jack N B; [now exists jack|].
  cbn [publish_pairs].
  assert (P : exists jack1,
             publish_pair mode jack p = Some jack1
             /\ forall port m, port <> downstream mode p ->
                               jack1 port m = jack port m).
  { destruct (B p (or_introl eq_refl)) as (B1 & B2 & B3 & B4 & B5).
    pose proof (shifted_exact _ B1 B2 B3 B4 B5) as Sh.
    unfold shifted in Sh. unfold publish_pair.
    replace (let '(get, set) := match mode with
                                | JackCaptureLatency => (input p, output p)
                                | JackPlaybackLatency => (output p, input p)
                                end in _)
      with (let range := jack_port_get_latency_range jack (upstream mode p)
                           mode in
            lo <- F32.to_uint32
                    (F32.add (F32.of_uint32 (min range))
                             (F32.of_uint32 (delay p))) ;;
            hi <- F32.to_uint32
                    (F32.add (F32.of_uint32 (max range))
                             (F32.of_uint32 (delay p))) ;;
            Some (jack_port_set_latency_range jack (downstream mode p) mode
                    {| min := lo; max := hi |}))
      by (destruct mode; reflexivity).
    cbv zeta. unfold jack_port_get_latency_range.
    destruct (F32.to_uint32 _) as [lo|]; [|discriminate]. cbn [bind] in *.
    destruct (F32.to_uint32 _) as [hi|]; [|discriminate]. cbn [bind] in *.
    eexists. split; [reflexivity|].
    intros port m Hne. unfold jack_port_set_latency_range.
    now rewrite port_eqb_neq. }
  destruct P as (jack1 & -> & K). cbn [bind].
  apply IH.
  - cbn [ports flat_map app] in N. now inversion N as [|? ? _ [|? ? _ ?]].
  - intros q Hq. destruct (@up_down_distinct mode p q ps N Hq) as [U _].
    unfold in_exact_range. rewrite K by assumption.
    apply B. now right.
Qed.

(** The ports [main] registers are pairwise distinct. *)
Lemma setup_ports_above count : forall i port,
  In port (ports (setup_pairs i count)) ->
  exists k, (i < k)%nat /\ (port = input_ k \/ port = output_ k).
Proof.
  induction count as [|count IH]; intros i port H; [destruct H|].
  cbn [setup_pairs ports flat_map app input output] in H.
  destruct H as [<-|[<-|H]].
  - exists (i + 1)%nat. split; [lia|now left].
  - exists (i + 1)%nat. split; [lia|now right].
  - destruct (IH (S i) port H) as (k & L & K).
    exists k. split; [lia|exact K].
Qed.

Lemma setup_ports_distinct count : forall i,
  NoDup (ports (setup_pairs i count)).
Proof.
  induction count as [|count IH]; intros i; [constructor|].
  cbn [setup_pairs ports flat_map app input output].
  constructor; [|constructor; [|apply IH]].
  - intros [H|H]; [discriminate|].
    destruct (setup_ports_above _ _ _ H) as (k & L & [K|K]);
      [injection K as K; lia|discriminate].
  - intros H.
    destruct (setup_ports_above _ _ _ H) as (k & L & [K|K]);
      [discriminate|injection K as K; lia].
Qed.

(** ** The invariant of the pairs *)

Lemma setup_pairs_match i count :
  Forall (fun p => delay p = size (line p)) (setup_pairs i count).
Proof.
  revert i. induction count as [|count IH]; intros i; constructor;
    [reflexivity|apply IH].
Qed.

Lemma process_pairs_match nframes ps : forall bufs ps' bufs',
  process_pairs nframes bufs ps = Some (ps', bufs') ->
  Forall (fun p => delay p = size (line p)) ps ->
  Forall (fun p => delay p = size (line p)) ps'.
Proof.
  induction ps as [|p ps IH]; intros bufs ps' bufs' E H.
  - injection E as <- _. constructor.
  - inversion H as [|? ? Hp Hps]; subst. cbn [process_pairs] in E.
    destruct (audio_delay_line_process _ _ _ _) as [[ln out]|] eqn:P;
      [|discriminate].
    cbn [bind] in E.
    destruct (process_pairs _ _ _) as [[rest bufs1]|] eqn:R; [|discriminate].
    cbn [bind] in E. injection E as <- _.
    constructor; [|exact (IH _ _ _ R Hps)].
    cbn. erewrite process_keeps_size by eassumption. exact Hp.
Qed.

(** The invariant holds once [main] has set the pairs up. *)
Lemma initial_state_matches n : delays_match (initial_state n).
Proof. apply setup_pairs_match. Qed.

(** Processing a block keeps it. *)
Lemma jack_process_matches trylock nframes bufs st st' bufs' :
  jack_process trylock nframes bufs st = Some (st', bufs') ->
  delays_match st -> delays_match st'.
Proof.
  unfold jack_process, delays_match. destruct trylock.
  - destruct (process_pairs _ _ _) as [[ps b]|] eqn:P; [|discriminate].
    cbn [bind]. intros E. injection E as <- _. cbn [pairs].
    eapply process_pairs_match; eassumption.
  - intros E. now injection E as <- _.
Qed.

(** A negotiation pass keeps it as long as the allocator grants. *)
Lemma recalculate_matches cfg jack heap st st' evs :
  (forall j, heap j <> Refuse) ->
  recalculate_pair_delays cfg jack heap st = Some (st', evs) ->
  delays_match st -> delays_match st'.
Proof.
  intros G E H. destruct (recalculate_outcome _ _ _ _ E) as (_ & la & ev & A & _).
  unfold delays_match in *.
  eapply adjust_pairs_match; [exact G| |exact A].
  clear - H. induction H; constructor; auto.
Qed.

(** ** lset *)

(** A direction lset does not correct keeps its range. *)
Lemma lset_leaves_other_direction cfg mode range :
  (Lset.correct_capture cfg && mode_eqb mode JackCaptureLatency)
  || (Lset.correct_playback cfg && mode_eqb mode JackPlaybackLatency) = false ->
  Lset.correct_range cfg mode range = Some range.
Proof. unfold Lset.correct_range. now intros ->. Qed.

(** * The claims *)

(** ** The delay line *)

Section DelayLineClaims.
Variable sample : Type.
Variable silence : sample.

(** C1. For a delay line of fixed size [d] and any run of process calls
    (blocks shorter than, as long as or longer than [d], or empty, with or
    without wraparound of the read position), the emitted samples, put end
    to end, are the samples fed in delayed by exactly [d]: the first [d]
    emitted samples are the history the line held (silence for a line that
    was resized from fresh), the following ones are the input from its
    start; what the line holds afterwards are the last [d] samples. *)
Theorem delay_line_exact_delay (line : audio_delay_line sample)
    (blocks : list (list sample * list sample)) :
  well_formed line -> blocks_ok blocks ->
  exists line' outs,
    process_blocks line blocks = Some (line', outs)
    /\ well_formed line'
    /\ size line' = size line
    /\ concat outs ++ history line' = history line ++ concat (map fst blocks)
    /\ (forall k : nat,
          (k < length (concat (map fst blocks)))%nat ->
          nth_error (concat outs) k
          = if (k <? Z.to_nat (size line))%nat
            then nth_error (history line) k
            else nth_error (concat (map fst blocks))
                   (k - Z.to_nat (size line)))
    /\ (forall junk,
          audio_delay_line_resize silence (Grant junk)
            (audio_delay_line_new sample) (size line) = Some (0, line) ->
          history line = repeat silence (Z.to_nat (size line))).
Proof.
  intros W B.
  destruct (process_blocks_spec W B) as (l' & outs & E & W' & S' & L & C).
  exists l', outs.
  split; [exact E|]. split; [exact W'|]. split; [exact S'|].
  split; [exact C|]. split.
  - intros k Hk.
    pose proof (history_length W) as HL.
    replace (Z.to_nat (size line)) with (length (history line)) by lia.
    rewrite <- nth_error_app, <- C, nth_error_app.
    destruct (Nat.ltb_spec k (length (concat outs))); [reflexivity|lia].
  - intros junk R.
    destruct W as (_ & Hs & _ & Hm & _).
    destruct (@resize_fresh sample silence junk (size line)) as (l0 & R0 & H0);
      [lia|].
    rewrite R in R0. injection R0 as <-. exact H0.
Qed.

(** C6. Resizing a line to the size it has is a no-op: the allocator is
    not asked (whatever it would answer, [alloc_size] stays), the read
    position does not move and the block is unchanged. *)
Theorem resize_to_current_size_is_no_op (h : heap_reply sample)
    (line : audio_delay_line sample) :
  well_formed line ->
  audio_delay_line_resize silence h line (size line) = Some (0, line).
Proof.
  intros (Hp & Hs & Ha & Hm & Hz & Hlt & D).
  unfold audio_delay_line_resize.
  replace (size line >? alloc_size line) with false
    by (destruct (Z.gtb_spec (size line) (alloc_size line)); lia).
  unfold resize_in_place.
  rewrite resize_cursor by (unfold INT_MAX in *; lia).
  replace (Z.max 0 (pos line + size line - size line)) with (pos line) by lia.
  rewrite (@u32_small (pos line)) by (unfold INT_MAX in *; lia).
  rewrite (@u32_small (size line - pos line)) by (unfold INT_MAX in *; lia).
  rewrite Z.gtb_ltb, Z.ltb_irrefl.
  unfold memmove.
  assert (E : (if size line =? 0 then 0 else pos line) = pos line)
    by (destruct (Z.eqb_spec (size line) 0); lia).
  destruct line as [[l|] s a p]; cbn [data size alloc_size pos] in *.
  - rewrite peek_some by lia. cbn [bind].
    rewrite poke_some by (rewrite ?length_firstn, ?length_skipn; lia).
    cbn [bind]. rewrite E, length_firstn, length_skipn.
    match goal with
    | |- Some (0, {| data := Some ?x; size := _; alloc_size := _;
                     pos := _ |}) = _ =>
        replace x with l by (symmetry; list_ext)
    end.
    reflexivity.
  - assert (s = 0) by lia. subst s. rewrite (Hz eq_refl). reflexivity.
Qed.


(** C10. When [audio_delay_line_resize] returns nonzero, the line is not
    what it was: [alloc_size] is the size asked for, [data] is [NULL] (the
    samples are out of reach), [size] and [pos] are the old ones. The next
    resize to that size and the next block then dereference [NULL]. *)
Theorem resize_failure_corrupts (h : heap_reply sample)
    (line : audio_delay_line sample) n r line' :
  audio_delay_line_resize silence h line n = Some (r, line') ->
  r <> 0 ->
  alloc_size line < n
  /\ line' = {| data := None; size := size line; alloc_size := n;
                pos := pos line |}
  /\ line' <> line
  /\ (0 <= size line < n -> n < 2 ^ 32 ->
      forall h', audio_delay_line_resize silence h' line' n = None)
  /\ (well_formed line -> 0 < size line ->
      forall inb out period,
        0 < period ->
        audio_delay_line_process line' inb out period = None).
Proof.
  unfold audio_delay_line_resize. intros E R.
  destruct (Z.gtb_spec n (alloc_size line)) as [G|G].
  2:{ destruct (resize_in_place silence line n); cbn in E;
      [injection E as <- _; lia|discriminate]. }
  cbn [data] in E.
  destruct (realloc h (data line) n) eqn:A.
  { destruct (resize_in_place silence _ n); cbn in E;
      [injection E as <- _; lia|discriminate]. }
  injection E as _ <-.
  split; [lia|]. split; [reflexivity|]. split.
  { intros Q. apply (f_equal (@alloc_size _)) in Q. cbn in Q. lia. }
  split.
  - intros Hs Hn h'. cbn [alloc_size data size pos].
    rewrite Z.gtb_ltb, Z.ltb_irrefl.
    unfold resize_in_place, memmove, memset.
    cbn [alloc_size data size pos].
    replace (n >? size line) with true
      by (destruct (Z.gtb_spec n (size line)); lia).
    rewrite (@u32_small (n - size line)) by lia.
    destruct (Z.to_nat (n - size line)) as [|k] eqn:K; [lia|].
    destruct (peek None _ _) as [[|b blk]|]; reflexivity.
  - intros (Hp & Hs & Ha & Hm & Hz & Hlt & D) Hpos inb out period Hper.
    unfold audio_delay_line_process. cbn [alloc_size data size pos].
    replace (size line =? 0) with false
      by (destruct (Z.eqb_spec (size line) 0); lia).
    rewrite (@u32_small (size line - pos line)) by lia.
    unfold peek.
    match goal with
    | |- context [if ?c =? 0 then _ else _] =>
        replace (c =? 0) with false; [reflexivity|]
    end.
    symmetry. apply Z.eqb_neq.
    destruct (Z.gtb_spec period (size line));
      destruct (Z.gtb_spec (size line - pos line) (size line));
      destruct (Z.gtb_spec (size line - pos line) period); lia.
Qed.

End DelayLineClaims.

Lemma delay_line_exact_delay_witness :
  audio_delay_line_resize 0 (Grant (fun _ => 99)) (audio_delay_line_new Z) 3
  = Some (0, fresh_3)
  /\ well_formed fresh_3
  /\ blocks_ok [([1; 2; 3; 4; 5], [0; 0; 0; 0; 0])]
  /\ exists line' outs,
      process_blocks fresh_3 [([1; 2; 3; 4; 5], [0; 0; 0; 0; 0])]
      = Some (line', outs)
      /\ outs = [[0; 0; 0; 1; 2]] /\ history line' = [3; 4; 5].
Proof.
  assert (W : well_formed fresh_3)
    by (unfold well_formed, INT_MAX; cbn; repeat split; intros; lia).
  assert (B : blocks_ok [([1; 2; 3; 4; 5], [0; 0; 0; 0; 0])])
    by (repeat constructor; cbn; lia).
  split; [reflexivity|]. split; [exact W|]. split; [exact B|].
  destruct (@delay_line_exact_delay Z 0 fresh_3 _ W B)
    as (line' & outs & E & _).
  exists line', outs. split; [exact E|].
  vm_compute in E. injection E as <- <-. split; reflexivity.
Defined.

Lemma resize_to_current_size_is_no_op_witness :
  well_formed line_231
  /\ audio_delay_line_resize 0 Refuse line_231 3 = Some (0, line_231).
Proof.
  assert (W : well_formed line_231)
    by (unfold well_formed, INT_MAX; cbn; repeat split; intros; lia).
  split; [exact W|].
  exact (@resize_to_current_size_is_no_op Z 0 Refuse line_231 W).
Defined.

Lemma resize_failure_corrupts_witness :
  audio_delay_line_resize 0 Refuse line_231 5
  = Some (1, {| data := None; size := 3; alloc_size := 5; pos := 1 |})
  /\ 1 <> 0
  /\ {| data := None; size := 3; alloc_size := 5; pos := 1 |} <> line_231
  /\ audio_delay_line_resize 0 (Grant (fun _ => 99))
       {| data := None; size := 3; alloc_size := 5; pos := 1 |} 5 = None.
Proof.
  assert (E : audio_delay_line_resize 0 Refuse line_231 5
              = Some (1, {| data := None; size := 3; alloc_size := 5;
                            pos := 1 |})) by reflexivity.
  assert (N : 1 <> 0) by lia.
  split; [exact E|]. split; [exact N|].
  destruct (@resize_failure_corrupts Z 0 Refuse line_231 5 1 _ E N)
    as (_ & _ & D & U & _).
  split; [exact D|]. apply U; cbn; lia.
Defined.

(** C2. Content is not preserved by a resize. A fresh line is resized to 3
    and fed 1, 2, 3. Grown to 5 (the new cells holding 99), it next emits
    99, 99, 99, 0, 0: the three buffered samples are gone and the silence
    sits at the newest end, where the claim has 0, 0, 1, 2, 3. Shrunk to 2,
    it next emits 1, 2, the oldest samples, where the claim keeps the most
    recent ones, 2, 3. *)
Theorem resize_loses_history :
  emitted_after_resize 5 [4; 5; 6; 7; 8] = Some ([0; 0; 0], [99; 99; 99; 0; 0])
  /\ emitted_after_resize 2 [4; 5] = Some ([0; 0; 0], [1; 2]).
Proof. split; reflexivity. Qed.

(** ** The weighted latency *)

(** C5, refuted as stated. With [min = max = 3] and the coefficient 0.1f
    the weighted latency is 12582911 * 2^-22, below 3: the bounds do not
    hold for every coefficient of [0, 1]. And a bound of 2^24 frames or
    more need not be a [float]: at coefficient 0 and [min = 2^24 + 1] the
    result is 2^24. *)
Lemma weighted_latency_leaves_range :
  F32.leb F32.zero F32.tenth = true /\ F32.leb F32.tenth F32.one = true
  /\ weighted_latency F32.tenth {| min := 3; max := 3 |}
     = S754_finite false 12582911 (-22)
  /\ F32.ltb (weighted_latency F32.tenth {| min := 3; max := 3 |})
             (F32.of_uint32 3) = true
  /\ F32.to_uint32
       (weighted_latency F32.zero {| min := 16777217; max := 16777217 |})
     = Some 16777216.
Proof. vm_compute. repeat split. Qed.

(** C5, amended. [get_port_latency] returns
    [coefficient * max + (1 - coefficient) * min] in single precision,
    every operation rounded to nearest. For [0 <= min <= max < 2^24] the
    bounds are floats, and the result is [min] at coefficient 0, [max] at
    coefficient 1 and the float nearest to [(min + max) / 2] at
    coefficient 0.5. *)
Theorem weighted_latency_endpoints (r : jack_latency_range_t) :
  0 <= min r <= max r -> max r < 2 ^ 24 ->
  (forall cfg jack port mode,
      jack port mode = r ->
      get_port_latency cfg jack port mode
      = F32.add (F32.mul (latency_coefficient cfg) (F32.of_uint32 (max r)))
                (F32.mul (F32.sub F32.one (latency_coefficient cfg))
                         (F32.of_uint32 (min r))))
  /\ weighted_latency F32.zero r = F32.of_uint32 (min r)
  /\ weighted_latency F32.one r = F32.of_uint32 (max r)
  /\ weighted_latency F32.half r = F32.nearest (min r + max r) (-1)
  /\ F32.to_uint32 (F32.of_uint32 (min r)) = Some (min r)
  /\ F32.to_uint32 (F32.of_uint32 (max r)) = Some (max r).
Proof.
  destruct r as [mn mx]. cbn [min max]. intros H1 H2.
  split.
  { intros cfg jack port mode E. unfold get_port_latency,
      jack_port_get_latency_range. rewrite E. reflexivity. }
  unfold weighted_latency, F32.of_uint32. cbn [min max].
  change (F32.sub (F32.of_int 1) F32.zero) with F32.one.
  change (F32.sub (F32.of_int 1) F32.one) with F32.zero.
  change (F32.sub (F32.of_int 1) F32.half) with F32.half.
  rewrite !mul_one_of_int, !mul_zero_of_int by lia.
  rewrite !to_uint32_of_int by lia.
  split; [|split; [|split; [|split; reflexivity]]].
  - destruct mn as [|a|a]; try lia; [reflexivity|].
    rewrite of_int_pos by lia. reflexivity.
  - destruct mx as [|b|b]; try lia; [reflexivity|].
    rewrite of_int_pos by lia. reflexivity.
  - destruct mx as [|b|b]; try lia.
    + assert (mn = 0) by lia. subst mn. reflexivity.
    + rewrite mul_half_of_int by lia.
      pose proof (@digits_le b 24 ltac:(lia) ltac:(lia)) as Db.
      destruct mn as [|a|a]; try lia.
      * cbn [Z.add F32.nearest binary_normalize].
        rewrite binary_round_exact by lia. reflexivity.
      * rewrite mul_half_of_int by lia.
        rewrite add_scaled by lia.
        cbn [Z.add F32.nearest binary_normalize]. now rewrite Pos.add_comm.
Qed.

Lemma weighted_latency_endpoints_witness :
  0 <= 4 <= 6 /\ 6 < 2 ^ 24
  /\ weighted_latency F32.zero {| min := 4; max := 6 |} = F32.of_uint32 4
  /\ weighted_latency F32.one {| min := 4; max := 6 |} = F32.of_uint32 6
  /\ weighted_latency F32.half {| min := 4; max := 6 |} = F32.of_uint32 5.
Proof.
  assert (A : 0 <= 4 <= 6) by lia. assert (B : 6 < 2 ^ 24) by lia.
  split; [exact A|]. split; [exact B|].
  destruct (@weighted_latency_endpoints {| min := 4; max := 6 |} A B)
    as (_ & Z0 & Z1 & Zh & _).
  split; [exact Z0|]. split; [exact Z1|]. rewrite Zh. reflexivity.
Defined.

(** ** The equalizer *)

(** C3. After one call of [recalculate_pair_delays] that runs to its end,
    on pairs whose latencies the ports fix: every pair holds its latency;
    [max_latency] is no less than any of them and, without the keep-maximum
    policy, is the latency of some pair (the latencies being non-negative,
    as the weighted latencies of a coefficient of [0, 1] are), while under
    the policy it is that maximum or the peak it held before; every pair's
    delay is [roundf (max_latency - latency)]; and a pair whose latency is
    [max_latency] has delay 0. *)
Theorem recalculate_sets_delays cfg jack heap st st' evs :
  recalculate_pair_delays cfg jack heap st = Some (st', evs) ->
  let lats := map (measure_pair cfg jack) (pairs st) in
  map latency (pairs st') = lats
  /\ (forall l, In l lats -> F32.ltb (max_latency st') l = false)
  /\ (keep_maximum cfg = false -> lats <> [] ->
      (forall l, In l lats -> F32.leb F32.zero l = true) ->
      exists l, In l lats /\ F32.eqb (max_latency st') l = true)
  /\ (keep_maximum cfg = true ->
      max_latency st' = max_latency st \/ In (max_latency st') lats)
  /\ (forall p, In p (pairs st') ->
      F32.to_uint32 (F32.roundf (F32.sub (max_latency st') (latency p)))
      = Some (delay p))
  /\ (forall p, In p (pairs st') ->
      latency p = max_latency st' -> delay p = 0).
Proof.
  intros E.
  destruct (recalculate_outcome _ _ _ _ E) as (M & la & ev & A & _).
  cbv zeta in *.
  set (lats := map (measure_pair cfg jack) (pairs st)) in *.
  set (m0 := if keep_maximum cfg then max_latency st else F32.of_int 0) in *.
  set (mx := fold_left fmax lats m0) in *.
  destruct (adjust_pairs_spec _ _ _ _ _ A) as (F & _).
  pose proof (adjusted_targets F) as T.
  rewrite M.
  split; [|split; [|split; [|split; [|split]]]].
  - rewrite (adjusted_latencies F), map_map. reflexivity.
  - intros l. apply fmax_upper.
  - intros K Hne Hpos.
    assert (M0 : m0 = F32.of_int 0) by (unfold m0; now rewrite K).
    destruct (fmax_attained lats m0) as [E0|E0]; fold mx in E0.
    + destruct lats as [|l0 lats'] eqn:EL; [congruence|].
      exists l0. split; [now left|].
      apply eqb_of_bounds.
      * rewrite <- E0, M0. apply Hpos. now left.
      * apply (@fmax_upper (l0 :: lats')). now left.
    + exists mx. split; [exact E0|].
      apply (@eqb_refl_of_leb F32.zero). now apply Hpos.
  - intros K.
    assert (M0 : m0 = max_latency st) by (unfold m0; now rewrite K).
    destruct (fmax_attained lats m0) as [E0|E0]; fold mx in E0;
      [left; rewrite <- E0|right]; assumption.
  - exact T.
  - intros p Hp L. specialize (T p Hp). unfold target in T. rewrite L in T.
    exact (sub_diag_rounds_to_zero _ T).
Qed.

Lemma recalculate_sets_delays_witness :
  exists st' evs,
    recalculate_pair_delays default_settings (sample_ranges 4 6 0) granting
      (initial_state 2) = Some (st', evs)
    /\ map delay (pairs st') = [5; 0]
    /\ max_latency st' = F32.of_uint32 5
    /\ forall p, In p (pairs st') ->
         F32.to_uint32 (F32.roundf (F32.sub (max_latency st') (latency p)))
         = Some (delay p).
Proof.
  eexists _, _. split; [vm_compute; reflexivity|].
  split; [reflexivity|]. split; [reflexivity|].
  match goal with
  | |- forall p, In p (pairs ?s) -> _ =>
      assert (E : recalculate_pair_delays default_settings
                    (sample_ranges 4 6 0) granting (initial_state 2)
                  = Some (s, [Lock_pairs; Resize 0 5 0; Unlock_pairs;
                              Lock_main; Signal_main; Unlock_main]))
        by (vm_compute; reflexivity)
  end.
  exact (proj1 (proj2 (proj2 (proj2 (proj2
           (recalculate_sets_delays _ _ _ _ E)))))).
Defined.

(** C4. A second call of [recalculate_pair_delays] on the state the first
    one left, the ports and the settings being the same, locks nothing,
    resizes nothing and changes nothing. More generally, in any call a
    line is resized only for a pair whose target differs from its delay,
    and [pairs_lock] is taken only if some line is resized. *)
Theorem steady_state_is_idle cfg jack heap heap' st st1 evs :
  recalculate_pair_delays cfg jack heap st = Some (st1, evs) ->
  recalculate_pair_delays cfg jack heap' st1 = Some (st1, [])
  /\ (forall i n r, In (Resize i n r) evs ->
        exists p, nth_error (pairs st) i = Some p /\ delay p <> n)
  /\ (In Lock_pairs evs -> exists i n r, In (Resize i n r) evs).
Proof.
  intros E.
  destruct (recalculate_outcome _ _ _ _ E) as (M & la & ev & A & P3).
  cbv zeta in *.
  set (lats := map (measure_pair cfg jack) (pairs st)) in *.
  set (m0 := if keep_maximum cfg then max_latency st else F32.of_int 0) in *.
  set (mx := fold_left fmax lats m0) in *.
  destruct (adjust_pairs_spec _ _ _ _ _ A) as (F & Rz & Lk).
  pose proof (adjusted_targets F) as T.
  pose proof (adjusted_latencies F) as L. rewrite map_map in L.
  assert (InEv : forall x, In x evs ->
                           In x ev \/ In x [Unlock_pairs; Lock_main;
                                            Signal_main; Unlock_main]).
  { intros x Hx. destruct P3 as [->| ->]; [now left|].
    now apply in_app_or in Hx. }
  split; [|split].
  - (* the second call *)
    unfold recalculate_pair_delays. cbv zeta. rewrite measure_pairs_spec.
    assert (Mm : map (measured cfg jack) (pairs st1) = pairs st1).
    { clear - F. revert F. generalize (pairs st1). generalize (pairs st).
      induction l as [|p0 l IH]; intros l' F; inversion F as [|? q ? ps Hq F'];
        subst; [reflexivity|].
      cbn [map]. f_equal; [|exact (IH _ F')].
      destruct Hq as (I & O & Lq & _). apply measured_fixed.
      rewrite Lq. cbn in *. apply measure_pair_ports; congruence. }
    assert (Ls : map (measure_pair cfg jack) (pairs st1) = lats).
    { transitivity (map latency (map (measured cfg jack) (pairs st1)));
        [now rewrite map_map|now rewrite Mm, L]. }
    rewrite Mm, Ls.
    assert (Mx : fold_left fmax lats
                   (if keep_maximum cfg then max_latency st1
                    else F32.of_int 0) = mx).
    { destruct (keep_maximum cfg) eqn:K; [|reflexivity].
      rewrite M. apply fmax_stable. intros l Hl.
      now apply fmax_upper. }
    rewrite Mx, adjust_pairs_settled.
    + cbn [bind]. destruct st1. cbn in *. congruence.
    + apply Forall_forall. intros p Hp. now apply T.
  - intros i n r Hx. destruct (InEv _ Hx) as [Hx'|Hx'].
    + destruct (Rz i n r Hx') as (p & N & _ & D & _).
      rewrite Nat.sub_0_r, nth_error_map in N.
      destruct (nth_error (pairs st) i) as [p0|]; [|discriminate].
      injection N as <-. exists p0. split; [reflexivity|exact D].
    + cbn in Hx'. intuition discriminate.
  - intros Hx. destruct (InEv _ Hx) as [Hx'|Hx'].
    + destruct (Lk Hx') as (i & n & r & Hr). exists i, n, r.
      destruct P3 as [->| ->]; [exact Hr|]. apply in_or_app. now left.
    + cbn in Hx'. intuition discriminate.
Qed.

Lemma steady_state_is_idle_witness :
  exists st1 evs,
    recalculate_pair_delays default_settings (sample_ranges 4 6 0) granting
      (initial_state 2) = Some (st1, evs)
    /\ evs = [Lock_pairs; Resize 0 5 0; Unlock_pairs; Lock_main;
              Signal_main; Unlock_main]
    /\ recalculate_pair_delays default_settings (sample_ranges 4 6 0)
         refusing st1 = Some (st1, []).
Proof.
  eexists _, _. split; [vm_compute; reflexivity|].
  split; [reflexivity|].
  match goal with
  | |- recalculate_pair_delays _ _ _ ?s = _ =>
      assert (E : recalculate_pair_delays default_settings
                    (sample_ranges 4 6 0) granting (initial_state 2)
                  = Some (s, [Lock_pairs; Resize 0 5 0; Unlock_pairs;
                              Lock_main; Signal_main; Unlock_main]))
        by (vm_compute; reflexivity)
  end.
  exact (proj1 (@steady_state_is_idle _ _ _ refusing _ _ _ E)).
Defined.

(** C7. The invariant [delay = size of the line] does not survive a refused
    allocation. With two pairs, the second 5 frames late, and an allocator
    that refuses, the pass runs to its end and leaves the first pair with
    [delay = 5] on a line of size 0. (The invariant holds after [main] has
    set the pairs up, and [jack_process] and every pass whose allocations
    are granted keep it: [initial_state_matches], [jack_process_matches],
    [recalculate_matches].) *)
Theorem refused_resize_breaks_invariant :
  delays_match (initial_state 2)
  /\ exists st' evs,
      recalculate_pair_delays default_settings (sample_ranges 4 6 0) refusing
        (initial_state 2) = Some (st', evs)
      /\ map delay (pairs st') = [5; 0]
      /\ map (fun p => size (line p)) (pairs st') = [0; 0]
      /\ ~ delays_match st'.
Proof.
  split; [apply initial_state_matches|].
  eexists _, _. split; [vm_compute; reflexivity|].
  split; [reflexivity|]. split; [reflexivity|].
  unfold delays_match. cbn [pairs]. intros H.
  inversion H as [|? ? H5 _]. cbn in H5. discriminate.
Qed.

(** C8. [audio_delay_line_resize] returns nonzero exactly when the line has
    to grow and the allocator refuses ([resize_result]), but the failure is
    not fatal: [recalculate_pair_delays] drops the returned 1, records the
    new delay, releases the lock and signals as after a success, and the
    next block is processed, the first pair passing its input through
    undelayed. *)
Theorem refused_resize_goes_unnoticed :
  exists st' st'' bufs',
    recalculate_pair_delays default_settings (sample_ranges 4 6 0) refusing
      (initial_state 2)
    = Some (st', [Lock_pairs; Resize 0 5 1; Unlock_pairs; Lock_main;
                  Signal_main; Unlock_main])
    /\ map delay (pairs st') = [5; 0]
    /\ jack_process true 2 sample_buffers st' = Some (st'', bufs')
    /\ bufs' (output_ 1) = sample_buffers (input_ 1).
Proof.
  eexists _, _, _. split; [vm_compute; reflexivity|].
  split; [reflexivity|]. split; [vm_compute; reflexivity|]. reflexivity.
Qed.

(** ** Publishing the ranges *)

(** C9, refuted as stated. The delay is added in single precision: with
    the capture range [2^24, 2^24] on [input_1] and a delay of 1, the range
    published on [output_1] is [2^24, 2^24] again. Nor is the published
    bound the [float] nearest to [min + delay]: the bound, the delay and
    their sum are rounded one after the other, and with the capture range
    [2^24 + 1, 2^24 + 1] and a delay of 1 the range published is
    [2^24, 2^24], although 2^24 + 2 is a [float] and a [jack_nframes_t]. *)
Lemma published_range_is_rounded :
  match jack_latency default_settings granting JackCaptureLatency
          (sample_ranges 1 1 16777216) (initial_state 2) with
  | Some (st', jack', _) =>
      map delay (pairs st') = [1; 0]
      /\ map input (pairs st') = [input_ 1; input_ 2]
      /\ map output (pairs st') = [output_ 1; output_ 2]
      /\ sample_ranges 1 1 16777216 (input_ 1) JackCaptureLatency
         = {| min := 16777216; max := 16777216 |}
      /\ jack' (output_ 1) JackCaptureLatency
         = {| min := 16777216; max := 16777216 |}
  | None => False
  end
  /\ match jack_latency default_settings granting JackCaptureLatency
            (sample_ranges 1 1 16777217) (initial_state 2) with
     | Some (st', jack', _) =>
         map delay (pairs st') = [1; 0]
         /\ map input (pairs st') = [input_ 1; input_ 2]
         /\ map output (pairs st') = [output_ 1; output_ 2]
         /\ sample_ranges 1 1 16777217 (input_ 1) JackCaptureLatency
            = {| min := 16777217; max := 16777217 |}
         /\ jack' (output_ 1) JackCaptureLatency
            = {| min := 16777216; max := 16777216 |}
         /\ F32.to_uint32 (F32.of_uint32 (16777217 + 1)) = Some 16777218
     | None => False
     end.
Proof. vm_compute. repeat split. Qed.

Lemma measured_ports cfg jack ps :
  ports (map (measured cfg jack) ps) = ports ps.
Proof.
  induction ps as [|p ps IH]; [reflexivity|].
  cbn [map ports flat_map]. fold (ports ps).
  fold (ports (map (measured cfg jack) ps)). now rewrite IH.
Qed.

(** C9, amended. For every pair and either direction, [jack_latency] reads
    the range of the upstream port (the input port in capture mode, the
    output port in playback mode) and publishes on the opposite port, for
    the same direction, the range [shifted] makes of it: each bound and
    the delay are converted to [float], added in [float], and the sum is
    converted back to [jack_nframes_t]. As long as the sums stay below
    2^24 the loop runs to its end and the published bounds are exactly
    [min + delay] and [max + delay]; nothing more is said of larger
    sums, where the three roundings follow one another. *)
Theorem jack_latency_publishes cfg heap mode jack st st1 evs :
  recalculate_pair_delays cfg jack heap st = Some (st1, evs) ->
  NoDup (ports (pairs st)) ->
  (forall jack',
      publish_pairs mode jack (pairs st1) = Some jack' ->
      jack_latency cfg heap mode jack st = Some (st1, jack', evs)
      /\ forall p, In p (pairs st1) ->
           shifted (jack (upstream mode p) mode) (delay p)
           = Some (jack' (downstream mode p) mode))
  /\ ((forall p, In p (pairs st1) -> in_exact_range mode jack p) ->
      exists jack',
        jack_latency cfg heap mode jack st = Some (st1, jack', evs)
        /\ forall p, In p (pairs st1) ->
             let range := jack (upstream mode p) mode in
             jack' (downstream mode p) mode
             = {| min := min range + delay p; max := max range + delay p |}).
Proof.
  intros R N.
  destruct (recalculate_outcome _ _ _ _ R) as (_ & la & ev & A & _).
  destruct (adjust_pairs_spec _ _ _ _ _ A) as (F & _).
  assert (N1 : NoDup (ports (pairs st1)))
    by (rewrite (adjusted_ports F), measured_ports; exact N).
  assert (G : forall jack',
             publish_pairs mode jack (pairs st1) = Some jack' ->
             jack_latency cfg heap mode jack st = Some (st1, jack', evs)
             /\ forall p, In p (pairs st1) ->
                  shifted (jack (upstream mode p) mode) (delay p)
                  = Some (jack' (downstream mode p) mode)).
  { intros jack' P. split.
    - unfold jack_latency. rewrite R. cbn [bind]. rewrite P. reflexivity.
    - now destruct (publish_pairs_spec _ _ _ N1 P) as [S _]. }
  split; [exact G|].
  intros B. destruct (@publish_pairs_total mode (pairs st1) jack N1 B) as (jack' & P).
  destruct (G jack' P) as [E S].
  exists jack'. split; [exact E|].
  intros p Hp. cbv zeta. specialize (S p Hp).
  destruct (B p Hp) as (B1 & B2 & B3 & B4 & B5).
  rewrite shifted_exact in S by assumption. now injection S as <-.
Qed.

Lemma jack_latency_publishes_witness :
  exists st1 evs jack',
    recalculate_pair_delays default_settings (sample_ranges 4 6 7) granting
      (initial_state 2) = Some (st1, evs)
    /\ NoDup (ports (pairs (initial_state 2)))
    /\ map delay (pairs st1) = [5; 0]
    /\ jack_latency default_settings granting JackCaptureLatency
         (sample_ranges 4 6 7) (initial_state 2) = Some (st1, jack', evs)
    /\ jack' (output_ 1) JackCaptureLatency = {| min := 12; max := 12 |}.
Proof.
  assert (N : NoDup (ports (pairs (initial_state 2)))).
  { cbn. repeat constructor; cbn; intuition discriminate. }
  destruct (recalculate_pair_delays default_settings (sample_ranges 4 6 7)
              granting (initial_state 2)) as [[st1 evs]|] eqn:R;
    [|vm_compute in R; discriminate].
  assert (D : pairs st1
              = [ {| input := input_ 1; output := output_ 1;
                     line := {| data := Some (repeat F32.zero 5); size := 5;
                                alloc_size := 5; pos := 0 |};
                     latency := F32.zero; delay := 5 |};
                  {| input := input_ 2; output := output_ 2;
                     line := audio_delay_line_new float;
                     latency := F32.of_uint32 5; delay := 0 |} ]).
  { vm_compute in R. injection R as <- _. reflexivity. }
  destruct (@jack_latency_publishes default_settings granting
              JackCaptureLatency _ _ _ _ R N) as [_ T].
  destruct T as (jack' & E & S).
  { rewrite D. intros p [<-|[<-|[]]]; unfold in_exact_range; cbn; lia. }
  exists st1, evs, jack'. split; [reflexivity|]. split; [exact N|].
  split; [now rewrite D|]. split; [exact E|].
  assert (H1 : In {| input := input_ 1; output := output_ 1;
                     line := {| data := Some (repeat F32.zero 5); size := 5;
                                alloc_size := 5; pos := 0 |};
                     latency := F32.zero; delay := 5 |} (pairs st1))
    by (rewrite D; now left).
  exact (S _ H1).
Defined.

(** * Further properties of the code *)

(** ** The delay line *)

Section DelayLineMore.
Variable sample : Type.
Variable silence : sample.

(** X1. [audio_delay_line_resize] on a well-formed line, for any requested
    size an [int] can hold and any answer of the allocator: the call
    returns 0 or 1, and 1 exactly when the block has to grow and the
    allocator refuses; when it returns 0 the line is well formed again, has
    the requested size, and its block has grown to the requested size if
    it was smaller and is otherwise as large as before. *)
Theorem resize_keeps_line_well_formed (h : heap_reply sample)
    (line : audio_delay_line sample) (n : Z) :
  well_formed line -> 0 <= n <= INT_MAX ->
  exists r line',
    audio_delay_line_resize silence h line n = Some (r, line')
    /\ (r = 0 \/ r = 1)
    /\ (r = 1 <-> alloc_size line < n /\ h = Refuse)
    /\ (r = 0 ->
        well_formed line' /\ size line' = n
        /\ alloc_size line' = Z.max (alloc_size line) n).
Proof.
  intros W Hn. destruct h as [|junk].
  - unfold audio_delay_line_resize.
    destruct (Z.gtb_spec n (alloc_size line)) as [G|G].
    + cbn. eexists _, _. split; [reflexivity|].
      split; [now right|]. split; [|discriminate].
      split; intros; [split; [lia|reflexivity]|reflexivity].
    + destruct (@resize_in_place_ok _ silence line n)
        as (line' & -> & W' & S' & A' & _); try assumption.
      { destruct W as (_ & ? & _). lia. }
      { lia. }
      cbn [bind]. eexists _, _. split; [reflexivity|].
      split; [now left|]. split; [split; [discriminate|lia]|].
      intros _. split; [assumption|]. split; [assumption|]. lia.
  - destruct (@resize_granted _ silence junk line n)
      as (line' & -> & W' & S' & A'); try assumption.
    eexists _, _. split; [reflexivity|]. split; [now left|].
    split; [split; [discriminate|intros (_ & ?); discriminate]|].
    intros _. auto.
Qed.

(** X2. Resizing to zero: whatever the allocator would answer, the call
    returns 0, leaves the block and its capacity alone and resets the
    cursor. *)
Theorem resize_to_zero_empties (h : heap_reply sample)
    (line : audio_delay_line sample) :
  well_formed line ->
  audio_delay_line_resize silence h line 0
  = Some (0, {| data := data line; size := 0;
                alloc_size := alloc_size line; pos := 0 |}).
Proof.
  intros (Hp & Hs & Ha & Hm & Hz & Hlt & D).
  unfold audio_delay_line_resize.
  replace (0 >? alloc_size line) with false
    by (symmetry; destruct (Z.gtb_spec 0 (alloc_size line)); [lia|reflexivity]).
  unfold resize_in_place.
  pose proof (@resize_cursor (pos line) (size line) 0) as C.
  cbv zeta in C. rewrite C; try assumption; try (unfold INT_MAX in *; lia).
  replace (Z.max 0 (pos line + 0 - size line)) with 0 by lia.
  change (u32 0) with 0. change (u32 (0 - 0)) with 0.
  unfold memmove. cbn [peek Z.eqb bind poke].
  replace (0 >? size line) with false
    by (symmetry; destruct (Z.gtb_spec 0 (size line)); [lia|reflexivity]).
  cbn [bind]. destruct (size line =? 0); reflexivity.
Qed.

(** X3. Growing an empty line: a well-formed line of size 0, whatever its
    block holds, resized to [n] with the allocation granted, holds [n]
    samples of silence. *)
Theorem resize_from_empty_is_silent junk (line : audio_delay_line sample)
    (n : Z) :
  well_formed line -> size line = 0 -> 0 <= n <= INT_MAX ->
  exists line',
    audio_delay_line_resize silence (Grant junk) line n = Some (0, line')
    /\ well_formed line' /\ size line' = n
    /\ history line' = repeat silence (Z.to_nat n).
Proof.
  intros W S0 Hn.
  destruct (@resize_granted _ silence junk line n W Hn)
    as (line' & E & W' & S' & A').
  exists line'. split; [exact E|]. split; [exact W'|]. split; [exact S'|].
  destruct W as (Hp & Hs & Ha & Hm & Hz & Hlt & D).
  pose proof (Hz S0) as P0.
  assert (R : forall ln : audio_delay_line sample,
             size ln = 0 -> pos ln = 0 ->
             match data ln with
             | Some l => Z.of_nat (length l) = alloc_size ln
             | None => alloc_size ln = 0
             end ->
             n <= alloc_size ln ->
             forall ln', resize_in_place silence ln n = Some ln' ->
             history ln' = repeat silence (Z.to_nat n)).
  { intros ln Sz Pz Dl Al ln'. unfold resize_in_place.
    rewrite Sz, Pz.
    pose proof (@resize_cursor 0 0 n) as C. cbv zeta in C.
    rewrite C by (unfold INT_MAX in *; lia).
    replace (Z.max 0 (0 + n - 0)) with n by lia.
    rewrite (@u32_small n) by (unfold INT_MAX in *; lia).
    rewrite Z.sub_diag, Z.sub_0_r. change (u32 0) with 0.
    rewrite (@u32_small n) by (unfold INT_MAX in *; lia).
    unfold memmove. cbn [peek Z.eqb bind poke].
    destruct (Z.gtb_spec n 0) as [G|G].
    - unfold memset. destruct (data ln) as [l|] eqn:Dn.
      + rewrite poke_some by (rewrite ?repeat_length; lia).
        cbn [bind]. intros [= <-]. unfold history.
        cbn [data size alloc_size pos Z.eqb]. rewrite Z.sub_0_r.
        cbn [Z.to_nat firstn skipn app]. rewrite app_nil_r.
        rewrite firstn_app, repeat_length, Nat.sub_diag, firstn_O, app_nil_r.
        apply firstn_all2. rewrite repeat_length. lia.
      + lia.
    - assert (N0 : n = 0) by lia. rewrite N0. cbn [bind Z.eqb].
      intros [= <-]. unfold history. cbn [data size pos].
      destruct (data ln); reflexivity. }
  unfold audio_delay_line_resize in E.
  destruct (Z.gtb_spec n (alloc_size line)) as [G|G].
  - cbn [data] in E.
    destruct (@realloc_granted _ junk (data line) (alloc_size line) n)
      as (l' & El & L); try assumption; try lia.
    rewrite El in E.
    destruct (resize_in_place _ _ _) as [ln'|] eqn:Ei; [|discriminate].
    cbn [bind] in E. injection E as <-.
    eapply R; [| | | |exact Ei]; cbn [data size alloc_size pos];
      try assumption; try lia.
  - destruct (resize_in_place _ _ _) as [ln'|] eqn:Ei; [|discriminate].
    cbn [bind] in E. injection E as <-.
    eapply R; [| | | |exact Ei]; try assumption; try lia.
Qed.

(** X4. Shrinking a line whose cursor is at the start of the block keeps the
    samples it would emit next, the oldest ones, and drops the newest. *)
Theorem resize_shrink_keeps_oldest (h : heap_reply sample)
    (line : audio_delay_line sample) (n : Z) :
  well_formed line -> pos line = 0 -> 0 <= n <= size line ->
  exists line',
    audio_delay_line_resize silence h line n = Some (0, line')
    /\ size line' = n /\ pos line' = 0
    /\ history line' = firstn (Z.to_nat n) (history line).
Proof.
  intros (Hp & Hs & Ha & Hm & Hz & Hlt & D) P0 Hn.
  unfold audio_delay_line_resize.
  replace (n >? alloc_size line) with false
    by (symmetry; destruct (Z.gtb_spec n (alloc_size line)); [lia|reflexivity]).
  unfold resize_in_place. rewrite P0.
  pose proof (@resize_cursor 0 (size line) n) as C. cbv zeta in C.
  rewrite C by (unfold INT_MAX in *; lia).
  replace (Z.max 0 (0 + n - size line)) with 0 by lia.
  change (u32 0) with 0. rewrite Z.sub_0_r.
  rewrite (@u32_small n) by (unfold INT_MAX in *; lia).
  replace (n >? size line) with false
    by (symmetry; destruct (Z.gtb_spec n (size line)); [lia|reflexivity]).
  unfold memmove.
  destruct (Z.eq_dec n 0) as [->|N0].
  - cbn [peek Z.eqb bind poke]. eexists. split; [reflexivity|].
    cbn [size pos]. split; [reflexivity|].
    split; [destruct (size line =? 0); reflexivity|].
    unfold history. cbn [data size pos].
    destruct (size line =? 0); destruct (data line); reflexivity.
  - destruct (data line) as [l|] eqn:Dl; [|lia].
    rewrite peek_some by lia. cbn [bind].
    rewrite poke_some by (rewrite ?length_firstn, ?length_skipn; lia).
    cbn [bind]. eexists. split; [reflexivity|].
    cbn [size pos]. split; [reflexivity|].
    split; [destruct (size line =? 0); reflexivity|].
    unfold history. cbn [data size pos]. rewrite Dl, P0.
    replace (if size line =? 0 then 0 else 0) with 0
      by (destruct (size line =? 0); reflexivity).
    rewrite !Z.sub_0_r. cbn [Z.to_nat skipn firstn Nat.add app].
    rewrite !app_nil_r.
    rewrite length_firstn, Nat.min_l by lia.
    rewrite firstn_skipn, firstn_firstn. f_equal. lia.
Qed.

(** X5. Growing a line puts the silence at the newest end. Of the samples a
    line of size [s] holds, those stored before the cursor (the [pos]
    newest ones) survive, and the silence follows them. The statement
    leaves open what takes the place of the [s - pos] samples it would
    have emitted next. *)
Theorem resize_grow_appends_silence junk (line : audio_delay_line sample)
    (n : Z) :
  well_formed line -> 0 < size line < n -> n <= INT_MAX ->
  exists line',
    audio_delay_line_resize silence (Grant junk) line n = Some (0, line')
    /\ size line' = n
    /\ skipn (Z.to_nat (size line - pos line)) (history line')
       = skipn (Z.to_nat (size line - pos line)) (history line)
         ++ repeat silence (Z.to_nat (n - size line)).
Proof.
  intros W Hs Hn.
  destruct (@resize_granted _ silence junk line n W ltac:(lia))
    as (line' & E & W' & S' & A').
  exists line'. split; [exact E|]. split; [exact S'|].
  destruct W as (Hp & Hs' & Ha & Hm & Hz & Hlt & D).
  specialize (Hlt ltac:(lia)).
  destruct (data line) as [l0|] eqn:D0; [|lia].
  assert (Old : skipn (Z.to_nat (size line - pos line)) (history line)
                = firstn (Z.to_nat (pos line)) l0).
  { unfold history. rewrite D0.
    rewrite skipn_app, length_firstn, length_skipn.
    rewrite Nat.min_l by lia. rewrite Nat.sub_diag. cbn [skipn].
    rewrite skipn_all2 by (rewrite length_firstn, length_skipn; lia).
    reflexivity. }
  rewrite Old.
  assert (R : forall ln : audio_delay_line sample,
             size ln = size line -> pos ln = pos line ->
             (exists l, data ln = Some l
                        /\ n <= Z.of_nat (length l)
                        /\ firstn (Z.to_nat (pos line)) l
                           = firstn (Z.to_nat (pos line)) l0) ->
             forall ln', resize_in_place silence ln n = Some ln' ->
             skipn (Z.to_nat (size line - pos line)) (history ln')
             = firstn (Z.to_nat (pos line)) l0
               ++ repeat silence (Z.to_nat (n - size line))).
  { intros ln Sz Pz (l & Dl & Ll & Fl) ln'. rewrite <- Fl.
    unfold resize_in_place. rewrite Sz, Pz, Dl.
    pose proof (@resize_cursor (pos line) (size line) n) as C.
    cbv zeta in C. rewrite C by (unfold INT_MAX in *; lia).
    replace (Z.max 0 (pos line + n - size line))
      with (pos line + n - size line) by lia.
    rewrite (@u32_small (pos line + n - size line))
      by (unfold INT_MAX in *; lia).
    replace (n - (pos line + n - size line)) with (size line - pos line)
      by lia.
    rewrite (@u32_small (size line - pos line))
      by (unfold INT_MAX in *; lia).
    rewrite (@u32_small (n - size line)) by (unfold INT_MAX in *; lia).
    replace (n >? size line) with true
      by (symmetry; apply Z.gtb_lt; lia).
    replace (size line =? 0) with false
      by (symmetry; apply Z.eqb_neq; lia).
    remember (Z.to_nat (pos line)) as P eqn:EP.
    remember (Z.to_nat (size line)) as S eqn:ES.
    remember (Z.to_nat n) as N eqn:EN.
    assert (HP : pos line = Z.of_nat P) by lia.
    assert (HS : size line = Z.of_nat S) by lia.
    assert (HN : n = Z.of_nat N) by lia.
    assert (Ord : (P < S /\ S < N /\ N <= length l)%nat) by lia.
    unfold memmove.
    rewrite (@peek_at _ l (pos line + n - size line) (size line - pos line)
               (P + N - S) (S - P)) by lia.
    cbn [bind].
    rewrite (@poke_at _ l (pos line) _ P)
      by (try assumption; rewrite length_firstn, length_skipn; lia).
    cbn [bind]. unfold memset.
    rewrite (@poke_at _ _ (pos line) _ P)
      by (try assumption;
          rewrite ?repeat_length, ?length_app, ?length_firstn, ?length_skipn;
          lia).
    cbn [bind]. intros [= <-]. unfold history. cbn [data size pos].
    rewrite repeat_length.
    replace (Z.to_nat (n - (pos line + n - size line))) with (S - P)%nat
      by lia.
    replace (Z.to_nat (pos line + n - size line)) with (P + N - S)%nat by lia.
    replace (Z.to_nat (n - size line)) with (N - S)%nat by lia.
    replace (Z.to_nat (size line - pos line)) with (S - P)%nat by lia.
    rewrite length_firstn, length_skipn.
    replace (Nat.min (S - P) (length l - (P + N - S))) with (S - P)%nat
      by lia.
    clear - Ord.
    apply nth_error_ext; intro i.
    rewrite nth_error_skipn.
    nth_norm. norm_min. split_ltb. all: kill_none.
    all: try reflexivity.
    all: try (rewrite !nth_error_repeat by lia; reflexivity).
    all: try (f_equal; lia). }
  unfold audio_delay_line_resize in E.
  destruct (Z.gtb_spec n (alloc_size line)) as [G|G].
  - cbn [data] in E. rewrite D0 in E. cbn [realloc] in E.
    destruct (resize_in_place _ _ _) as [ln'|] eqn:Ei; [|discriminate].
    cbn [bind] in E. injection E as <-.
    eapply R; [| | |exact Ei]; cbn [data size alloc_size pos];
      try reflexivity.
    eexists. split; [reflexivity|]. split.
    + rewrite length_app, length_firstn, length_map, length_seq. lia.
    + rewrite firstn_app, firstn_firstn, length_firstn.
      replace (Z.to_nat (pos line) - Nat.min (Z.to_nat n) (length l0))%nat
        with 0%nat by lia.
      cbn [firstn]. rewrite app_nil_r. f_equal. lia.
  - destruct (resize_in_place _ _ _) as [ln'|] eqn:Ei; [|discriminate].
    cbn [bind] in E. injection E as <-.
    eapply R; [| | |exact Ei]; try reflexivity.
    exists l0. split; [exact D0|]. split; [lia|reflexivity].
Qed.

Lemma app_same_length (A : Type) (a c b d : list A) :
  length a = length c -> a ++ b = c ++ d -> a = c /\ b = d.
Proof.
  revert c. induction a as [|x a IH]; intros [|y c] L E; try discriminate.
  - now split.
  - cbn in L, E. injection E as -> E. injection L as L.
    destruct (IH _ L E) as [-> ->]. now split.
Qed.

(** X6. The delayed stream does not depend on how the host cuts it into
    blocks: two runs of blocks that carry the same samples give the same
    output and leave the same samples in the line. *)
Theorem delay_is_independent_of_block_size
    (line : audio_delay_line sample)
    (blocks1 blocks2 : list (list sample * list sample)) :
  well_formed line -> blocks_ok blocks1 -> blocks_ok blocks2 ->
  concat (map fst blocks1) = concat (map fst blocks2) ->
  exists line1 outs1 line2 outs2,
    process_blocks line blocks1 = Some (line1, outs1)
    /\ process_blocks line blocks2 = Some (line2, outs2)
    /\ concat outs1 = concat outs2
    /\ history line1 = history line2.
Proof.
  intros W B1 B2 E.
  destruct (@process_blocks_spec _ blocks1 line W B1)
    as (l1 & o1 & E1 & _ & _ & L1 & H1).
  destruct (@process_blocks_spec _ blocks2 line W B2)
    as (l2 & o2 & E2 & _ & _ & L2 & H2).
  exists l1, o1, l2, o2. split; [exact E1|]. split; [exact E2|].
  rewrite E in H1, L1. rewrite <- H2 in H1. rewrite <- L2 in L1.
  exact (app_same_length _ _ _ _ L1 H1).
Qed.

End DelayLineMore.

Lemma resize_keeps_line_well_formed_witness :
  well_formed line_231 /\ 0 <= 5 <= INT_MAX
  /\ exists line',
      audio_delay_line_resize 0 (Grant (fun _ => 99)) line_231 5
      = Some (0, line')
      /\ well_formed line' /\ size line' = 5 /\ alloc_size line' = 5.
Proof.
  assert (W : well_formed line_231)
    by (unfold well_formed, INT_MAX; cbn; repeat split; intros; lia).
  assert (B : 0 <= 5 <= INT_MAX) by (unfold INT_MAX; lia).
  split; [exact W|]. split; [exact B|].
  destruct (@resize_keeps_line_well_formed Z 0 (Grant (fun _ => 99))
              line_231 5 W B) as (r & line' & E & _ & _ & Z0).
  assert (R : r = 0) by (vm_compute in E; now injection E as <- _).
  subst r. exists line'. split; [exact E|]. exact (Z0 eq_refl).
Defined.

Lemma resize_to_zero_empties_witness :
  well_formed line_231
  /\ audio_delay_line_resize 0 Refuse line_231 0
     = Some (0, {| data := Some [1; 2; 3]; size := 0; alloc_size := 3;
                   pos := 0 |}).
Proof.
  assert (W : well_formed line_231)
    by (unfold well_formed, INT_MAX; cbn; repeat split; intros; lia).
  split; [exact W|].
  exact (@resize_to_zero_empties Z 0 Refuse line_231 W).
Defined.

Lemma resize_from_empty_is_silent_witness :
  well_formed emptied_789 /\ size emptied_789 = 0 /\ 0 <= 2 <= INT_MAX
  /\ exists line',
      audio_delay_line_resize 0 (Grant (fun _ => 99)) emptied_789 2
      = Some (0, line')
      /\ history line' = [0; 0].
Proof.
  assert (W : well_formed emptied_789)
    by (unfold well_formed, INT_MAX; cbn; repeat split; intros; lia).
  assert (B : 0 <= 2 <= INT_MAX) by (unfold INT_MAX; lia).
  split; [exact W|]. split; [reflexivity|]. split; [exact B|].
  destruct (@resize_from_empty_is_silent Z 0 (fun _ => 99) emptied_789 2
              W eq_refl B) as (line' & E & _ & _ & H).
  exists line'. split; [exact E|exact H].
Defined.

Lemma resize_shrink_keeps_oldest_witness :
  well_formed line_123
  /\ exists line',
      audio_delay_line_resize 0 Refuse line_123 2 = Some (0, line')
      /\ history line_123 = [1; 2; 3] /\ history line' = [1; 2].
Proof.
  assert (W : well_formed line_123)
    by (unfold well_formed, INT_MAX; cbn; repeat split; intros; lia).
  split; [exact W|].
  destruct (@resize_shrink_keeps_oldest Z 0 Refuse line_123 2 W eq_refl)
    as (line' & E & _ & _ & H); [cbn; lia|].
  exists line'. split; [exact E|]. split; [reflexivity|exact H].
Defined.

Lemma resize_grow_appends_silence_witness :
  well_formed line_231
  /\ exists line',
      audio_delay_line_resize 0 (Grant (fun _ => 99)) line_231 5
      = Some (0, line')
      /\ history line_231 = [2; 3; 1]
      /\ history line' = [99; 99; 1; 0; 0]
      /\ skipn 2 (history line') = [1; 0; 0].
Proof.
  assert (W : well_formed line_231)
    by (unfold well_formed, INT_MAX; cbn; repeat split; intros; lia).
  split; [exact W|].
  destruct (@resize_grow_appends_silence Z 0 (fun _ => 99) line_231 5 W)
    as (line' & E & _ & H); [cbn; lia|unfold INT_MAX; lia|].
  exists line'. split; [exact E|]. split; [reflexivity|].
  split; [|exact H]. vm_compute in E. injection E as <-. reflexivity.
Defined.

Lemma delay_is_independent_of_block_size_witness :
  well_formed fresh_3
  /\ exists line1 outs1 line2 outs2,
      process_blocks fresh_3 [([1; 2; 3; 4], [0; 0; 0; 0])]
      = Some (line1, outs1)
      /\ process_blocks fresh_3 [([1; 2], [0; 0]); ([3; 4], [0; 0])]
         = Some (line2, outs2)
      /\ concat outs1 = concat outs2
      /\ history line1 = history line2.
Proof.
  assert (W : well_formed fresh_3)
    by (unfold well_formed, INT_MAX; cbn; repeat split; intros; lia).
  split; [exact W|].
  apply (@delay_is_independent_of_block_size Z fresh_3
           [([1; 2; 3; 4], [0; 0; 0; 0])]
           [([1; 2], [0; 0]); ([3; 4], [0; 0])] W).
  - repeat constructor; cbn; lia.
  - repeat constructor; cbn; lia.
  - reflexivity.
Defined.

(** ** Single-precision arithmetic on signed integers and halves *)

Section Signed.
Import F32.

Lemma nearest_shift n e k : 0 <= k -> nearest (n * 2 ^ k) (e - k) = nearest n e.
Proof.
  intros Hk. destruct n as [|m|m].
  - reflexivity.
  - rewrite <- shl_value by lia. unfold nearest, binary_normalize.
    now apply binary_round_shl.
  - change (Zneg m) with (- Zpos m). rewrite Z.mul_opp_l.
    rewrite <- shl_value by lia.
    change (- Zpos (shl m k)) with (Zneg (shl m k)).
    unfold nearest, binary_normalize. now apply binary_round_shl.
Qed.

(** The canonical form of a scaled integer of at most 24 bits. *)
Lemma nearest_exact s m e :
  Zpos m < 2 ^ 24 -> -100 <= e <= 0 ->
  binary_round prec emax s m e
  = S754_finite s (shl m (24 - Zpos (digits2_pos m)))
      (Zpos (digits2_pos m) + e - 24).
Proof.
  intros H He. pose proof (digits_le H ltac:(lia)).
  pose proof (Pos2Z.is_pos (digits2_pos m)).
  apply binary_round_exact; lia.
Qed.

Lemma add_finite_signed s1 m1 e1 s2 m2 e2 :
  add (S754_finite s1 m1 e1) (S754_finite s2 m2 e2)
  = nearest (cond_Zopp s1 (Zpos (shl m1 (e1 - Z.min e1 e2)))
             + cond_Zopp s2 (Zpos (shl m2 (e2 - Z.min e1 e2))))
      (Z.min e1 e2).
Proof.
  unfold add, SFadd, nearest. rewrite !shl_align_spec.
  set (ez := Z.min e1 e2).
  assert (A : fst (if ez <? e1 then (shl m1 (e1 - ez), ez) else (m1, e1))
              = shl m1 (e1 - ez)).
  { destruct (Z.ltb_spec ez e1); [reflexivity|].
    replace (e1 - ez) with 0 by lia. reflexivity. }
  assert (B : fst (if ez <? e2 then (shl m2 (e2 - ez), ez) else (m2, e2))
              = shl m2 (e2 - ez)).
  { destruct (Z.ltb_spec ez e2); [reflexivity|].
    replace (e2 - ez) with 0 by lia. reflexivity. }
  rewrite A, B. reflexivity.
Qed.

Lemma sub_finite_signed s1 m1 e1 s2 m2 e2 :
  sub (S754_finite s1 m1 e1) (S754_finite s2 m2 e2)
  = nearest (cond_Zopp s1 (Zpos (shl m1 (e1 - Z.min e1 e2)))
             - cond_Zopp s2 (Zpos (shl m2 (e2 - Z.min e1 e2))))
      (Z.min e1 e2).
Proof.
  unfold sub, SFsub, nearest. rewrite !shl_align_spec.
  set (ez := Z.min e1 e2).
  assert (A : fst (if ez <? e1 then (shl m1 (e1 - ez), ez) else (m1, e1))
              = shl m1 (e1 - ez)).
  { destruct (Z.ltb_spec ez e1); [reflexivity|].
    replace (e1 - ez) with 0 by lia. reflexivity. }
  assert (B : fst (if ez <? e2 then (shl m2 (e2 - ez), ez) else (m2, e2))
              = shl m2 (e2 - ez)).
  { destruct (Z.ltb_spec ez e2); [reflexivity|].
    replace (e2 - ez) with 0 by lia. reflexivity. }
  rewrite A, B. reflexivity.
Qed.

(** The value of a canonical mantissa, brought to a common exponent. *)
Lemma aligned_value s m e ez :
  Zpos m < 2 ^ 24 -> ez <= Zpos (digits2_pos m) + e - 24 ->
  cond_Zopp s
    (Zpos (shl (shl m (24 - Zpos (digits2_pos m)))
             (Zpos (digits2_pos m) + e - 24 - ez)))
  = cond_Zopp s (Zpos m) * 2 ^ (e - ez).
Proof.
  intros H He. pose proof (digits_le H ltac:(lia)).
  rewrite shl_shl, shl_value by lia.
  replace (24 - Zpos (digits2_pos m) + (Zpos (digits2_pos m) + e - 24 - ez))
    with (e - ez) by lia.
  destruct s; cbn [cond_Zopp]; lia.
Qed.

Lemma nearest_signed n e :
  n <> 0 ->
  nearest n e = binary_round prec emax (n <? 0) (Z.to_pos (Z.abs n)) e
  /\ n = cond_Zopp (n <? 0) (Zpos (Z.to_pos (Z.abs n))).
Proof. destruct n; intros; try lia; split; reflexivity. Qed.

(** Sums and differences of scaled integers are rounded once. *)
Lemma add_nearest a b k :
  Z.abs a < 2 ^ 24 -> Z.abs b < 2 ^ 24 -> -100 <= k <= 0 ->
  add (nearest a k) (nearest b k) = nearest (a + b) k.
Proof.
  intros Ha Hb Hk.
  destruct (Z.eq_dec a 0) as [->|Na].
  { destruct (Z.eq_dec b 0) as [->|Nb]; [reflexivity|].
    rewrite Z.add_0_l. destruct (nearest_signed k Nb) as [-> _].
    rewrite nearest_exact by lia. reflexivity. }
  destruct (Z.eq_dec b 0) as [->|Nb].
  { rewrite Z.add_0_r. destruct (nearest_signed k Na) as [-> _].
    rewrite nearest_exact by lia. reflexivity. }
  destruct (nearest_signed k Na) as [-> Va].
  destruct (nearest_signed k Nb) as [-> Vb].
  set (sa := a <? 0) in *. set (ma := Z.to_pos (Z.abs a)) in *.
  set (sb := b <? 0) in *. set (mb := Z.to_pos (Z.abs b)) in *.
  assert (Ma : Zpos ma < 2 ^ 24) by (unfold ma; lia).
  assert (Mb : Zpos mb < 2 ^ 24) by (unfold mb; lia).
  rewrite !nearest_exact by lia.
  rewrite add_finite_signed.
  set (ez := Z.min _ _).
  rewrite !aligned_value by (unfold ez; lia).
  rewrite <- Va, <- Vb, <- Z.mul_add_distr_r.
  pose proof (@nearest_shift (a + b) k (k - ez)) as NS.
  replace (k - (k - ez)) with ez in NS by lia. apply NS.
  pose proof (digits_le Ma ltac:(lia)). pose proof (digits_le Mb ltac:(lia)).
  unfold ez. lia.
Qed.

Lemma sub_nearest a b k :
  Z.abs a < 2 ^ 24 -> Z.abs b < 2 ^ 24 -> -100 <= k <= 0 ->
  sub (nearest a k) (nearest b k) = nearest (a - b) k.
Proof.
  intros Ha Hb Hk.
  destruct (Z.eq_dec a 0) as [->|Na].
  { destruct (Z.eq_dec b 0) as [->|Nb]; [reflexivity|].
    destruct (nearest_signed k Nb) as [-> _].
    rewrite nearest_exact by lia. cbn [Z.sub Z.add].
    assert (Nb' : - b <> 0) by lia.
    destruct (nearest_signed k Nb') as [-> _].
    rewrite nearest_exact by lia.
    replace (Z.abs (- b)) with (Z.abs b) by lia.
    replace (- b <? 0) with (negb (b <? 0))
      by (destruct (Z.ltb_spec b 0), (Z.ltb_spec (- b) 0);
          try reflexivity; lia).
    reflexivity. }
  destruct (Z.eq_dec b 0) as [->|Nb].
  { rewrite Z.sub_0_r. destruct (nearest_signed k Na) as [-> _].
    rewrite nearest_exact by lia. reflexivity. }
  destruct (nearest_signed k Na) as [-> Va].
  destruct (nearest_signed k Nb) as [-> Vb].
  set (sa := a <? 0) in *. set (ma := Z.to_pos (Z.abs a)) in *.
  set (sb := b <? 0) in *. set (mb := Z.to_pos (Z.abs b)) in *.
  assert (Ma : Zpos ma < 2 ^ 24) by (unfold ma; lia).
  assert (Mb : Zpos mb < 2 ^ 24) by (unfold mb; lia).
  rewrite !nearest_exact by lia.
  rewrite sub_finite_signed.
  set (ez := Z.min _ _).
  rewrite !aligned_value by (unfold ez; lia).
  rewrite <- Va, <- Vb, <- Z.mul_sub_distr_r.
  pose proof (@nearest_shift (a - b) k (k - ez)) as NS.
  replace (k - (k - ez)) with ez in NS by lia. apply NS.
  pose proof (digits_le Ma ltac:(lia)). pose proof (digits_le Mb ltac:(lia)).
  unfold ez. lia.
Qed.

Lemma add_of_int_signed a b :
  Z.abs a < 2 ^ 24 -> Z.abs b < 2 ^ 24 ->
  add (of_int a) (of_int b) = of_int (a + b).
Proof. intros. apply add_nearest; lia. Qed.

Lemma sub_of_int_signed a b :
  Z.abs a < 2 ^ 24 -> Z.abs b < 2 ^ 24 ->
  sub (of_int a) (of_int b) = of_int (a - b).
Proof. intros. apply sub_nearest; lia. Qed.

(** Scaled integers of at most 24 bits are ordered as floats as they are
    as integers. *)
Lemma ltb_nearest a b k :
  0 <= a < 2 ^ 24 -> 0 <= b < 2 ^ 24 -> -100 <= k <= 0 ->
  ltb (nearest a k) (nearest b k) = (a <? b).
Proof.
  intros Ha Hb Hk.
  destruct a as [|a|a]; try lia; destruct b as [|b|b]; try lia.
  - reflexivity.
  - unfold nearest, binary_normalize. rewrite nearest_exact by lia.
    reflexivity.
  - unfold nearest, binary_normalize. rewrite nearest_exact by lia.
    reflexivity.
  - unfold nearest, binary_normalize. rewrite !nearest_exact by lia.
    pose proof (digits_bound a) as Ba. pose proof (digits_bound b) as Bb.
    pose proof (@digits_le a 24 ltac:(lia) ltac:(lia)) as Da.
    pose proof (@digits_le b 24 ltac:(lia) ltac:(lia)) as Db.
    set (da := Zpos (digits2_pos a)) in *.
    set (db := Zpos (digits2_pos b)) in *.
    unfold ltb, SFltb, SFcompare.
    destruct (Z.compare_spec (da + k - 24) (db + k - 24)) as [E|L|G].
    + assert (E' : da = db) by lia.
      change (Pos.compare_cont Eq) with Pos.compare.
      destruct (Pos.compare_spec (shl a (24 - da)) (shl b (24 - db)))
        as [C|C|C].
      * apply (f_equal Zpos) in C. rewrite !shl_value in C by lia.
        rewrite E' in C. symmetry. apply Z.ltb_ge.
        apply Z.mul_reg_r in C; [lia|]. apply Z.pow_nonzero; lia.
      * apply Pos2Z.pos_lt_pos in C. rewrite !shl_value in C by lia.
        rewrite E' in C. symmetry. apply Z.ltb_lt.
        apply Z.mul_lt_mono_pos_r in C; [exact C|].
        apply Z.pow_pos_nonneg; lia.
      * apply Pos2Z.pos_lt_pos in C. rewrite !shl_value in C by lia.
        rewrite E' in C. symmetry. apply Z.ltb_ge.
        apply Z.mul_lt_mono_pos_r in C; [lia|].
        apply Z.pow_pos_nonneg; lia.
    + symmetry. apply Z.ltb_lt.
      assert (2 ^ da <= 2 ^ (db - 1)) by (apply Z.pow_le_mono_r; lia). lia.
    + symmetry. apply Z.ltb_ge.
      assert (2 ^ db <= 2 ^ (da - 1)) by (apply Z.pow_le_mono_r; lia). lia.
Qed.

Lemma fmax_nearest a b k :
  0 <= a < 2 ^ 24 -> 0 <= b < 2 ^ 24 -> -100 <= k <= 0 ->
  fmax (nearest a k) (nearest b k) = nearest (Z.max a b) k.
Proof.
  intros Ha Hb Hk. unfold fmax. fold ltb. rewrite ltb_nearest by assumption.
  destruct (Z.ltb_spec a b); f_equal; lia.
Qed.

Lemma fold_fmax_nearest k ls : forall m,
  -100 <= k <= 0 ->
  0 <= m < 2 ^ 24 -> Forall (fun l => 0 <= l < 2 ^ 24) ls ->
  fold_left fmax (map (fun l => nearest l k) ls) (nearest m k)
  = nearest (fold_left Z.max ls m) k.
Proof.
  induction ls as [|l ls IH]; intros m Hk Hm H; [reflexivity|].
  inversion H as [|? ? Hl Hls]; subst. cbn [map fold_left].
  rewrite fmax_nearest by assumption. apply IH; [assumption|lia|assumption].
Qed.

Lemma of_int_neg m :
  Zpos m < 2 ^ 24 ->
  of_int (Zneg m)
  = S754_finite true (shl m (24 - Zpos (digits2_pos m)))
      (Zpos (digits2_pos m) - 24).
Proof.
  intros H. pose proof (digits_le H ltac:(lia)).
  unfold of_int, nearest, binary_normalize.
  rewrite binary_round_exact by lia. f_equal; lia.
Qed.

(** The integral part of a canonical integer. *)
Lemma canonical_integer m :
  Zpos m < 2 ^ 24 ->
  let d := Zpos (digits2_pos m) in
  (if 0 <=? d - 24 then Zpos (shl m (24 - d)) * 2 ^ (d - 24)
   else Zpos (shl m (24 - d)) / 2 ^ (- (d - 24))) = Zpos m.
Proof.
  intros H d. pose proof (digits_le H ltac:(lia)) as Hd. fold d in Hd.
  rewrite shl_value by lia.
  destruct (Z.leb_spec 0 (d - 24)).
  - replace (24 - d) with 0 by lia. replace (d - 24) with 0 by lia. lia.
  - replace (- (d - 24)) with (24 - d) by lia.
    apply Z.div_mul. apply Z.pow_nonzero; lia.
Qed.

Lemma trunc_of_int n : Z.abs n < 2 ^ 24 -> trunc (of_int n) = Some n.
Proof.
  intros H. destruct n as [|m|m]; [reflexivity| |].
  - rewrite of_int_pos by lia. unfold trunc.
    rewrite canonical_integer by lia. reflexivity.
  - rewrite of_int_neg by lia. unfold trunc.
    rewrite canonical_integer by lia. reflexivity.
Qed.

(** A negative integer has no [jack_nframes_t] value. *)
Lemma to_uint32_negative n :
  - 2 ^ 24 < n < 0 -> to_uint32 (of_int n) = None.
Proof.
  intros H. unfold to_uint32. rewrite trunc_of_int by lia. cbn [bind].
  replace (0 <=? n) with false by (symmetry; apply Z.leb_gt; lia).
  reflexivity.
Qed.

Lemma roundf_of_int n : Z.abs n < 2 ^ 24 -> roundf (of_int n) = of_int n.
Proof.
  intros H.
  assert (G : forall s m,
             Zpos m < 2 ^ 24 ->
             let d := Zpos (digits2_pos m) in
             roundf (S754_finite s (shl m (24 - d)) (d - 24))
             = binary_normalize prec emax (if s then Zneg m else Zpos m) 0 s
               \/ roundf (S754_finite s (shl m (24 - d)) (d - 24))
                  = S754_finite s (shl m (24 - d)) (d - 24)).
  { intros s m Hm d. pose proof (digits_le Hm ltac:(lia)) as Hd. fold d in Hd.
    unfold roundf. destruct (Z.leb_spec 0 (d - 24)) as [L|L]; [now right|].
    left. rewrite shl_value by lia.
    replace (- (d - 24)) with (24 - d) by lia.
    assert (P : 0 < 2 ^ (24 - d)) by (apply Z.pow_pos_nonneg; lia).
    rewrite Z.div_mul, Z.mod_mul by lia.
    replace (2 ^ (24 - d) <=? 2 * 0) with false
      by (symmetry; apply Z.leb_gt; lia).
    change (Zpos m =? 0) with false. cbv iota. destruct s; reflexivity. }
  destruct n as [|m|m]; [reflexivity| |].
  - rewrite of_int_pos by lia.
    destruct (G false m ltac:(lia)) as [-> | ->]; [|reflexivity].
    cbv iota. fold (nearest (Zpos m) 0). fold (of_int (Zpos m)).
    now rewrite of_int_pos by lia.
  - rewrite of_int_neg by lia.
    destruct (G true m ltac:(lia)) as [-> | ->]; [|reflexivity].
    cbv iota. change (binary_normalize prec emax (Zneg m) 0 true)
      with (of_int (Zneg m)).
    now rewrite of_int_neg by lia.
Qed.

(** [roundf] on a number of halves: to the nearest integer, the odd
    numbers of halves away from zero. *)
Lemma roundf_halves n :
  Z.abs n < 2 ^ 24 ->
  roundf (nearest n (-1)) = of_int (Z.sgn n * ((Z.abs n + 1) / 2)).
Proof.
  intros H. destruct (Z.eq_dec n 0) as [->|N]; [reflexivity|].
  destruct (nearest_signed (-1) N) as [-> V].
  set (s := n <? 0) in *. set (m := Z.to_pos (Z.abs n)) in *.
  assert (M : Zpos m < 2 ^ 24) by (unfold m; lia).
  assert (A : Z.abs n = Zpos m) by (unfold m; lia).
  rewrite nearest_exact by lia.
  pose proof (digits_le M ltac:(lia)) as Hd.
  pose proof (Pos2Z.is_pos (digits2_pos m)) as Hd0.
  set (d := Zpos (digits2_pos m)) in *.
  unfold roundf.
  replace (0 <=? d + -1 - 24) with false by (symmetry; apply Z.leb_gt; lia).
  rewrite shl_value by lia.
  replace (- (d + -1 - 24)) with (1 + (24 - d)) by lia.
  rewrite Z.pow_add_r by lia. change (2 ^ 1) with 2.
  assert (P : 0 < 2 ^ (24 - d)) by (apply Z.pow_pos_nonneg; lia).
  set (c := 2 ^ (24 - d)) in *.
  rewrite Z.div_mul_cancel_r by lia.
  rewrite Z.mul_mod_distr_r by lia.
  assert (Q : (if 2 * c <=? 2 * (Zpos m mod 2 * c)
               then Zpos m / 2 + 1 else Zpos m / 2) = (Zpos m + 1) / 2).
  { pose proof (Z.mod_pos_bound (Zpos m) 2 ltac:(lia)) as B.
    pose proof (Z.div_mod (Zpos m) 2 ltac:(lia)) as DM.
    destruct (Z.eq_dec (Zpos m mod 2) 0) as [E|E].
    - rewrite E. replace (2 * c <=? 2 * (0 * c)) with false
        by (symmetry; apply Z.leb_gt; lia).
      replace (Zpos m + 1) with (1 + Zpos m / 2 * 2) by lia.
      rewrite Z.div_add by lia. reflexivity.
    - assert (E1 : Zpos m mod 2 = 1) by lia. rewrite E1.
      replace (2 * c <=? 2 * (1 * c)) with true
        by (symmetry; apply Z.leb_le; lia).
      replace (Zpos m + 1) with (0 + (Zpos m / 2 + 1) * 2) by lia.
      rewrite Z.div_add by lia. reflexivity. }
  rewrite Q, A.
  assert (R : 1 <= (Zpos m + 1) / 2 < 2 ^ 24).
  { split.
    - apply Z.div_le_lower_bound; lia.
    - apply Z.div_lt_upper_bound; lia. }
  destruct ((Zpos m + 1) / 2) as [|q|q] eqn:Eq; try lia.
  change (Zpos q =? 0) with false. cbv iota.
  unfold of_int, nearest.
  destruct s eqn:Es; unfold s in Es.
  - apply Z.ltb_lt in Es. replace (Z.sgn n) with (-1) by lia. reflexivity.
  - apply Z.ltb_ge in Es. replace (Z.sgn n) with 1 by lia. reflexivity.
Qed.

(** The same converted to [jack_nframes_t]. *)
Lemma round_halves_to_uint32 n :
  Z.abs n < 2 ^ 24 ->
  F32.to_uint32 (F32.roundf (F32.nearest n (-1)))
  = if n <? 0 then None else Some ((n + 1) / 2).
Proof.
  intros H. rewrite roundf_halves by assumption.
  destruct (Z.ltb_spec n 0) as [L|L].
  - apply to_uint32_negative.
    replace (Z.sgn n) with (-1) by lia. replace (Z.abs n) with (- n) by lia.
    assert (1 <= (- n + 1) / 2 < 2 ^ 24).
    { split; [apply Z.div_le_lower_bound; lia
             |apply Z.div_lt_upper_bound; lia]. }
    lia.
  - replace (Z.abs n) with n by lia.
    assert (B : 0 <= (n + 1) / 2 < 2 ^ 24).
    { split; [apply Z.div_pos; lia|apply Z.div_lt_upper_bound; lia]. }
    destruct (Z.eq_dec n 0) as [->|Nz]; [reflexivity|].
    replace (Z.sgn n) with 1 by lia. rewrite Z.mul_1_l.
    now apply to_uint32_of_int.
Qed.

(** An integer is a number of halves. *)
Lemma of_int_halves n : of_int n = nearest (2 * n) (-1).
Proof.
  unfold of_int. rewrite <- (@nearest_shift n 0 1) by lia.
  f_equal. change (2 ^ 1) with 2. lia.
Qed.

(** The weighted latency at the coefficients 0, 1 and 0.5. *)
Lemma weighted_exact (r : jack_latency_range_t) :
  0 <= min r < 2 ^ 24 -> 0 <= max r < 2 ^ 24 ->
  weighted_latency zero r = of_int (min r)
  /\ weighted_latency one r = of_int (max r)
  /\ weighted_latency half r = nearest (min r + max r) (-1).
Proof.
  destruct r as [mn mx]. cbn [min max]. intros H1 H2.
  unfold weighted_latency, of_uint32. cbn [min max].
  change (sub (of_int 1) zero) with one.
  change (sub (of_int 1) one) with zero.
  change (sub (of_int 1) half) with half.
  rewrite !mul_one_of_int, !mul_zero_of_int by lia.
  split; [|split].
  - change zero with (of_int 0). rewrite add_of_int by lia. reflexivity.
  - change zero with (of_int 0). rewrite add_of_int by lia.
    f_equal. lia.
  - assert (Hh : forall n, 0 <= n < 2 ^ 24 ->
                           mul half (of_int n) = nearest n (-1)).
    { intros [|m|m] Hn; try lia; [reflexivity|].
      apply mul_half_of_int; lia. }
    rewrite !Hh by lia. rewrite add_nearest by lia. f_equal. lia.
Qed.

End Signed.

(** ** The locks of a pass *)

Section Trace.
Variable heap : nat -> heap_reply float.
Variable mx : float.

(** The events of the second loop: resizes only, after one [Lock_pairs]
    if the lock was not held. *)
Lemma adjust_pairs_trace ps : forall i la ps' la' evs,
  adjust_pairs heap mx i ps la = Some (ps', la', evs) ->
  (evs = [] /\ la' = la)
  \/ (exists rs, rs <> [] /\ forallb is_resize rs = true /\ la' = true
                 /\ evs = (if la then [] else [Lock_pairs]) ++ rs).
Proof.
  induction ps as [|p ps IH]; intros i la ps' la' evs E.
  - injection E as <- <- <-. now left.
  - cbn [adjust_pairs] in E.
    destruct (F32.to_uint32 _) as [nd|]; [|discriminate].
    cbn [bind] in E. destruct (delay p =? nd).
    + destruct (adjust_pairs heap mx (S i) ps la)
        as [[[rest la1] evs1]|] eqn:R; [|discriminate].
      cbn [bind] in E. injection E as <- <- <-.
      exact (IH _ _ _ _ _ R).
    + destruct (audio_delay_line_resize F32.zero (heap i) (line p) nd)
        as [[r ln]|]; [|discriminate].
      cbn [bind] in E.
      destruct (adjust_pairs heap mx (S i) ps true)
        as [[[rest la1] evs1]|] eqn:R; [|discriminate].
      cbn [bind] in E. injection E as <- <- <-.
      right. destruct (IH _ _ _ _ _ R) as [[-> ->]|(rs & N & F & -> & ->)].
      * exists [Resize i nd r].
        split; [discriminate|]. split; [reflexivity|].
        split; [reflexivity|]. destruct la; reflexivity.
      * exists (Resize i nd r :: rs).
        split; [discriminate|]. split; [exact F|].
        split; [reflexivity|]. destruct la; reflexivity.
Qed.

(** No event, no change; an event, and some delay has changed. *)
Lemma adjust_pairs_changes ps : forall i la ps' la' evs,
  adjust_pairs heap mx i ps la = Some (ps', la', evs) ->
  (evs = [] -> ps' = ps)
  /\ (evs <> [] -> map delay ps' <> map delay ps).
Proof.
  induction ps as [|p ps IH]; intros i la ps' la' evs E.
  - injection E as <- <- <-. split; [reflexivity|congruence].
  - cbn [adjust_pairs] in E.
    destruct (F32.to_uint32 _) as [nd|]; [|discriminate].
    cbn [bind] in E. destruct (Z.eqb_spec (delay p) nd) as [D|D].
    + destruct (adjust_pairs heap mx (S i) ps la)
        as [[[rest la1] evs1]|] eqn:R; [|discriminate].
      cbn [bind] in E. injection E as <- <- <-.
      destruct (IH _ _ _ _ _ R) as [A B]. split.
      * intros Z. now rewrite (A Z).
      * intros Z. cbn [map]. intros [= H]. now apply (B Z).
    + destruct (audio_delay_line_resize F32.zero (heap i) (line p) nd)
        as [[r ln]|]; [|discriminate].
      cbn [bind] in E.
      destruct (adjust_pairs heap mx (S i) ps true)
        as [[[rest la1] evs1]|] eqn:R; [|discriminate].
      cbn [bind] in E. injection E as <- <- <-. split.
      * destruct la; discriminate.
      * intros _. cbn [map delay]. intros [= H _]. congruence.
Qed.

End Trace.

(** X7. The locks of [recalculate_pair_delays]. A pass either takes no lock
    at all, or takes [pairs_lock] once, resizes at least one line while it
    holds it, releases it, and only then takes [main_lock] to signal
    [main]; no lock is left held and the two are never held together. *)
Theorem recalculate_lock_discipline cfg jack heap st st' evs :
  recalculate_pair_delays cfg jack heap st = Some (st', evs) ->
  evs = []
  \/ exists rs,
      rs <> [] /\ forallb is_resize rs = true
      /\ evs = Lock_pairs :: rs
               ++ [Unlock_pairs; Lock_main; Signal_main; Unlock_main].
Proof.
  unfold recalculate_pair_delays. cbv zeta. rewrite measure_pairs_spec.
  destruct (adjust_pairs _ _ _ _ _) as [[[ps la] ev]|] eqn:A; [|discriminate].
  cbn [bind]. intros E.
  destruct (adjust_pairs_trace _ _ _ _ _ A) as [[-> ->]|(rs & N & F & -> & ->)].
  - injection E as <- <-. now left.
  - injection E as <- <-. right. exists rs. cbn [app]. auto.
Qed.

Lemma recalculate_lock_discipline_witness :
  exists st' rs,
    recalculate_pair_delays default_settings (sample_ranges 4 6 0) granting
      (initial_state 2)
    = Some (st', Lock_pairs :: rs
                 ++ [Unlock_pairs; Lock_main; Signal_main; Unlock_main])
    /\ rs <> [] /\ forallb is_resize rs = true.
Proof.
  destruct (recalculate_pair_delays default_settings (sample_ranges 4 6 0)
              granting (initial_state 2)) as [[st' evs]|] eqn:E;
    [|vm_compute in E; discriminate].
  destruct (recalculate_lock_discipline _ _ _ _ E)
    as [Z|(rs & N & F & ->)].
  - vm_compute in E. rewrite Z in E. discriminate.
  - exists st', rs. auto.
Defined.

(** X8. [main] is signalled exactly when a delay has changed. If the pass
    leaves every delay as it was, it logs nothing, leaves every line and
    [recalc_required] alone; if it changes a delay, it signals [main] and
    raises [recalc_required], so that the next turn of the loop of [main]
    asks the server to recompute the latencies. *)
Theorem recalculate_signals_changes cfg jack heap st st' evs :
  recalculate_pair_delays cfg jack heap st = Some (st', evs) ->
  (map delay (pairs st') = map delay (pairs st) ->
   evs = [] /\ map line (pairs st') = map line (pairs st)
   /\ recalc_required st' = recalc_required st)
  /\ (map delay (pairs st') <> map delay (pairs st) ->
      In Signal_main evs /\ recalc_required st' = true
      /\ fst (main_turn st') = true).
Proof.
  unfold recalculate_pair_delays. cbv zeta. rewrite measure_pairs_spec.
  destruct (adjust_pairs _ _ _ _ _) as [[[ps la] ev]|] eqn:A; [|discriminate].
  cbn [bind]. intros E.
  assert (Dm : map delay (map (measured cfg jack) (pairs st))
               = map delay (pairs st))
    by (rewrite map_map; reflexivity).
  assert (Lm : map line (map (measured cfg jack) (pairs st))
               = map line (pairs st))
    by (rewrite map_map; reflexivity).
  destruct (adjust_pairs_changes _ _ _ _ _ A) as [C0 C1].
  destruct (adjust_pairs_trace _ _ _ _ _ A) as [[-> ->]|(rs & N & F & -> & ->)].
  - injection E as <- <-. cbn [pairs recalc_required].
    rewrite (C0 eq_refl), Dm, Lm. split; [auto|]. intros H. now elim H.
  - injection E as <- <-. cbn [pairs recalc_required main_turn fst].
    assert (Ne : [Lock_pairs] ++ rs <> []) by discriminate.
    specialize (C1 Ne). rewrite Dm in C1. split; [intros H; now elim C1|].
    intros _. split; [|auto].
    right. apply in_or_app. right. cbn. auto.
Qed.

Lemma recalculate_signals_changes_witness :
  exists st' evs,
    recalculate_pair_delays default_settings (sample_ranges 4 6 0) granting
      (initial_state 2) = Some (st', evs)
    /\ map delay (pairs st') = [5; 0]
    /\ In Signal_main evs /\ recalc_required st' = true
    /\ fst (main_turn st') = true.
Proof.
  destruct (recalculate_pair_delays default_settings (sample_ranges 4 6 0)
              granting (initial_state 2)) as [[st' evs]|] eqn:E;
    [|vm_compute in E; discriminate].
  exists st', evs. split; [reflexivity|].
  assert (D : map delay (pairs st') = [5; 0])
    by (vm_compute in E; injection E as <- _; reflexivity).
  split; [exact D|].
  destruct (recalculate_signals_changes _ _ _ _ E) as [_ C].
  apply C. rewrite D. cbn. discriminate.
Defined.

(** ** The process callback *)

Lemma nodup_ports_tail p ps : NoDup (ports (p :: ps)) -> NoDup (ports ps).
Proof.
  cbn [ports flat_map app]. intros N.
  now inversion N as [|? ? _ [|? ? _ ?]].
Qed.

Lemma nodup_ports_head p ps q :
  NoDup (ports (p :: ps)) -> In q (ports ps) ->
  q <> input p /\ q <> output p.
Proof.
  cbn [ports flat_map app]. fold (ports ps). intros N Hq.
  inversion N as [|? ? N1 N2]; subst. inversion N2 as [|? ? N3 _]; subst.
  split; intros ->; [apply N1; now right|now apply N3].
Qed.

Lemma in_ports_input p ps : In p ps -> In (input p) (ports ps).
Proof.
  intros H. unfold ports. rewrite in_flat_map. exists p. cbn. auto.
Qed.

Lemma in_ports_output p ps : In p ps -> In (output p) (ports ps).
Proof.
  intros H. unfold ports. rewrite in_flat_map. exists p. cbn. auto.
Qed.

Lemma process_pairs_spec nframes ps : forall bufs,
  0 <= nframes < 2 ^ 32 ->
  Forall (fun p => well_formed (line p)) ps ->
  NoDup (ports ps) ->
  (forall port, In port (ports ps) ->
                Z.of_nat (length (bufs port)) = nframes) ->
  exists ps' bufs',
    process_pairs nframes bufs ps = Some (ps', bufs')
    /\ Forall2 (processed bufs bufs') ps ps'
    /\ (forall port, ~ In port (map output ps) -> bufs' port = bufs port)
    /\ (forall port, Z.of_nat (length (bufs port)) = nframes ->
                     Z.of_nat (length (bufs' port)) = nframes).
Proof.
  induction ps as [|p ps IH]; intros bufs Hn W N L.
  - exists [], bufs. repeat split; auto.
  - inversion W as [|? ? Wp Wps]; subst.
    cbn [process_pairs].
    destruct (@process_spec _ (line p) (bufs (input p)) (bufs (output p))
                nframes Wp Hn)
      as (ln & out & -> & Wl & Sl & Lo & Ho).
    { apply L. cbn. auto. }
    { apply L. cbn. auto. }
    cbn [bind output].
    set (bufs1 := set_buffer bufs (output p) out).
    assert (K : forall port, port <> output p -> bufs1 port = bufs port).
    { intros port Hne. unfold bufs1, set_buffer. now rewrite port_eqb_neq. }
    assert (K1 : bufs1 (output p) = out).
    { unfold bufs1, set_buffer.
      now rewrite (proj2 (port_eqb_eq _ _) eq_refl). }
    destruct (IH bufs1 Hn Wps (nodup_ports_tail N))
      as (ps' & bufs' & -> & F & Fr & Ln).
    { intros port Hp. destruct (nodup_ports_head _ N Hp) as [_ Ho'].
      rewrite K by assumption. apply L. cbn [ports flat_map app].
      right. right. exact Hp. }
    cbn [bind]. eexists _, _. split; [reflexivity|].
    assert (Op : ~ In (output p) (map output ps)).
    { intros Hin. apply in_map_iff in Hin. destruct Hin as (q & Eq & Hq).
      destruct (nodup_ports_head _ N (in_ports_output _ _ Hq)) as [_ X].
      congruence. }
    split; [constructor|split].
    + unfold processed. cbn [input output latency delay line].
      do 4 (split; [reflexivity|]). split; [exact Wl|]. split; [exact Sl|].
      rewrite (Fr _ Op), K1. exact Ho.
    + clear - F K N. revert F.
      assert (G : forall q, In q ps -> input q <> output p).
      { intros q Hq.
        now destruct (nodup_ports_head _ N (in_ports_input _ _ Hq)). }
      revert G. generalize ps' as l'. generalize ps as l.
      induction l as [|q l IHl]; intros l' G F;
        inversion F as [|? q' ? l'' Hq F']; subst; constructor.
      * unfold processed in *. rewrite K in Hq by (apply G; now left).
        exact Hq.
      * apply IHl; [|exact F']. intros q0 Hq0. apply G. now right.
    + intros port Hp. cbn [map] in Hp.
      rewrite Fr by (intros X; apply Hp; now right).
      apply K. intros ->. apply Hp. now left.
    + intros port Hl. apply Ln.
      destruct (port_eqb port (output p)) eqn:Ep.
      * apply port_eqb_eq in Ep. subst port. now rewrite K1.
      * rewrite K; [exact Hl|]. intros ->.
        now rewrite (proj2 (port_eqb_eq _ _) eq_refl) in Ep.
Qed.

(** X9. [jack_process], the lock being free: on well-formed lines, distinct
    ports and buffers of [nframes] samples the call returns; every output
    buffer then holds the samples its line held followed by the input of
    its pair, as far as the block goes, the rest staying in the line (the
    input delayed by the size of the line); the lines keep their sizes and
    stay well formed; latencies, delays and the other globals are left
    alone, and no buffer other than the output buffers is written. *)
Theorem jack_process_delays_every_pair nframes bufs st :
  0 <= nframes < 2 ^ 32 ->
  Forall (fun p => well_formed (line p)) (pairs st) ->
  NoDup (ports (pairs st)) ->
  (forall port, In port (ports (pairs st)) ->
                Z.of_nat (length (bufs port)) = nframes) ->
  exists st' bufs',
    jack_process true nframes bufs st = Some (st', bufs')
    /\ Forall2 (processed bufs bufs') (pairs st) (pairs st')
    /\ (forall port, ~ In port (map output (pairs st)) ->
                     bufs' port = bufs port)
    /\ max_latency st' = max_latency st
    /\ recalc_required st' = recalc_required st.
Proof.
  intros Hn W N L. unfold jack_process.
  destruct (@process_pairs_spec nframes (pairs st) bufs Hn W N L)
    as (ps' & bufs' & -> & F & Fr & _).
  cbn [bind]. eexists _, _. split; [reflexivity|].
  cbn [pairs max_latency recalc_required]. auto.
Qed.

Lemma jack_process_delays_every_pair_witness :
  exists st' bufs',
    jack_process true 2 sample_buffers settled_state = Some (st', bufs')
    /\ Forall2 (processed sample_buffers bufs') (pairs settled_state)
         (pairs st')
    /\ bufs' (input_ 1) = sample_buffers (input_ 1).
Proof.
  destruct (@jack_process_delays_every_pair 2 sample_buffers settled_state)
    as (st' & bufs' & E & F & Fr & _).
  - lia.
  - repeat constructor; unfold well_formed, INT_MAX; cbn;
      repeat split; intros; lia.
  - cbn. repeat constructor; cbn; intuition discriminate.
  - intros port [<-|[<-|[<-|[<-|[]]]]]; reflexivity.
  - exists st', bufs'. split; [exact E|]. split; [exact F|].
    apply Fr. cbn. intuition discriminate.
Defined.

(** ** Alignment *)

Lemma Forall2_map_left (A B C : Type) (R : B -> C -> Prop) (f : A -> B) l l' :
  Forall2 R (map f l) l' -> Forall2 (fun x y => R (f x) y) l l'.
Proof.
  revert l'. induction l as [|x l IH]; intros l' H;
    inversion H; subst; constructor; auto.
Qed.

Lemma Forall2_weaken (A B : Type) (R S : A -> B -> Prop) l l' :
  (forall x y, In x l -> R x y -> S x y) ->
  Forall2 R l l' -> Forall2 S l l'.
Proof.
  intros H F. induction F as [|x y l l' Rxy F IH]; constructor.
  - apply H; [now left|exact Rxy].
  - apply IH. intros ? ? ?. apply H. now right.
Qed.

Lemma Forall2_in_left (A B : Type) (R : A -> B -> Prop) l l' x :
  Forall2 R l l' -> In x l -> exists y, In y l' /\ R x y.
Proof.
  induction 1 as [|a b l l' Rab F IH]; intros Hx; [contradiction|].
  destruct Hx as [<-|Hx].
  - exists b. split; [now left|exact Rab].
  - destruct (IH Hx) as (y & Hy & Ry). exists y. split; [now right|exact Ry].
Qed.

Lemma Forall2_in_right (A B : Type) (R : A -> B -> Prop) l l' y :
  Forall2 R l l' -> In y l' -> exists x, In x l /\ R x y.
Proof.
  induction 1 as [|a b l l' Rab F IH]; intros Hy; [contradiction|].
  destruct Hy as [<-|Hy].
  - exists a. split; [now left|exact Rab].
  - destruct (IH Hy) as (x & Hx & Rx). exists x. split; [now right|exact Rx].
Qed.

Lemma fold_max_bounds ls : forall m,
  m <= fold_left Z.max ls m
  /\ (forall l, In l ls -> l <= fold_left Z.max ls m)
  /\ (forall c, m < c -> Forall (fun l => l < c) ls ->
                fold_left Z.max ls m < c).
Proof.
  induction ls as [|x ls IH]; intros m; cbn [fold_left].
  - repeat split; [lia|intros ? []|auto].
  - destruct (IH (Z.max m x)) as (A & B & C). repeat split.
    + lia.
    + intros l [<-|Hl]; [lia|now apply B].
    + intros c Hc H. inversion H; subst. apply C; [lia|assumption].
Qed.

(** The second loop runs to its end when every target is a size an [int]
    can hold. *)
Lemma adjust_pairs_runs heap mx ps : forall i la,
  Forall (fun p => well_formed (line p)
                   /\ exists n, target mx p = Some n /\ n <= INT_MAX) ps ->
  exists ps' la' evs, adjust_pairs heap mx i ps la = Some (ps', la', evs).
Proof.
  induction ps as [|p ps IH]; intros i la H.
  - eexists _, _, _. reflexivity.
  - inversion H as [|? ? (W & n & T & Hn) Hps]; subst.
    cbn [adjust_pairs]. fold (target mx p). rewrite T. cbn [bind].
    assert (N0 : 0 <= n).
    { unfold target, F32.to_uint32 in T.
      destruct (F32.trunc _) as [t|]; [|discriminate]. cbn [bind] in T.
      destruct (Z.leb_spec 0 t); [|discriminate].
      destruct (t <? 2 ^ 32); [|discriminate]. injection T as <-. lia. }
    destruct (delay p =? n).
    + destruct (IH (S i) la Hps) as (ps' & la' & evs & ->).
      cbn [bind]. eexists _, _, _. reflexivity.
    + destruct (@resize_result _ F32.zero (heap i) (line p) n W
                  ltac:(lia)) as (r & ln & -> & _).
      cbn [bind].
      destruct (IH (S i) true Hps) as (ps' & la' & evs & ->).
      cbn [bind]. eexists _, _, _. reflexivity.
Qed.

(** A pass over pairs whose latencies are whole numbers of halves of a
    frame, below 2^24 halves. *)
Lemma recalculate_halves cfg jack heap st (L : port_pair -> Z) m0 :
  (if keep_maximum cfg then max_latency st else F32.of_int 0)
  = F32.nearest m0 (-1) ->
  0 <= m0 < 2 ^ 24 ->
  Forall (fun p => well_formed (line p)) (pairs st) ->
  (forall p, In p (pairs st) ->
     measure_pair cfg jack p = F32.nearest (L p) (-1)
     /\ 0 <= L p < 2 ^ 24) ->
  let m := fold_left Z.max (map L (pairs st)) m0 in
  exists st' evs,
    recalculate_pair_delays cfg jack heap st = Some (st', evs)
    /\ max_latency st' = F32.nearest m (-1)
    /\ Forall2 (fun p p' => centred m (L p) p p') (pairs st) (pairs st').
Proof.
  intros M0 Hm0 W HL m.
  unfold recalculate_pair_delays. cbv zeta. rewrite measure_pairs_spec, M0.
  assert (E1 : map (measure_pair cfg jack) (pairs st)
               = map (fun l => F32.nearest l (-1)) (map L (pairs st))).
  { rewrite map_map. apply map_ext_in. intros p Hp. now apply HL. }
  assert (B : Forall (fun l => 0 <= l < 2 ^ 24) (map L (pairs st))).
  { apply Forall_forall. intros l Hl. apply in_map_iff in Hl.
    destruct Hl as (p & <- & Hp). now apply HL. }
  rewrite E1, fold_fmax_nearest by (assumption || lia). fold m.
  destruct (fold_max_bounds (map L (pairs st)) m0) as (Mlo & Mup & Mlt).
  fold m in Mlo, Mup, Mlt.
  assert (Mb : m < 2 ^ 24).
  { apply Mlt; [lia|]. eapply Forall_impl; [|exact B]. cbn. lia. }
  assert (T : forall p, In p (pairs st) ->
                target (F32.nearest m (-1)) (measured cfg jack p)
                = Some ((m - L p + 1) / 2)).
  { intros p Hp. destruct (HL p Hp) as [E R].
    unfold target, measured, set_latency. cbn [latency]. rewrite E.
    assert (Lm : L p <= m) by (apply Mup; now apply in_map).
    rewrite sub_nearest by lia.
    rewrite round_halves_to_uint32 by lia.
    replace (m - L p <? 0) with false by (symmetry; apply Z.ltb_ge; lia).
    reflexivity. }
  destruct (@adjust_pairs_runs heap (F32.nearest m (-1))
              (map (measured cfg jack) (pairs st)) 0%nat false)
    as (ps' & la & ev & A).
  { apply Forall_forall. intros q Hq. apply in_map_iff in Hq.
    destruct Hq as (p & <- & Hp). split.
    - unfold measured, set_latency. cbn [line].
      revert p Hp. now apply Forall_forall.
    - exists ((m - L p + 1) / 2). split; [now apply T|].
      destruct (HL p Hp) as [_ R]. unfold INT_MAX.
      assert (L p <= m) by (apply Mup; now apply in_map).
      assert ((m - L p + 1) / 2 < 2 ^ 24)
        by (apply Z.div_lt_upper_bound; lia).
      lia. }
  rewrite A. cbn [bind].
  destruct (adjust_pairs_spec _ _ _ _ _ A) as (F & _).
  assert (F' : Forall2 (fun p p' => centred m (L p) p p') (pairs st) ps').
  { apply Forall2_map_left in F.
    eapply Forall2_weaken; [|exact F]. cbv beta.
    intros p p' Hp (I & O & La & Tg & _).
    unfold centred. rewrite I, O, La. cbn [measured set_latency input output
                                            latency].
    split; [reflexivity|]. split; [reflexivity|].
    split; [now apply HL|].
    rewrite (T p Hp) in Tg. now injection Tg as <-. }
  destruct la; eexists _, _; (split; [reflexivity|]);
    cbn [pairs max_latency]; auto.
Qed.

Lemma centred_ports m (L : port_pair -> Z) ps ps' :
  Forall2 (fun p p' => centred m (L p) p p') ps ps' -> ports ps' = ports ps.
Proof.
  induction 1 as [|p p' ps ps' (I & O & _) _ IH]; [reflexivity|].
  cbn [ports flat_map]. fold (ports ps) (ports ps'). now rewrite I, O, IH.
Qed.

(** [jack_latency] on such pairs: the call returns, and every downstream
    port gets the range of its upstream port shifted by half the distance
    of the pair to the largest latency, a half rounded up. *)
Lemma jack_latency_halves cfg heap mode jack st (L : port_pair -> Z) :
  keep_maximum cfg = false ->
  Forall (fun p => well_formed (line p)) (pairs st) ->
  NoDup (ports (pairs st)) ->
  (forall p, In p (pairs st) ->
     measure_pair cfg jack p = F32.nearest (L p) (-1)
     /\ 0 <= L p < 2 ^ 24
     /\ 0 <= min (jack (upstream mode p) mode) < 2 ^ 23
     /\ 0 <= max (jack (upstream mode p) mode) < 2 ^ 23) ->
  exists st1 jack' evs,
    jack_latency cfg heap mode jack st = Some (st1, jack', evs)
    /\ forall p, In p (pairs st) ->
         let r := jack (upstream mode p) mode in
         let d := (largest L (pairs st) - L p + 1) / 2 in
         jack' (downstream mode p) mode
         = {| min := min r + d; max := max r + d |}.
Proof.
  intros K W N H.
  destruct (@recalculate_halves cfg jack heap st L 0)
    as (st1 & evs & R & _ & F).
  { now rewrite K. }
  { lia. }
  { exact W. }
  { intros p Hp. destruct (H p Hp) as (A & B & _). split; [exact A|lia]. }
  fold (largest L (pairs st)) in F.
  set (m := largest L (pairs st)) in *.
  assert (Mb : 0 <= m < 2 ^ 24).
  { destruct (fold_max_bounds (map L (pairs st)) 0) as (Mlo & _ & Mlt).
    fold (largest L (pairs st)) in Mlo, Mlt. fold m in Mlo, Mlt.
    split; [exact Mlo|]. apply Mlt; [lia|].
    apply Forall_forall. intros l Hl. apply in_map_iff in Hl.
    destruct Hl as (p & <- & Hp). destruct (H p Hp) as (_ & B & _). lia. }
  assert (Mup : forall p, In p (pairs st) ->
                  0 <= (m - L p + 1) / 2 <= 2 ^ 23).
  { intros p Hp.
    destruct (fold_max_bounds (map L (pairs st)) 0) as (_ & Mu & _).
    assert (L p <= m) by (apply Mu; now apply in_map).
    destruct (H p Hp) as (_ & B & _).
    split; [apply Z.div_pos; lia|apply Z.div_le_upper_bound; lia]. }
  assert (N1 : NoDup (ports (pairs st1)))
    by (rewrite (@centred_ports m L _ _ F); exact N).
  destruct (@publish_pairs_total mode (pairs st1) jack N1) as (jack' & P).
  { intros p' Hp'. destruct (Forall2_in_right p' F Hp') as (p & Hp & Al).
    destruct Al as (I & O & _ & D).
    assert (U : upstream mode p' = upstream mode p)
      by (destruct mode; cbn; assumption).
    unfold in_exact_range. rewrite U, D.
    destruct (H p Hp) as (_ & B & C1 & C2). specialize (Mup p Hp). lia. }
  exists st1, jack', evs. split.
  { unfold jack_latency. rewrite R. cbn [bind]. rewrite P. reflexivity. }
  destruct (@publish_pairs_spec mode (pairs st1) jack jack' N1 P) as [S _].
  intros p Hp. cbv zeta.
  destruct (Forall2_in_left p F Hp) as (p' & Hp' & I & O & _ & D).
  assert (U : upstream mode p' = upstream mode p)
    by (destruct mode; cbn; assumption).
  assert (Dn : downstream mode p' = downstream mode p)
    by (destruct mode; cbn; assumption).
  specialize (S p' Hp'). rewrite U, Dn, D in S.
  destruct (H p Hp) as (_ & B & C1 & C2). specialize (Mup p Hp).
  rewrite shifted_exact in S by lia. now injection S as <-.
Qed.

Lemma largest_doubled (f : port_pair -> Z) ps :
  largest (fun q => 2 * f q) ps = 2 * largest f ps.
Proof.
  unfold largest.
  assert (G : forall m, fold_left Z.max (map (fun q => 2 * f q) ps) (2 * m)
                        = 2 * fold_left Z.max (map f ps) m).
  { induction ps as [|p ps IH]; intros m; [reflexivity|].
    cbn [map fold_left]. rewrite <- IH. f_equal. lia. }
  exact (G 0).
Qed.

(** The latency of a pair when only the direction [mode] is equalized. *)
Lemma measure_single_direction cfg mode jack p :
  equalize_capture cfg = mode_eqb mode JackCaptureLatency ->
  equalize_playback cfg = mode_eqb mode JackPlaybackLatency ->
  measure_pair cfg jack p
  = F32.add (F32.of_int 0)
      (weighted_latency (latency_coefficient cfg)
         (jack (upstream mode p) mode)).
Proof.
  unfold measure_pair, get_port_latency, jack_port_get_latency_range.
  intros -> ->. destruct mode; reflexivity.
Qed.

(** X10. With the coefficient 0 the pairs are aligned to the minimum of their
    ranges, with the coefficient 1 to the maximum. For a client that
    equalizes one direction and does not keep the maximum, on well-formed
    lines, distinct ports and upstream ranges below 2^23: [jack_latency]
    returns for any allocator, every downstream port publishes the range
    of its upstream port shifted by the delay of the pair, and the bound
    the coefficient selects is then the same on every downstream port,
    namely the largest such bound upstream. *)
Theorem lsync_aligns_bound (b : bool) cfg heap mode jack st :
  equalize_capture cfg = mode_eqb mode JackCaptureLatency ->
  equalize_playback cfg = mode_eqb mode JackPlaybackLatency ->
  keep_maximum cfg = false ->
  latency_coefficient cfg = (if b then F32.one else F32.zero) ->
  Forall (fun p => well_formed (line p)) (pairs st) ->
  NoDup (ports (pairs st)) ->
  (forall p, In p (pairs st) ->
     let r := jack (upstream mode p) mode in
     0 <= min r <= max r /\ max r < 2 ^ 23) ->
  let top := largest (fun q => bound b (jack (upstream mode q) mode))
               (pairs st) in
  exists st1 jack' evs,
    jack_latency cfg heap mode jack st = Some (st1, jack', evs)
    /\ forall p, In p (pairs st) ->
         let r := jack (upstream mode p) mode in
         jack' (downstream mode p) mode
         = {| min := min r + (top - bound b r);
              max := max r + (top - bound b r) |}
         /\ bound b (jack' (downstream mode p) mode) = top.
Proof.
  intros EC EP K C W N H top.
  destruct (@jack_latency_halves cfg heap mode jack st
              (fun q => 2 * bound b (jack (upstream mode q) mode)) K W N)
    as (st1 & jack' & evs & E & P).
  { intros p Hp. destruct (H p Hp) as [R1 R2]. cbv zeta in R1, R2.
    rewrite (@measure_single_direction cfg mode jack p EC EP), C.
    destruct (@weighted_exact (jack (upstream mode p) mode)) as (Z0 & Z1 & _);
      try lia.
    split.
    - rewrite <- of_int_halves.
      destruct b; cbn [bound]; [rewrite Z1|rewrite Z0];
        rewrite add_of_int by lia; reflexivity.
    - destruct b; cbn [bound]; lia. }
  exists st1, jack', evs. split; [exact E|].
  intros p Hp. cbv zeta. rewrite (P p Hp). cbv zeta.
  rewrite largest_doubled. fold top.
  set (r := jack (upstream mode p) mode).
  replace ((2 * top - 2 * bound b r + 1) / 2) with (top - bound b r).
  - split; [reflexivity|]. destruct b; cbn [bound min max]; lia.
  - apply Z.div_unique with (r := 1); lia.
Qed.

Lemma lsync_aligns_bound_witness :
  exists st1 jack' evs,
    jack_latency minimum_settings refusing JackPlaybackLatency
      (sample_ranges 4 6 0) (initial_state 2) = Some (st1, jack', evs)
    /\ jack' (input_ 1) JackPlaybackLatency = {| min := 4; max := 4 |}
    /\ jack' (input_ 2) JackPlaybackLatency = {| min := 4; max := 6 |}.
Proof.
  destruct (@lsync_aligns_bound false minimum_settings refusing
              JackPlaybackLatency (sample_ranges 4 6 0) (initial_state 2))
    as (st1 & jack' & evs & E & P); try reflexivity.
  - repeat constructor; unfold well_formed, INT_MAX; cbn;
      repeat split; intros; lia.
  - cbn. repeat constructor; cbn; intuition discriminate.
  - intros p [<-|[<-|[]]]; cbn; lia.
  - exists st1, jack', evs. split; [exact E|]. split.
    + exact (proj1 (P _ (or_introl eq_refl))).
    + exact (proj1 (P _ (or_intror (or_introl eq_refl)))).
Defined.

(** X11. With the default coefficient the pairs are aligned to the middle of
    their ranges, to half a frame. Under the same conditions every
    downstream port publishes the range of its upstream port shifted by
    half the distance of [min + max] to the largest [min + max] upstream, a
    half rounded up; the published [min + max] is then that largest value,
    or one more. *)
Theorem lsync_aligns_middles cfg heap mode jack st :
  equalize_capture cfg = mode_eqb mode JackCaptureLatency ->
  equalize_playback cfg = mode_eqb mode JackPlaybackLatency ->
  keep_maximum cfg = false ->
  latency_coefficient cfg = F32.half ->
  Forall (fun p => well_formed (line p)) (pairs st) ->
  NoDup (ports (pairs st)) ->
  (forall p, In p (pairs st) ->
     let r := jack (upstream mode p) mode in
     0 <= min r <= max r /\ max r < 2 ^ 23) ->
  let top := largest (fun q => min (jack (upstream mode q) mode)
                               + max (jack (upstream mode q) mode))
               (pairs st) in
  exists st1 jack' evs,
    jack_latency cfg heap mode jack st = Some (st1, jack', evs)
    /\ forall p, In p (pairs st) ->
         let r := jack (upstream mode p) mode in
         let r' := jack' (downstream mode p) mode in
         r' = {| min := min r + (top - (min r + max r) + 1) / 2;
                 max := max r + (top - (min r + max r) + 1) / 2 |}
         /\ top <= min r' + max r' <= top + 1.
Proof.
  intros EC EP K C W N H top.
  destruct (@jack_latency_halves cfg heap mode jack st
              (fun q => min (jack (upstream mode q) mode)
                        + max (jack (upstream mode q) mode)) K W N)
    as (st1 & jack' & evs & E & P).
  { intros p Hp. destruct (H p Hp) as [R1 R2]. cbv zeta in R1, R2.
    rewrite (@measure_single_direction cfg mode jack p EC EP), C.
    destruct (@weighted_exact (jack (upstream mode p) mode)) as (_ & _ & Zh);
      try lia.
    rewrite Zh. change (F32.of_int 0) with (F32.nearest 0 (-1)).
    rewrite add_nearest by lia. repeat split; try lia. }
  exists st1, jack', evs. split; [exact E|].
  intros p Hp. cbv zeta. fold top in P. rewrite (P p Hp). cbv zeta.
  split; [reflexivity|]. cbn [min max].
  set (r := jack (upstream mode p) mode).
  assert (T : min r + max r <= top).
  { destruct (fold_max_bounds
                (map (fun q => min (jack (upstream mode q) mode)
                               + max (jack (upstream mode q) mode))
                   (pairs st)) 0) as (_ & Mu & _).
    apply Mu. apply in_map_iff. exists p. split; [reflexivity|exact Hp]. }
  pose proof (Z.div_mod (top - (min r + max r) + 1) 2 ltac:(lia)) as DM.
  pose proof (Z.mod_pos_bound (top - (min r + max r) + 1) 2 ltac:(lia)) as MB.
  lia.
Qed.

Lemma lsync_aligns_middles_witness :
  exists st1 jack' evs,
    jack_latency default_settings granting JackPlaybackLatency
      (sample_ranges 4 7 0) (initial_state 2) = Some (st1, jack', evs)
    /\ jack' (input_ 1) JackPlaybackLatency = {| min := 6; max := 6 |}
    /\ jack' (input_ 2) JackPlaybackLatency = {| min := 4; max := 7 |}.
Proof.
  destruct (@lsync_aligns_middles default_settings granting
              JackPlaybackLatency (sample_ranges 4 7 0) (initial_state 2))
    as (st1 & jack' & evs & E & P); try reflexivity.
  - repeat constructor; unfold well_formed, INT_MAX; cbn;
      repeat split; intros; lia.
  - cbn. repeat constructor; cbn; intuition discriminate.
  - intros p [<-|[<-|[]]]; cbn; lia.
  - exists st1, jack', evs. split; [exact E|]. split.
    + exact (proj1 (P _ (or_introl eq_refl))).
    + exact (proj1 (P _ (or_intror (or_introl eq_refl)))).
Defined.

(** X12. With the default coefficient and ports that report a single latency
    (a range whose bounds are equal) every downstream port ends up with
    the same latency, the largest one upstream. *)
Theorem lsync_aligns_single_latencies cfg heap mode jack st :
  equalize_capture cfg = mode_eqb mode JackCaptureLatency ->
  equalize_playback cfg = mode_eqb mode JackPlaybackLatency ->
  keep_maximum cfg = false ->
  latency_coefficient cfg = F32.half ->
  Forall (fun p => well_formed (line p)) (pairs st) ->
  NoDup (ports (pairs st)) ->
  (forall p, In p (pairs st) ->
     let r := jack (upstream mode p) mode in
     0 <= min r < 2 ^ 23 /\ max r = min r) ->
  let top := largest (fun q => min (jack (upstream mode q) mode))
               (pairs st) in
  exists st1 jack' evs,
    jack_latency cfg heap mode jack st = Some (st1, jack', evs)
    /\ forall p, In p (pairs st) ->
         jack' (downstream mode p) mode = {| min := top; max := top |}.
Proof.
  intros EC EP K C W N H top.
  destruct (@jack_latency_halves cfg heap mode jack st
              (fun q => 2 * min (jack (upstream mode q) mode)) K W N)
    as (st1 & jack' & evs & E & P).
  { intros p Hp. destruct (H p Hp) as [R1 R2]. cbv zeta in R1, R2.
    rewrite (@measure_single_direction cfg mode jack p EC EP), C.
    destruct (@weighted_exact (jack (upstream mode p) mode)) as (_ & _ & Zh);
      try lia.
    rewrite Zh, R2. change (F32.of_int 0) with (F32.nearest 0 (-1)).
    rewrite add_nearest by lia.
    split; [f_equal; lia|]. repeat split; lia. }
  exists st1, jack', evs. split; [exact E|].
  intros p Hp. rewrite (P p Hp). cbv zeta.
  rewrite largest_doubled. fold top.
  destruct (H p Hp) as [R1 R2]. cbv zeta in R1, R2. rewrite R2.
  set (l := min (jack (upstream mode p) mode)).
  replace ((2 * top - 2 * l + 1) / 2) with (top - l)
    by (apply Z.div_unique with (r := 1); lia).
  f_equal; lia.
Qed.

Lemma lsync_aligns_single_latencies_witness :
  exists st1 jack' evs,
    jack_latency default_settings granting JackPlaybackLatency
      (sample_ranges 5 5 0) (initial_state 2) = Some (st1, jack', evs)
    /\ jack' (input_ 1) JackPlaybackLatency = {| min := 5; max := 5 |}
    /\ jack' (input_ 2) JackPlaybackLatency = {| min := 5; max := 5 |}.
Proof.
  destruct (@lsync_aligns_single_latencies default_settings granting
              JackPlaybackLatency (sample_ranges 5 5 0) (initial_state 2))
    as (st1 & jack' & evs & E & P); try reflexivity.
  - repeat constructor; unfold well_formed, INT_MAX; cbn;
      repeat split; intros; lia.
  - cbn. repeat constructor; cbn; intuition discriminate.
  - intros p [<-|[<-|[]]]; cbn; lia.
  - exists st1, jack', evs. split; [exact E|]. split.
    + exact (P _ (or_introl eq_refl)).
    + exact (P _ (or_intror (or_introl eq_refl))).
Defined.

(** ** The callback does not feed back into itself *)

Lemma mode_eqb_eq a b : mode_eqb a b = true <-> a = b.
Proof. destruct a, b; cbn; split; congruence. Qed.

Lemma port_eq_dec (a b : jack_port_t) : {a = b} + {a <> b}.
Proof. decide equality; apply Nat.eq_dec. Qed.

(** The loop of [jack_latency] writes ranges of its own direction only,
    and only on downstream ports. *)
Lemma publish_pairs_frame mode ps : forall jack jack',
  publish_pairs mode jack ps = Some jack' ->
  forall port m,
    m <> mode \/ (forall p, In p ps -> port <> downstream mode p) ->
    jack' port m = jack port m.
Proof.
  induction ps as [|p ps IH]; intros jack jack' E port m H.
  - now injection E as <-.
  - cbn [publish_pairs] in E.
    destruct (publish_pair mode jack p) as [jack1|] eqn:P; [|discriminate].
    cbn [bind] in E.
    rewrite (IH _ _ E port m)
      by (destruct H as [H|H];
          [now left|right; intros q Hq; apply H; now right]).
    unfold publish_pair in P.
    assert (S : exists r, jack1 = jack_port_set_latency_range jack
                                    (downstream mode p) mode r).
    { destruct mode; cbn in P |- *;
        destruct (F32.to_uint32 _) as [lo|]; try discriminate;
        cbn [bind] in P;
        destruct (F32.to_uint32 _) as [hi|]; try discriminate;
        cbn [bind] in P; injection P as <-; eexists; reflexivity. }
    destruct S as (r & ->). unfold jack_port_set_latency_range.
    destruct (port_eqb port (downstream mode p)) eqn:Ep;
      [|reflexivity].
    destruct (mode_eqb m mode) eqn:Em; [|reflexivity].
    apply port_eqb_eq in Ep. apply mode_eqb_eq in Em.
    destruct H as [H|H]; [contradiction|].
    exfalso. apply (H p); [now left|assumption].
Qed.

(** The loop runs to its end as soon as every single shift is defined. *)
Lemma publish_pairs_runs mode ps : forall jack,
  NoDup (ports ps) ->
  (forall p, In p ps ->
     exists r, shifted (jack (upstream mode p) mode) (delay p) = Some r) ->
  exists jack', publish_pairs mode jack ps = Some jack'.
Proof.
  induction ps as [|p ps IH]; intros jack N B; [now exists jack|].
  cbn [publish_pairs].
  destruct (B p (or_introl eq_refl)) as (r & Sh).
  assert (P : publish_pair mode jack p
              = Some (jack_port_set_latency_range jack (downstream mode p)
                        mode r)).
  { unfold shifted in Sh. unfold publish_pair.
    destruct mode; cbn in Sh |- *;
      unfold jack_port_get_latency_range;
      destruct (F32.to_uint32 _) as [lo|]; try discriminate;
      cbn [bind] in Sh |- *;
      destruct (F32.to_uint32 _) as [hi|]; try discriminate;
      cbn [bind] in Sh |- *; now injection Sh as <-. }
  rewrite P. cbn [bind]. apply IH.
  - cbn [ports flat_map app] in N. now inversion N as [|? ? _ [|? ? _ ?]].
  - intros q Hq. destruct (@up_down_distinct mode p q ps N Hq) as [U _].
    unfold jack_port_set_latency_range. rewrite port_eqb_neq by assumption.
    cbn [andb]. apply B. now right.
Qed.

(** A pass on the state a pass has left, the latencies of the pairs being
    what they were, does nothing. *)
Lemma settled_pass cfg jack jack1 heap heap' st st1 evs :
  recalculate_pair_delays cfg jack heap st = Some (st1, evs) ->
  (forall p, In p (pairs st1) ->
     measure_pair cfg jack1 p = measure_pair cfg jack p) ->
  recalculate_pair_delays cfg jack1 heap' st1 = Some (st1, []).
Proof.
  intros E Same.
  destruct (recalculate_outcome _ _ _ _ E) as (M & la & ev & A & _).
  cbv zeta in *.
  set (lats := map (measure_pair cfg jack) (pairs st)) in *.
  set (m0 := if keep_maximum cfg then max_latency st else F32.of_int 0) in *.
  set (mx := fold_left fmax lats m0) in *.
  destruct (adjust_pairs_spec _ _ _ _ _ A) as (F & _).
  pose proof (adjusted_targets F) as T.
  pose proof (adjusted_latencies F) as L. rewrite map_map in L.
  unfold recalculate_pair_delays. cbv zeta. rewrite measure_pairs_spec.
  assert (Mm : map (measured cfg jack) (pairs st1) = pairs st1).
  { clear - F. revert F. generalize (pairs st1). generalize (pairs st).
    induction l as [|p0 l IH]; intros l' F; inversion F as [|? q ? ps Hq F'];
      subst; [reflexivity|].
    cbn [map]. f_equal; [|exact (IH _ F')].
    destruct Hq as (I & O & Lq & _). apply measured_fixed.
    rewrite Lq. cbn in *. apply measure_pair_ports; congruence. }
  assert (Mm1 : map (measured cfg jack1) (pairs st1) = pairs st1).
  { rewrite <- Mm at 2. apply map_ext_in. intros p Hp.
    unfold measured. now rewrite Same. }
  assert (Ls : map (measure_pair cfg jack1) (pairs st1) = lats).
  { transitivity (map latency (map (measured cfg jack1) (pairs st1)));
      [now rewrite map_map|now rewrite Mm1, L]. }
  rewrite Mm1, Ls.
  assert (Mx : fold_left fmax lats
                 (if keep_maximum cfg then max_latency st1
                  else F32.of_int 0) = mx).
  { destruct (keep_maximum cfg) eqn:K; [|reflexivity].
    rewrite M. apply fmax_stable. intros l Hl.
    now apply fmax_upper. }
  rewrite Mx, adjust_pairs_settled.
  - cbn [bind]. destruct st1. cbn in *. congruence.
  - apply Forall_forall. intros p Hp. now apply T.
Qed.

(** X13. [jack_latency] does not feed back into itself. The ranges it publishes
    are not among those the latencies of the pairs are computed from, so
    once a call has returned, a new pass finds every delay on target and
    does nothing (no lock, no resize), and a second call for the same
    direction returns, logs nothing and publishes the same ranges again. *)
Theorem jack_latency_does_not_feed_back cfg heap heap' mode jack st st1
    jack1 evs :
  NoDup (ports (pairs st)) ->
  jack_latency cfg heap mode jack st = Some (st1, jack1, evs) ->
  (forall p, In p (pairs st1) ->
     measure_pair cfg jack1 p = measure_pair cfg jack p)
  /\ recalculate_pair_delays cfg jack1 heap' st1 = Some (st1, [])
  /\ exists jack2,
      jack_latency cfg heap' mode jack1 st1 = Some (st1, jack2, [])
      /\ forall port m, jack2 port m = jack1 port m.
Proof.
  intros N E. unfold jack_latency in E.
  destruct (recalculate_pair_delays cfg jack heap st) as [[st1' evs']|] eqn:R;
    [|discriminate].
  cbn [bind] in E.
  destruct (publish_pairs mode jack (pairs st1')) as [jack1'|] eqn:P;
    [|discriminate].
  cbn [bind] in E. injection E as -> -> ->.
  destruct (recalculate_outcome _ _ _ _ R) as (_ & la & ev & A & _).
  destruct (adjust_pairs_spec _ _ _ _ _ A) as (F & _).
  assert (N1 : NoDup (ports (pairs st1)))
    by (rewrite (adjusted_ports F), measured_ports; exact N).
  pose proof (publish_pairs_frame _ _ P) as Fr.
  destruct (@publish_pairs_spec mode (pairs st1) jack jack1 N1 P) as [Sp _].
  assert (In_out : forall p q, In p (pairs st1) -> In q (pairs st1) ->
                               input p <> output q).
  { intros p q Hp Hq Eq. clear - N1 Hp Hq Eq.
    induction (pairs st1) as [|a l IH]; [contradiction|].
    pose proof (nodup_ports_tail N1) as Nt.
    destruct Hp as [->|Hp], Hq as [->|Hq].
    - cbn [ports flat_map app] in N1. inversion N1 as [|? ? X _]; subst.
      apply X. rewrite Eq. now left.
    - destruct (nodup_ports_head _ N1 (in_ports_output _ _ Hq)) as [X _].
      congruence.
    - destruct (nodup_ports_head _ N1 (in_ports_input _ _ Hp)) as [_ X].
      congruence.
    - now apply IH. }
  assert (Same : forall p, In p (pairs st1) ->
                   measure_pair cfg jack1 p = measure_pair cfg jack p).
  { intros p Hp. unfold measure_pair, get_port_latency,
      jack_port_get_latency_range.
    assert (A1 : jack1 (input p) JackCaptureLatency
                 = jack (input p) JackCaptureLatency).
    { apply Fr. destruct mode; [right|left; discriminate].
      intros q Hq. cbn. now apply In_out. }
    assert (A2 : jack1 (output p) JackPlaybackLatency
                 = jack (output p) JackPlaybackLatency).
    { apply Fr. destruct mode; [left; discriminate|right].
      intros q Hq. cbn. intros X. symmetry in X. revert X. now apply In_out. }
    now rewrite A1, A2. }
  split; [exact Same|]. split.
  { eapply settled_pass; eassumption. }
  assert (Up : forall p, In p (pairs st1) ->
                 jack1 (upstream mode p) mode = jack (upstream mode p) mode).
  { intros p Hp. apply Fr. right. intros q Hq.
    destruct mode; cbn; [now apply In_out|].
    intros X. symmetry in X. revert X. now apply In_out. }
  destruct (@publish_pairs_runs mode (pairs st1) jack1 N1) as (jack2 & P2).
  { intros p Hp. rewrite (Up p Hp), (Sp p Hp). eexists. reflexivity. }
  exists jack2. split.
  { unfold jack_latency.
    rewrite (@settled_pass cfg jack jack1 heap heap' st st1 evs R Same).
    cbn [bind]. rewrite P2. reflexivity. }
  destruct (@publish_pairs_spec mode (pairs st1) jack1 jack2 N1 P2) as [Sp2 _].
  pose proof (publish_pairs_frame _ _ P2) as Fr2.
  intros port m.
  destruct (mode_eqb m mode) eqn:Em.
  - apply mode_eqb_eq in Em. subst m.
    destruct (in_dec port_eq_dec port
                (map (downstream mode) (pairs st1))) as [I|I].
    + apply in_map_iff in I. destruct I as (p & <- & Hp).
      specialize (Sp2 p Hp). rewrite (Up p Hp), (Sp p Hp) in Sp2.
      now injection Sp2.
    + apply Fr2. right. intros p Hp ->. apply I. now apply in_map.
  - apply Fr2. left. intros ->. now rewrite mode_eqb_refl in Em.
Qed.

Lemma jack_latency_does_not_feed_back_witness :
  exists st1 jack1 evs jack2,
    jack_latency default_settings granting JackPlaybackLatency
      (sample_ranges 4 6 7) (initial_state 2) = Some (st1, jack1, evs)
    /\ evs <> []
    /\ recalculate_pair_delays default_settings jack1 refusing st1
       = Some (st1, [])
    /\ jack_latency default_settings refusing JackPlaybackLatency jack1 st1
       = Some (st1, jack2, []).
Proof.
  destruct (jack_latency default_settings granting JackPlaybackLatency
              (sample_ranges 4 6 7) (initial_state 2))
    as [[[st1 jack1] evs]|] eqn:E; [|vm_compute in E; discriminate].
  assert (N : NoDup (ports (pairs (initial_state 2))))
    by (cbn; repeat constructor; cbn; intuition discriminate).
  destruct (@jack_latency_does_not_feed_back default_settings granting
              refusing JackPlaybackLatency _ _ _ _ _ N E)
    as (_ & R & jack2 & L & _).
  exists st1, jack1, evs, jack2. split; [reflexivity|].
  split; [|split; [exact R|exact L]].
  intros Z. rewrite Z in E. vm_compute in E. discriminate.
Defined.

(** ** What the keep-maximum policy keeps *)

(** X14. Under the keep-maximum policy [max_latency] never goes down. While no
    pair is later than the peak it holds, a pass leaves it as it is, and a
    pair whose delay already is the rounded distance of its latency to
    the peak is left alone, its latency apart. *)
Theorem keep_maximum_keeps_the_peak cfg jack heap st st' evs :
  keep_maximum cfg = true ->
  recalculate_pair_delays cfg jack heap st = Some (st', evs) ->
  F32.ltb (max_latency st') (max_latency st) = false
  /\ ((forall p, In p (pairs st) ->
         F32.ltb (max_latency st) (measure_pair cfg jack p) = false) ->
      max_latency st' = max_latency st
      /\ forall p, In p (pairs st) ->
           target (max_latency st) (measured cfg jack p) = Some (delay p) ->
           In (measured cfg jack p) (pairs st')).
Proof.
  intros K E.
  destruct (recalculate_outcome _ _ _ _ E) as (M & la & ev & A & _).
  cbv zeta in *. rewrite K in *.
  set (lats := map (measure_pair cfg jack) (pairs st)) in *.
  split.
  - rewrite M.
    pose proof (@fmax_upper (max_latency st :: lats) (max_latency st)
                  (max_latency st) (or_introl eq_refl)) as U.
    cbn [fold_left] in U. unfold fmax at 2 in U.
    now rewrite ltb_irrefl in U.
  - intros H.
    assert (S : fold_left fmax lats (max_latency st) = max_latency st).
    { apply fmax_stable. intros l Hl. apply in_map_iff in Hl.
      destruct Hl as (p & <- & Hp). now apply H. }
    rewrite S in *. split; [exact M|].
    destruct (adjust_pairs_spec _ _ _ _ _ A) as (F & _).
    intros p Hp T.
    destruct (@Forall2_in_left _ _ _ _ _ (measured cfg jack p) F)
      as (p' & Hp' & _ & _ & _ & T' & Keep).
    { now apply in_map. }
    rewrite T in T'. injection T' as T'.
    assert (D : delay p' = delay (measured cfg jack p))
      by (rewrite <- T'; reflexivity).
    now rewrite <- (Keep D).
Qed.

Lemma keep_maximum_keeps_the_peak_witness :
  exists st' evs,
    recalculate_pair_delays keeping_settings (sample_ranges 2 2 0) refusing
      settled_state = Some (st', evs)
    /\ max_latency st' = F32.of_uint32 5
    /\ F32.ltb (max_latency st') (max_latency settled_state) = false.
Proof.
  destruct (recalculate_pair_delays keeping_settings (sample_ranges 2 2 0)
              refusing settled_state) as [[st' evs]|] eqn:E;
    [|vm_compute in E; discriminate].
  destruct (@keep_maximum_keeps_the_peak keeping_settings
              (sample_ranges 2 2 0) refusing settled_state st' evs
              eq_refl E) as [M K].
  exists st', evs. split; [reflexivity|]. split; [|exact M].
  apply K. intros p [<-|[<-|[]]]; reflexivity.
Defined.

(** ** A coefficient that is not a number *)

Lemma weighted_latency_nan r : weighted_latency S754_nan r = S754_nan.
Proof. reflexivity. Qed.

Lemma add_nan_r x : F32.add x S754_nan = S754_nan.
Proof. now destruct x. Qed.

(** X15. The coefficient is taken from [atof] as it comes. When it is not a
    number (NaN), the latency of every pair is NaN, and so is the distance
    to [max_latency]: the conversion of its rounding to [jack_nframes_t] is
    undefined, and with it the first pass over any pair. *)
Theorem nan_coefficient_is_undefined cfg jack heap st :
  latency_coefficient cfg = S754_nan ->
  equalize_capture cfg || equalize_playback cfg = true ->
  pairs st <> [] ->
  recalculate_pair_delays cfg jack heap st = None.
Proof.
  intros C E N.
  assert (M : forall p, measure_pair cfg jack p = S754_nan).
  { intros p. unfold measure_pair, get_port_latency. rewrite C.
    rewrite !weighted_latency_nan.
    destruct (equalize_capture cfg), (equalize_playback cfg);
      try discriminate; reflexivity. }
  unfold recalculate_pair_delays. cbv zeta. rewrite measure_pairs_spec.
  destruct (pairs st) as [|p ps]; [contradiction|].
  cbn [map adjust_pairs]. unfold measured at 1, set_latency. cbn [latency].
  rewrite M.
  assert (S : forall x, F32.sub x S754_nan = S754_nan) by (now intros []).
  rewrite S. reflexivity.
Qed.

Lemma nan_coefficient_is_undefined_witness :
  recalculate_pair_delays
    {| equalize_capture := false; equalize_playback := true;
       keep_maximum := false; latency_coefficient := S754_nan |}
    (sample_ranges 4 6 0) granting (initial_state 2) = None.
Proof.
  apply nan_coefficient_is_undefined; [reflexivity|reflexivity|discriminate].
Defined.

(** ** The states the client reaches *)

Lemma adjust_pairs_well_formed heap mx ps : forall i la ps' la' evs,
  (forall j, heap j <> Refuse) ->
  Forall (fun p => well_formed (line p)) ps ->
  adjust_pairs heap mx i ps la = Some (ps', la', evs) ->
  Forall (fun p => delay p <= INT_MAX) ps' ->
  Forall (fun p => well_formed (line p)) ps'.
Proof.
  induction ps as [|p ps IH]; intros i la ps' la' evs G W E B.
  - injection E as <- _ _. constructor.
  - inversion W as [|? ? Wp Wps]; subst.
    cbn [adjust_pairs] in E.
    destruct (F32.to_uint32 _) as [nd|] eqn:T; [|discriminate].
    cbn [bind] in E.
    assert (N0 : 0 <= nd).
    { unfold F32.to_uint32 in T.
      destruct (F32.trunc _) as [t|]; [|discriminate]. cbn [bind] in T.
      destruct (Z.leb_spec 0 t); [|discriminate].
      destruct (t <? 2 ^ 32); [|discriminate]. injection T as <-. lia. }
    destruct (delay p =? nd).
    + destruct (adjust_pairs heap mx (S i) ps la)
        as [[[rest la1] evs1]|] eqn:R; [|discriminate].
      cbn [bind] in E. injection E as <- _ _.
      inversion B as [|? ? _ Bs]; subst.
      constructor; [exact Wp|]. exact (IH _ _ _ _ _ G Wps R Bs).
    + destruct (heap i) as [|junk] eqn:Hi; [now apply G in Hi|].
      destruct (audio_delay_line_resize F32.zero (Grant junk) (line p) nd)
        as [[r ln]|] eqn:Rs; [|discriminate].
      cbn [bind] in E.
      destruct (adjust_pairs heap mx (S i) ps true)
        as [[[rest la1] evs1]|] eqn:R; [|discriminate].
      cbn [bind] in E. injection E as <- _ _.
      inversion B as [|? ? Bp Bs]; subst. cbn [delay] in Bp.
      constructor; [|exact (IH _ _ _ _ _ G Wps R Bs)].
      cbn [line].
      destruct (@resize_granted _ F32.zero junk (line p) nd Wp ltac:(lia))
        as (ln' & Rs' & W' & _).
      rewrite Rs' in Rs. injection Rs as _ <-. exact W'.
Qed.

Lemma setup_pairs_well_formed count : forall i,
  Forall (fun p => well_formed (line p)) (setup_pairs i count).
Proof.
  induction count as [|count IH]; intros i; constructor; [|apply IH].
  cbn. unfold well_formed, INT_MAX. cbn. lia.
Qed.

Lemma processed_well_formed bufs bufs' ps ps' :
  Forall2 (processed bufs bufs') ps ps' ->
  Forall (fun p => well_formed (line p)) ps' /\ ports ps' = ports ps.
Proof.
  induction 1 as [|p p' ps ps' (I & O & _ & _ & W & _) _ [IH1 IH2]].
  - split; [constructor|reflexivity].
  - split; [constructor; assumption|].
    cbn [ports flat_map]. fold (ports ps) (ports ps').
    now rewrite I, O, IH2.
Qed.

(** X16. Every state the client reaches while its allocations are granted is
    safe: every delay is the size of its line, every line is well formed,
    and the ports are distinct; so [jack_process] returns on it, whatever
    the samples in the buffers. *)
Theorem reachable_states_are_safe cfg st :
  reachable cfg st ->
  delays_match st
  /\ Forall (fun p => well_formed (line p)) (pairs st)
  /\ NoDup (ports (pairs st))
  /\ forall nframes bufs,
       0 <= nframes < 2 ^ 32 ->
       (forall port, In port (ports (pairs st)) ->
                     Z.of_nat (length (bufs port)) = nframes) ->
       exists st' bufs', jack_process true nframes bufs st = Some (st', bufs').
Proof.
  intros R.
  assert (I : delays_match st
              /\ Forall (fun p => well_formed (line p)) (pairs st)
              /\ NoDup (ports (pairs st))).
  { induction R as [n|st heap mode jack st' jack' evs R (D & W & N) G E B
                      |st trylock nframes bufs st' bufs' R (D & W & N) Hn L E
                      |st R (D & W & N)].
    - split; [apply initial_state_matches|].
      split; [apply setup_pairs_well_formed|apply setup_ports_distinct].
    - unfold jack_latency in E.
      destruct (recalculate_pair_delays cfg jack heap st) as [[st1 evs1]|]
        eqn:Rc; [|discriminate].
      cbn [bind] in E.
      destruct (publish_pairs mode jack (pairs st1)); [|discriminate].
      cbn [bind] in E. injection E as -> _ _.
      destruct (recalculate_outcome _ _ _ _ Rc) as (_ & la & ev & A & _).
      destruct (adjust_pairs_spec _ _ _ _ _ A) as (F & _).
      split; [exact (@recalculate_matches cfg jack heap st st' evs1 G Rc D)|].
      split.
      + eapply adjust_pairs_well_formed; [exact G| |exact A|exact B].
        clear - W. induction W; constructor; auto.
      + rewrite (adjusted_ports F), measured_ports. exact N.
    - unfold jack_process in E. destruct trylock.
      + destruct (@process_pairs_spec nframes (pairs st) bufs Hn W N L)
          as (ps2 & bufs2 & E2 & F & _).
        rewrite E2 in E. cbn [bind] in E. injection E as <- _.
        cbn [pairs]. destruct (processed_well_formed F) as [W2 P2].
        split; [exact (@process_pairs_match nframes (pairs st) bufs ps2
                         bufs2 E2 D)|].
        split; [exact W2|]. now rewrite P2.
      + injection E as <- _. auto.
    - cbn. auto. }
  destruct I as (D & W & N). repeat split; try assumption.
  intros nframes bufs Hn L.
  destruct (@process_pairs_spec nframes (pairs st) bufs Hn W N L)
    as (ps2 & bufs2 & E2 & _).
  unfold jack_process. rewrite E2. cbn [bind]. eauto.
Qed.

Lemma reachable_states_are_safe_witness :
  exists st' jack' evs bufs'',
    jack_latency default_settings granting JackPlaybackLatency
      (sample_ranges 4 6 0) (initial_state 2) = Some (st', jack', evs)
    /\ map delay (pairs st') = [5; 0]
    /\ delays_match st'
    /\ exists st'', jack_process true 2 sample_buffers st'
                    = Some (st'', bufs'').
Proof.
  destruct (jack_latency default_settings granting JackPlaybackLatency
              (sample_ranges 4 6 0) (initial_state 2))
    as [[[st' jack'] evs]|] eqn:E; [|vm_compute in E; discriminate].
  assert (D : map delay (pairs st') = [5; 0])
    by (vm_compute in E; injection E as <- _ _; reflexivity).
  assert (P : ports (pairs st') = [input_ 1; output_ 1; input_ 2; output_ 2])
    by (vm_compute in E; injection E as <- _ _; reflexivity).
  assert (R : reachable default_settings st').
  { apply (@reach_latency default_settings (initial_state 2) granting
             JackPlaybackLatency (sample_ranges 4 6 0) st' jack' evs).
    - apply reach_initial.
    - intros i. discriminate.
    - exact E.
    - vm_compute in E. injection E as <- _ _.
      repeat constructor; unfold INT_MAX; cbn; lia. }
  destruct (reachable_states_are_safe R) as (M & _ & _ & S).
  destruct (S 2 sample_buffers) as (st'' & bufs'' & E2).
  - lia.
  - rewrite P. intros port [<-|[<-|[<-|[<-|[]]]]]; reflexivity.
  - exists st', jack', evs, bufs''. split; [reflexivity|].
    split; [exact D|]. split; [exact M|]. exists st''. exact E2.
Defined.

(** ** The first pass *)

(** What the first pass makes of a pair. *)
Lemma adjust_pairs_from_fresh heap mx ps : forall i la ps' la' evs,
  (forall j, heap j <> Refuse) ->
  Forall (fun p => line p = audio_delay_line_new float /\ delay p = 0) ps ->
  adjust_pairs heap mx i ps la = Some (ps', la', evs) ->
  Forall (fun p => delay p <= INT_MAX) ps' ->
  Forall (fun p => well_formed (line p)
                   /\ history (line p)
                      = repeat F32.zero (Z.to_nat (delay p))) ps'.
Proof.
  induction ps as [|p ps IH]; intros i la ps' la' evs G H E B.
  - injection E as <- _ _. constructor.
  - inversion H as [|? ? [Lp Dp] Hps]; subst.
    cbn [adjust_pairs] in E.
    destruct (F32.to_uint32 _) as [nd|] eqn:T; [|discriminate].
    cbn [bind] in E.
    assert (N0 : 0 <= nd).
    { unfold F32.to_uint32 in T.
      destruct (F32.trunc _) as [t|]; [|discriminate]. cbn [bind] in T.
      destruct (Z.leb_spec 0 t); [|discriminate].
      destruct (t <? 2 ^ 32); [|discriminate]. injection T as <-. lia. }
    destruct (delay p =? nd).
    + destruct (adjust_pairs heap mx (S i) ps la)
        as [[[rest la1] evs1]|] eqn:R; [|discriminate].
      cbn [bind] in E. injection E as <- _ _.
      inversion B as [|? ? _ Bs]; subst.
      constructor; [|exact (IH _ _ _ _ _ G Hps R Bs)].
      rewrite Lp, Dp. split; [|reflexivity].
      unfold well_formed, INT_MAX. cbn. lia.
    + destruct (heap i) as [|junk] eqn:Hi; [now apply G in Hi|].
      rewrite Lp in E.
      destruct (audio_delay_line_resize F32.zero (Grant junk)
                  (audio_delay_line_new float) nd)
        as [[r ln]|] eqn:Rs; [|discriminate].
      cbn [bind] in E.
      destruct (adjust_pairs heap mx (S i) ps true)
        as [[[rest la1] evs1]|] eqn:R; [|discriminate].
      cbn [bind] in E. injection E as <- _ _.
      inversion B as [|? ? Bp Bs]; subst. cbn [delay] in Bp.
      constructor; [|exact (IH _ _ _ _ _ G Hps R Bs)].
      cbn [line delay].
      assert (Wn : well_formed (audio_delay_line_new float))
        by (unfold well_formed, INT_MAX; cbn; lia).
      destruct (@resize_granted _ F32.zero junk (audio_delay_line_new float)
                  nd Wn ltac:(lia)) as (ln1 & E1 & W1 & _).
      destruct (@resize_fresh _ F32.zero junk nd ltac:(lia))
        as (ln2 & E2 & H2).
      rewrite E1 in Rs. injection Rs as _ <-.
      rewrite E1 in E2. injection E2 as <-. auto.
Qed.

Lemma setup_pairs_fresh count : forall i,
  Forall (fun p => line p = audio_delay_line_new float /\ delay p = 0)
    (setup_pairs i count).
Proof.
  induction count as [|count IH]; intros i; constructor; [|apply IH].
  cbn. auto.
Qed.

(** X17. The first pass after start-up, its allocations granted, leaves every
    pair with a well-formed line that holds as many samples of silence as
    the delay of the pair; the blocks processed next come out as that
    silence followed by the input. *)
Theorem first_pass_delays_by_silence cfg jack heap pairs_count st' evs :
  (forall i, heap i <> Refuse) ->
  recalculate_pair_delays cfg jack heap (initial_state pairs_count)
  = Some (st', evs) ->
  Forall (fun p => delay p <= INT_MAX) (pairs st') ->
  Forall (fun p => well_formed (line p)
                   /\ history (line p)
                      = repeat F32.zero (Z.to_nat (delay p))) (pairs st')
  /\ forall nframes bufs,
       0 <= nframes < 2 ^ 32 ->
       (forall port, In port (ports (pairs st')) ->
                     Z.of_nat (length (bufs port)) = nframes) ->
       exists st'' bufs',
         jack_process true nframes bufs st' = Some (st'', bufs')
         /\ Forall2 (fun p p' =>
                       bufs' (output p) ++ history (line p')
                       = repeat F32.zero (Z.to_nat (delay p))
                         ++ bufs (input p))
              (pairs st') (pairs st'').
Proof.
  intros G E B.
  destruct (recalculate_outcome _ _ _ _ E) as (_ & la & ev & A & _).
  destruct (adjust_pairs_spec _ _ _ _ _ A) as (F & _).
  assert (S : Forall (fun p => well_formed (line p)
                               /\ history (line p)
                                  = repeat F32.zero (Z.to_nat (delay p)))
                (pairs st')).
  { eapply adjust_pairs_from_fresh; [exact G| |exact A|exact B].
    cbn [initial_state pairs].
    generalize (setup_pairs_fresh pairs_count 0).
    generalize (setup_pairs 0 pairs_count).
    induction 1 as [|p ps Hp _ IH]; constructor; [exact Hp|exact IH]. }
  split; [exact S|].
  intros nframes bufs Hn L.
  assert (N : NoDup (ports (pairs st'))).
  { rewrite (adjusted_ports F), measured_ports. cbn [initial_state pairs].
    apply setup_ports_distinct. }
  assert (W : Forall (fun p => well_formed (line p)) (pairs st')).
  { eapply Forall_impl; [|exact S]. cbn. tauto. }
  destruct (@process_pairs_spec nframes (pairs st') bufs Hn W N L)
    as (ps2 & bufs2 & E2 & F2 & _).
  unfold jack_process. rewrite E2. cbn [bind].
  eexists _, _. split; [reflexivity|]. cbn [pairs].
  clear - F2 S. induction F2 as [|p p' ps ps' Hp F2 IH]; constructor.
  - inversion S as [|? ? [_ Hh] _]; subst.
    destruct Hp as (_ & _ & _ & _ & _ & _ & Ho). now rewrite <- Hh.
  - apply IH. now inversion S.
Qed.

Lemma first_pass_delays_by_silence_witness :
  exists st' evs st'' bufs',
    recalculate_pair_delays default_settings (sample_ranges 4 6 0) granting
      (initial_state 2) = Some (st', evs)
    /\ map delay (pairs st') = [5; 0]
    /\ jack_process true 2 sample_buffers st' = Some (st'', bufs')
    /\ Forall2 (fun p p' =>
                  bufs' (output p) ++ history (line p')
                  = repeat F32.zero (Z.to_nat (delay p))
                    ++ sample_buffers (input p))
         (pairs st') (pairs st'').
Proof.
  destruct (recalculate_pair_delays default_settings (sample_ranges 4 6 0)
              granting (initial_state 2)) as [[st' evs]|] eqn:E;
    [|vm_compute in E; discriminate].
  assert (D : map delay (pairs st') = [5; 0])
    by (vm_compute in E; injection E as <- _; reflexivity).
  assert (P : ports (pairs st') = [input_ 1; output_ 1; input_ 2; output_ 2])
    by (vm_compute in E; injection E as <- _; reflexivity).
  assert (B : Forall (fun p => delay p <= INT_MAX) (pairs st')).
  { vm_compute in E. injection E as <- _.
    repeat constructor; unfold INT_MAX; cbn; lia. }
  destruct (@first_pass_delays_by_silence default_settings
              (sample_ranges 4 6 0) granting 2 st' evs) as [_ S];
    [intros i; discriminate|exact E|exact B|].
  destruct (S 2 sample_buffers) as (st'' & bufs' & E2 & F2).
  - lia.
  - rewrite P. intros port [<-|[<-|[<-|[<-|[]]]]]; reflexivity.
  - exists st', evs, st'', bufs'. auto.
Defined.

(** ** The command line of lsync *)

Lemma parse_options_spec opts : forall a0 a,
  parse_options opts a0 = Proceed a ->
  ~ In opt_help opts /\ ~ In opt_unknown opts
  /\ (forall n, In (opt_audio_ports n) opts -> 0 <= n)
  /\ (0 <= audio_ports a0 -> 0 <= audio_ports a)
  /\ ((forall n, ~ In (opt_audio_ports n) opts) ->
      audio_ports a = audio_ports a0)
  /\ (equalize_capture (chosen a) = true
      <-> equalize_capture (chosen a0) = true \/ In opt_capture opts)
  /\ (equalize_playback (chosen a) = true
      <-> equalize_playback (chosen a0) = true \/ In opt_playback opts)
  /\ (keep_maximum (chosen a) = true
      <-> keep_maximum (chosen a0) = true \/ In opt_keep opts)
  /\ ((forall k, ~ In (opt_coefficient k) opts) ->
      latency_coefficient (chosen a) = latency_coefficient (chosen a0)).
Proof.
  induction opts as [|o opts IH]; intros a0 a E.
  - injection E as <-. cbn. intuition.
  - cbn [parse_options] in E.
    destruct o as [n| | | |k|nm|sv| |];
      try discriminate;
      try (destruct (Z.ltb_spec n 0) as [Hn|Hn]; [discriminate|]);
      destruct (IH _ _ E) as (H1 & H2 & H3 & H4 & H5 & H6 & H7 & H8 & H9);
      cbn [audio_ports chosen with_settings equalize_capture
           equalize_playback keep_maximum latency_coefficient] in *;
      (split; [intros [X|X]; [discriminate|contradiction]|]);
      (split; [intros [X|X]; [discriminate|contradiction]|]);
      (split; [intros m [X|X]; [try discriminate|now apply H3]|]).
    all: try (injection X as <-).
    all: try lia.
    all: split; [try tauto; try (intros; apply H4; lia)|].
    all: split;
      [intros Hno; try (exfalso; apply (Hno n); now left);
       try (apply H5; intros m Hm; apply (Hno m); now right)|].
    all: split;
      [rewrite H6; split;
       [intros [X|X]; auto; try (right; now right); try (right; now left)
       |intros [X|[X|X]]; auto; try discriminate]|].
    all: split;
      [rewrite H7; split;
       [intros [X|X]; auto; try (right; now right); try (right; now left)
       |intros [X|[X|X]]; auto; try discriminate]|].
    all: split;
      [rewrite H8; split;
       [intros [X|X]; auto; try (right; now right); try (right; now left)
       |intros [X|[X|X]]; auto; try discriminate]|].
    all: intros Hno; try (exfalso; apply (Hno k); now left);
      apply H9; intros m Hm; apply (Hno m); now right.
Qed.

(** X18. What [main] of lsync accepts. If the option loop and the checks after
    it let [main] go on to open the client, then no operand was left over,
    there is at least one pair, neither the help option nor an unknown
    option was given, the capture direction is equalized exactly if [-C]
    was given and the playback direction exactly if [-P] was given or [-C]
    was not; the maximum is kept exactly if [-k] was given; and the
    coefficient is 0.5 and the number of pairs 2 unless set. *)
Theorem read_arguments_accepts opts operands a :
  read_arguments opts operands = Proceed a ->
  operands = 0%nat
  /\ 0 < audio_ports a
  /\ ~ In opt_help opts /\ ~ In opt_unknown opts
  /\ (equalize_capture (chosen a) = true <-> In opt_capture opts)
  /\ (equalize_playback (chosen a) = true
      <-> In opt_playback opts \/ ~ In opt_capture opts)
  /\ (keep_maximum (chosen a) = true <-> In opt_keep opts)
  /\ ((forall k, ~ In (opt_coefficient k) opts) ->
      latency_coefficient (chosen a) = F32.half)
  /\ ((forall n, ~ In (opt_audio_ports n) opts) -> audio_ports a = 2).
Proof.
  unfold read_arguments.
  destruct (parse_options opts lsync_defaults) as [s|b] eqn:P;
    [discriminate|].
  destruct (parse_options_spec _ _ P)
    as (H1 & H2 & H3 & H4 & H5 & H6 & H7 & H8 & H9).
  cbn [lsync_defaults audio_ports chosen equalize_capture equalize_playback
       keep_maximum latency_coefficient] in *.
  specialize (H4 ltac:(lia)).
  destruct operands as [|k]; [|cbn; discriminate].
  change (0 <? 0)%nat with false. cbn [orb].
  destruct (Z.eqb_spec (audio_ports b) 0) as [Z0|Z0]; [discriminate|].
  intros E. injection E as <-.
  cbn [with_settings audio_ports chosen].
  split; [reflexivity|]. split; [lia|]. split; [exact H1|].
  split; [exact H2|].
  assert (HC : equalize_capture (chosen b) = true <-> In opt_capture opts)
    by (rewrite H6; intuition discriminate).
  assert (HP : equalize_playback (chosen b) = true <-> In opt_playback opts)
    by (rewrite H7; intuition discriminate).
  assert (HK : keep_maximum (chosen b) = true <-> In opt_keep opts)
    by (rewrite H8; intuition discriminate).
  clear H6 H7 H8.
  destruct (equalize_capture (chosen b)) eqn:C,
    (equalize_playback (chosen b)) eqn:Pb;
    cbn [negb andb equalize_capture equalize_playback keep_maximum
         latency_coefficient];
    rewrite ?C, ?Pb.
  all: split; [exact HC|].
  all: split; [|split; [exact HK|split; assumption]].
  - split; [intros _; left; now apply HP|reflexivity].
  - split; [discriminate|]. intros [X|X].
    + apply HP in X. discriminate.
    + exfalso. apply X. now apply HC.
  - split; [intros _; left; now apply HP|reflexivity].
  - split; [|reflexivity]. intros _. right. intros X.
    apply HC in X. discriminate.
Qed.

Lemma read_arguments_accepts_witness :
  exists a,
    read_arguments [opt_capture; opt_audio_ports 3; opt_keep] 0 = Proceed a
    /\ 0 < audio_ports a
    /\ (equalize_playback (chosen a) = true
        <-> In opt_playback [opt_capture; opt_audio_ports 3; opt_keep]
            \/ ~ In opt_capture [opt_capture; opt_audio_ports 3; opt_keep]).
Proof.
  eexists. split; [reflexivity|].
  match goal with
  | |- 0 < audio_ports ?a /\ _ =>
      assert (E : read_arguments [opt_capture; opt_audio_ports 3; opt_keep] 0
                  = Proceed a) by reflexivity
  end.
  destruct (read_arguments_accepts _ _ E) as (_ & A & _ & _ & _ & B & _).
  split; [exact A|exact B].
Defined.

(** ** lset *)

Lemma lset_nodup_tail p ps :
  NoDup (Lset.ports (p :: ps)) -> NoDup (Lset.ports ps).
Proof.
  cbn [Lset.ports flat_map app]. intros N.
  now inversion N as [|? ? _ [|? ? _ ?]].
Qed.

Lemma lset_nodup_head p ps q :
  NoDup (Lset.ports (p :: ps)) -> In q ps ->
  Lset.input q <> Lset.input p /\ Lset.input q <> Lset.output p
  /\ Lset.output q <> Lset.input p /\ Lset.output q <> Lset.output p
  /\ Lset.input p <> Lset.output p.
Proof.
  cbn [Lset.ports flat_map app]. fold (Lset.ports ps). intros N Hq.
  inversion N as [|? ? N1 N2]; subst. inversion N2 as [|? ? N3 _]; subst.
  assert (I : In (Lset.input q) (Lset.ports ps)).
  { unfold Lset.ports. rewrite in_flat_map. exists q. cbn. auto. }
  assert (O : In (Lset.output q) (Lset.ports ps)).
  { unfold Lset.ports. rewrite in_flat_map. exists q. cbn. auto. }
  split; [intros E; apply N1; right; now rewrite <- E|].
  split; [intros E; apply N3; now rewrite <- E|].
  split; [intros E; apply N1; right; now rewrite <- E|].
  split; [intros E; apply N3; now rewrite <- E|].
  intros E. apply N1. left. now symmetry.
Qed.

Lemma lset_up_down_distinct mode p ps q :
  NoDup (Lset.ports (p :: ps)) -> In q ps ->
  Lset.upstream mode q <> Lset.downstream mode p
  /\ Lset.downstream mode q <> Lset.downstream mode p.
Proof.
  intros N Hq. destruct (lset_nodup_head _ N Hq) as (A & B & C & D & _).
  destruct mode; cbn; auto.
Qed.

Lemma correct_pair_spec cfg mode jack p :
  Lset.correct_pair cfg mode jack p
  = (range <- Lset.correct_range cfg mode (jack (Lset.upstream mode p) mode) ;;
     Some (jack_port_set_latency_range jack (Lset.downstream mode p) mode
             range)).
Proof. unfold Lset.correct_pair. destruct mode; reflexivity. Qed.

(** The loop of [jack_latency] of lset. *)
Lemma lset_latency_spec cfg mode ps : forall jack,
  NoDup (Lset.ports ps) ->
  match Lset.jack_latency cfg mode jack ps with
  | Some jack' =>
      (forall p, In p ps ->
         Lset.correct_range cfg mode (jack (Lset.upstream mode p) mode)
         = Some (jack' (Lset.downstream mode p) mode))
      /\ (forall port m,
            m <> mode
            \/ (forall p, In p ps -> port <> Lset.downstream mode p) ->
            jack' port m = jack port m)
  | None =>
      exists p, In p ps
                /\ Lset.correct_range cfg mode
                     (jack (Lset.upstream mode p) mode) = None
  end.
Proof.
  induction ps as [|p ps IH]; intros jack N.
  - cbn. split; [intros ? []|reflexivity].
  - cbn [Lset.jack_latency]. rewrite correct_pair_spec.
    destruct (Lset.correct_range cfg mode (jack (Lset.upstream mode p) mode))
      as [r|] eqn:C; cbn [bind]; [|exists p; split; [now left|exact C]].
    set (jack1 := jack_port_set_latency_range jack
                    (Lset.downstream mode p) mode r).
    assert (K : forall port m,
               m <> mode \/ port <> Lset.downstream mode p ->
               jack1 port m = jack port m).
    { intros port m H. unfold jack1, jack_port_set_latency_range.
      destruct (port_eqb port (Lset.downstream mode p)) eqn:Ep;
        [|reflexivity].
      destruct (mode_eqb m mode) eqn:Em; [|reflexivity].
      apply port_eqb_eq in Ep. apply mode_eqb_eq in Em.
      destruct H; contradiction. }
    assert (K1 : jack1 (Lset.downstream mode p) mode = r).
    { unfold jack1, jack_port_set_latency_range.
      now rewrite (proj2 (port_eqb_eq _ _) eq_refl), mode_eqb_refl. }
    specialize (IH jack1 (lset_nodup_tail N)).
    destruct (Lset.jack_latency cfg mode jack1 ps) as [jack'|].
    + destruct IH as [S F]. split.
      * intros q [<-|Hq].
        -- rewrite C, F, K1; [reflexivity|].
           right. intros q Hq.
           destruct (lset_up_down_distinct mode q N Hq) as [_ D]. congruence.
        -- destruct (lset_up_down_distinct mode q N Hq) as [U _].
           rewrite <- (S q Hq), K by (now right). reflexivity.
      * intros port m H. rewrite F, K.
        -- reflexivity.
        -- destruct H as [H|H]; [now left|right; apply H; now left].
        -- destruct H as [H|H]; [now left|].
           right. intros q Hq. apply H. now right.
    + destruct IH as (q & Hq & Cq). exists q. split; [now right|].
      destruct (lset_up_down_distinct mode q N Hq) as [U _].
      rewrite <- Cq, K by (now right). reflexivity.
Qed.

(** X19. [jack_latency] of lset, pair by pair. With distinct ports, the call
    is undefined exactly when the correction of some upstream range is;
    otherwise every downstream port gets the corrected range of its
    upstream port, and no range of another port or of the other direction
    changes. *)
Theorem lset_publishes_corrected_ranges cfg mode jack ps :
  NoDup (Lset.ports ps) ->
  (Lset.jack_latency cfg mode jack ps = None
   <-> exists p, In p ps
                 /\ Lset.correct_range cfg mode
                      (jack (Lset.upstream mode p) mode) = None)
  /\ forall jack',
       Lset.jack_latency cfg mode jack ps = Some jack' ->
       (forall p, In p ps ->
          Lset.correct_range cfg mode (jack (Lset.upstream mode p) mode)
          = Some (jack' (Lset.downstream mode p) mode))
       /\ (forall port m,
             m <> mode
             \/ (forall p, In p ps -> port <> Lset.downstream mode p) ->
             jack' port m = jack port m).
Proof.
  intros N. pose proof (@lset_latency_spec cfg mode ps jack N) as S.
  destruct (Lset.jack_latency cfg mode jack ps) as [jack'|].
  - destruct S as [S F]. split.
    + split; [discriminate|]. intros (p & Hp & C).
      rewrite (S p Hp) in C. discriminate.
    + intros ? [= <-]. auto.
  - split; [|discriminate]. split; [intros _; exact S|reflexivity].
Qed.

Lemma lset_publishes_corrected_ranges_witness :
  NoDup (Lset.ports (Lset.setup_pairs 0 2))
  /\ exists jack',
      Lset.jack_latency (lset_settings false false 3) JackPlaybackLatency
        (sample_ranges 4 6 0) (Lset.setup_pairs 0 2) = Some jack'
      /\ jack' (input_ 2) JackPlaybackLatency = {| min := 7; max := 9 |}
      /\ jack' (output_ 2) JackPlaybackLatency = {| min := 4; max := 6 |}.
Proof.
  assert (N : NoDup (Lset.ports (Lset.setup_pairs 0 2)))
    by (cbn; repeat constructor; cbn; intuition discriminate).
  split; [exact N|].
  destruct (Lset.jack_latency (lset_settings false false 3)
              JackPlaybackLatency (sample_ranges 4 6 0)
              (Lset.setup_pairs 0 2)) as [jack'|] eqn:E;
    [|vm_compute in E; discriminate].
  exists jack'. split; [reflexivity|].
  destruct (@lset_publishes_corrected_ranges (lset_settings false false 3)
              JackPlaybackLatency (sample_ranges 4 6 0)
              (Lset.setup_pairs 0 2) N) as [_ S].
  destruct (S jack' E) as [C F]. split.
  - specialize (C _ (or_intror (or_introl eq_refl))).
    vm_compute in C. injection C as <-. reflexivity.
  - apply F. right. intros p [<-|[<-|[]]]; discriminate.
Defined.

(** X20. In a direction lset does not correct, [jack_latency] always returns
    and hands every range on unchanged, from the upstream port of a pair
    to its downstream port. *)
Theorem lset_other_direction_is_transparent cfg mode jack ps :
  Lset.corrects cfg mode = false ->
  NoDup (Lset.ports ps) ->
  exists jack',
    Lset.jack_latency cfg mode jack ps = Some jack'
    /\ forall p, In p ps ->
         jack' (Lset.downstream mode p) mode
         = jack (Lset.upstream mode p) mode.
Proof.
  intros C N. pose proof (@lset_latency_spec cfg mode ps jack N) as S.
  assert (T : forall r, Lset.correct_range cfg mode r = Some r).
  { intros r. unfold Lset.correct_range. unfold Lset.corrects in C.
    now rewrite C. }
  destruct (Lset.jack_latency cfg mode jack ps) as [jack'|].
  - exists jack'. split; [reflexivity|]. destruct S as [S _].
    intros p Hp. specialize (S p Hp). rewrite T in S. now injection S.
  - destruct S as (p & _ & X). rewrite T in X. discriminate.
Qed.

Lemma lset_other_direction_is_transparent_witness :
  Lset.corrects (lset_settings true true 3) JackCaptureLatency = false
  /\ exists jack',
      Lset.jack_latency (lset_settings true true 3) JackCaptureLatency
        (sample_ranges 4 6 7) (Lset.setup_pairs 0 2) = Some jack'
      /\ jack' (output_ 1) JackCaptureLatency = {| min := 7; max := 7 |}.
Proof.
  split; [reflexivity|].
  destruct (@lset_other_direction_is_transparent (lset_settings true true 3)
              JackCaptureLatency (sample_ranges 4 6 7)
              (Lset.setup_pairs 0 2) eq_refl) as (jack' & E & T).
  - cbn. repeat constructor; cbn; intuition discriminate.
  - exists jack'. split; [exact E|].
    exact (T _ (or_introl eq_refl)).
Defined.

(** *** The correction *)

(** The correction at the default coefficient, for an amount that is a
    whole number of frames, counted in halves of a frame. *)
Lemma correct_range_halves cfg mode a lo hi :
  Lset.corrects cfg mode = true ->
  Lset.latency_coefficient cfg = F32.half ->
  Lset.amount cfg = F32.of_int a ->
  Z.abs a < 2 ^ 22 -> 0 <= lo <= hi -> hi < 2 ^ 22 ->
  let corr := 2 * a - (if Lset.absolute cfg then lo + hi else 0) in
  let nlo := (if Lset.join_range cfg then lo + hi else 2 * lo) + corr in
  let nhi := (if Lset.join_range cfg then lo + hi else 2 * hi) + corr in
  Lset.correct_range cfg mode {| min := lo; max := hi |}
  = (l <- F32.to_uint32 (F32.roundf (F32.nearest nlo (-1))) ;;
     h <- F32.to_uint32 (F32.roundf (F32.nearest nhi (-1))) ;;
     Some {| min := l; max := h |}).
Proof.
  intros C K A Ha Hlo Hhi corr nlo nhi.
  unfold Lset.correct_range. unfold Lset.corrects in C. rewrite C, K, A.
  destruct (@weighted_exact {| min := lo; max := hi |}) as (_ & _ & Wh);
    cbn [min max]; try lia.
  rewrite Wh. cbn [min max]. unfold F32.of_uint32.
  rewrite !of_int_halves.
  change (F32.nearest (2 * 0) (-1)) with (F32.nearest 0 (-1)).
  assert (Ec : F32.sub (F32.nearest (2 * a) (-1))
                 (if Lset.absolute cfg then F32.nearest (lo + hi) (-1)
                  else F32.nearest 0 (-1))
               = F32.nearest corr (-1)).
  { unfold corr. destruct (Lset.absolute cfg);
      rewrite sub_nearest by lia; reflexivity. }
  rewrite Ec.
  assert (El : F32.add (if Lset.join_range cfg
                        then F32.nearest (lo + hi) (-1)
                        else F32.nearest (2 * lo) (-1))
                 (F32.nearest corr (-1))
               = F32.nearest nlo (-1)).
  { unfold nlo. assert (Z.abs corr < 2 ^ 24)
      by (unfold corr; destruct (Lset.absolute cfg); lia).
    destruct (Lset.join_range cfg); rewrite add_nearest by lia; reflexivity. }
  assert (Eh : F32.add (if Lset.join_range cfg
                        then F32.nearest (lo + hi) (-1)
                        else F32.nearest (2 * hi) (-1))
                 (F32.nearest corr (-1))
               = F32.nearest nhi (-1)).
  { unfold nhi. assert (Z.abs corr < 2 ^ 24)
      by (unfold corr; destruct (Lset.absolute cfg); lia).
    destruct (Lset.join_range cfg); rewrite add_nearest by lia; reflexivity. }
  rewrite El, Eh. reflexivity.
Qed.

(** X21. The plain correction adds the amount. For an amount that is a whole
    number of frames, whatever the coefficient: both bounds are shifted by
    the amount, and the result is undefined when the shifted minimum is
    negative (the conversion of a negative [float] to [jack_nframes_t]). *)
Theorem lset_shifts_by_amount cfg mode a lo hi :
  Lset.corrects cfg mode = true ->
  Lset.join_range cfg = false -> Lset.absolute cfg = false ->
  Lset.amount cfg = F32.of_int a ->
  Z.abs a < 2 ^ 23 -> 0 <= lo <= hi -> hi < 2 ^ 23 ->
  Lset.correct_range cfg mode {| min := lo; max := hi |}
  = if lo + a <? 0 then None
    else Some {| min := lo + a; max := hi + a |}.
Proof.
  intros C J Ab A Ha Hlo Hhi.
  unfold Lset.correct_range. unfold Lset.corrects in C.
  rewrite C, J, Ab, A. cbn [min max]. unfold F32.of_uint32.
  rewrite sub_of_int_signed, Z.sub_0_r by lia.
  rewrite !add_of_int_signed by lia.
  rewrite !roundf_of_int by lia.
  destruct (Z.ltb_spec (lo + a) 0) as [L|L].
  - rewrite to_uint32_negative by lia. reflexivity.
  - rewrite !to_uint32_of_int by lia. reflexivity.
Qed.

Lemma lset_shifts_by_amount_witness :
  Lset.correct_range (lset_settings false false 3) JackPlaybackLatency
    {| min := 4; max := 6 |} = Some {| min := 7; max := 9 |}
  /\ Lset.correct_range (lset_settings false false (-5)) JackPlaybackLatency
       {| min := 4; max := 6 |} = None.
Proof.
  split.
  - apply (@lset_shifts_by_amount (lset_settings false false 3)
             JackPlaybackLatency 3 4 6); try reflexivity; lia.
  - apply (@lset_shifts_by_amount (lset_settings false false (-5))
             JackPlaybackLatency (-5) 4 6); try reflexivity; lia.
Defined.

(** X22. The absolute correction ([-A]) at the default coefficient moves the
    middle of the range to the amount and keeps its width: the bounds
    become the amount minus and plus half the width, halves rounded up.
    When the amount is less than half the width the new minimum is
    negative and the result is undefined. *)
Theorem lset_absolute_recentres cfg mode a lo hi :
  Lset.corrects cfg mode = true ->
  Lset.join_range cfg = false -> Lset.absolute cfg = true ->
  Lset.latency_coefficient cfg = F32.half ->
  Lset.amount cfg = F32.of_int a ->
  0 <= a < 2 ^ 22 -> 0 <= lo <= hi -> hi < 2 ^ 22 ->
  Lset.correct_range cfg mode {| min := lo; max := hi |}
  = if 2 * a <? hi - lo then None
    else Some {| min := (2 * a - (hi - lo) + 1) / 2;
                 max := (2 * a + (hi - lo) + 1) / 2 |}.
Proof.
  intros C J Ab K A Ha Hlo Hhi.
  rewrite (@correct_range_halves cfg mode a lo hi) by (assumption || lia).
  rewrite J, Ab. cbv zeta.
  rewrite !round_halves_to_uint32 by lia.
  replace (2 * lo + (2 * a - (lo + hi)) <? 0) with (2 * a <? hi - lo)
    by (destruct (Z.ltb_spec (2 * a) (hi - lo)),
          (Z.ltb_spec (2 * lo + (2 * a - (lo + hi))) 0); lia || reflexivity).
  destruct (Z.ltb_spec (2 * a) (hi - lo)) as [L|L]; [reflexivity|].
  replace (2 * hi + (2 * a - (lo + hi)) <? 0) with false
    by (symmetry; apply Z.ltb_ge; lia).
  cbn [bind]. do 2 f_equal; f_equal; lia.
Qed.

Lemma lset_absolute_recentres_witness :
  Lset.correct_range (lset_settings false true 10) JackPlaybackLatency
    {| min := 4; max := 9 |} = Some {| min := 8; max := 13 |}
  /\ Lset.correct_range (lset_settings false true 0) JackPlaybackLatency
       {| min := 0; max := 10 |} = None.
Proof.
  split.
  - apply (@lset_absolute_recentres (lset_settings false true 10)
             JackPlaybackLatency 10 4 9); try reflexivity; lia.
  - apply (@lset_absolute_recentres (lset_settings false true 0)
             JackPlaybackLatency 0 0 10); try reflexivity; lia.
Defined.

(** X23. With [-A] and [-j] at the default coefficient the published range is
    the amount itself, whatever the upstream port reports. *)
Theorem lset_absolute_join_publishes_amount cfg mode a lo hi :
  Lset.corrects cfg mode = true ->
  Lset.join_range cfg = true -> Lset.absolute cfg = true ->
  Lset.latency_coefficient cfg = F32.half ->
  Lset.amount cfg = F32.of_int a ->
  0 <= a < 2 ^ 22 -> 0 <= lo <= hi -> hi < 2 ^ 22 ->
  Lset.correct_range cfg mode {| min := lo; max := hi |}
  = Some {| min := a; max := a |}.
Proof.
  intros C J Ab K A Ha Hlo Hhi.
  rewrite (@correct_range_halves cfg mode a lo hi) by (assumption || lia).
  rewrite J, Ab. cbv zeta.
  replace (lo + hi + (2 * a - (lo + hi))) with (2 * a) by lia.
  rewrite !round_halves_to_uint32 by lia.
  replace (2 * a <? 0) with false by (symmetry; apply Z.ltb_ge; lia).
  cbn [bind].
  replace ((2 * a + 1) / 2) with a; [reflexivity|].
  apply Z.div_unique with (r := 1); lia.
Qed.

Lemma lset_absolute_join_publishes_amount_witness :
  Lset.correct_range (lset_settings true true 10) JackPlaybackLatency
    {| min := 4; max := 9 |} = Some {| min := 10; max := 10 |}.
Proof.
  apply (@lset_absolute_join_publishes_amount (lset_settings true true 10)
           JackPlaybackLatency 10 4 9); try reflexivity; lia.
Defined.

(** X24. With [-j] alone at the default coefficient both bounds become the
    middle of the range plus the amount, a half rounded up. *)
Theorem lset_join_publishes_middle cfg mode a lo hi :
  Lset.corrects cfg mode = true ->
  Lset.join_range cfg = true -> Lset.absolute cfg = false ->
  Lset.latency_coefficient cfg = F32.half ->
  Lset.amount cfg = F32.of_int a ->
  0 <= a < 2 ^ 22 -> 0 <= lo <= hi -> hi < 2 ^ 22 ->
  Lset.correct_range cfg mode {| min := lo; max := hi |}
  = Some {| min := (lo + hi + 1) / 2 + a; max := (lo + hi + 1) / 2 + a |}.
Proof.
  intros C J Ab K A Ha Hlo Hhi.
  rewrite (@correct_range_halves cfg mode a lo hi) by (assumption || lia).
  rewrite J, Ab. cbv zeta. rewrite Z.sub_0_r.
  rewrite !round_halves_to_uint32 by lia.
  replace (lo + hi + 2 * a <? 0) with false
    by (symmetry; apply Z.ltb_ge; lia).
  cbn [bind].
  replace ((lo + hi + 2 * a + 1) / 2) with ((lo + hi + 1) / 2 + a);
    [reflexivity|].
  replace (lo + hi + 2 * a + 1) with (lo + hi + 1 + a * 2) by lia.
  now rewrite Z.div_add by lia.
Qed.

Lemma lset_join_publishes_middle_witness :
  Lset.correct_range (lset_settings true false 10) JackPlaybackLatency
    {| min := 4; max := 9 |} = Some {| min := 17; max := 17 |}.
Proof.
  apply (@lset_join_publishes_middle (lset_settings true false 10)
           JackPlaybackLatency 10 4 9); try reflexivity; lia.
Defined.

(** *** The process callback of lset *)

(** X25. [jack_process] of lset copies every input block to the output of its
    pair and touches no other buffer: on distinct ports and buffers of
    [nframes] samples it returns, and every output buffer then holds what
    the input buffer of its pair holds. *)
Theorem lset_process_copies nframes bufs ps :
  0 <= nframes ->
  NoDup (Lset.ports ps) ->
  (forall port, In port (Lset.ports ps) ->
                Z.of_nat (length (bufs port)) = nframes) ->
  exists bufs',
    Lset.jack_process nframes bufs ps = Some bufs'
    /\ (forall p, In p ps -> bufs' (Lset.output p) = bufs (Lset.input p))
    /\ (forall port, ~ In port (map Lset.output ps) ->
                     bufs' port = bufs port).
Proof.
  intros Hn. revert bufs. induction ps as [|p ps IH]; intros bufs N L.
  - exists bufs. repeat split; auto. intros ? [].
  - cbn [Lset.jack_process].
    assert (Li : Z.of_nat (length (bufs (Lset.input p))) = nframes)
      by (apply L; cbn; auto).
    assert (Lo : Z.of_nat (length (bufs (Lset.output p))) = nframes)
      by (apply L; cbn; auto).
    rewrite load_some by lia. cbn [bind].
    assert (Whole : firstn (Z.to_nat nframes)
                      (skipn (Z.to_nat 0) (bufs (Lset.input p)))
                    = bufs (Lset.input p)).
    { cbn [Z.to_nat skipn]. apply firstn_all2. lia. }
    rewrite Whole. rewrite store_some by lia. cbn [bind].
    assert (Out : firstn (Z.to_nat 0) (bufs (Lset.output p))
                  ++ bufs (Lset.input p)
                  ++ skipn (Z.to_nat 0 + length (bufs (Lset.input p)))
                       (bufs (Lset.output p))
                  = bufs (Lset.input p)).
    { cbn [Z.to_nat firstn app Nat.add].
      rewrite skipn_all2 by lia. apply app_nil_r. }
    rewrite Out.
    set (bufs1 := set_buffer bufs (Lset.output p) (bufs (Lset.input p))).
    assert (K : forall port, port <> Lset.output p ->
                             bufs1 port = bufs port).
    { intros port Hne. unfold bufs1, set_buffer. now rewrite port_eqb_neq. }
    assert (K1 : bufs1 (Lset.output p) = bufs (Lset.input p)).
    { unfold bufs1, set_buffer.
      now rewrite (proj2 (port_eqb_eq _ _) eq_refl). }
    assert (In_ports : forall q, In q ps ->
              In (Lset.input q) (Lset.ports ps)
              /\ In (Lset.output q) (Lset.ports ps)).
    { intros q Hq. unfold Lset.ports. rewrite !in_flat_map.
      split; exists q; cbn; auto. }
    destruct (IH bufs1 (lset_nodup_tail N)) as (bufs' & -> & Cp & Fr).
    { intros port Hp. rewrite K.
      - apply L. cbn [Lset.ports flat_map app]. right. right. exact Hp.
      - intros ->. cbn [Lset.ports flat_map app] in N.
        inversion N as [|? ? _ N2]; subst.
        inversion N2 as [|? ? N3 _]; subst. contradiction. }
    exists bufs'. split; [reflexivity|]. split.
    + intros q [<-|Hq].
      * rewrite Fr; [exact K1|]. intros Hin. apply in_map_iff in Hin.
        destruct Hin as (q & Eq & Hq).
        destruct (lset_nodup_head q N Hq) as (_ & _ & _ & X & _).
        congruence.
      * rewrite (Cp q Hq). apply K.
        now destruct (lset_nodup_head q N Hq) as (_ & X & _).
    + intros port Hp. cbn [map] in Hp.
      rewrite Fr by (intros X; apply Hp; now right).
      apply K. intros ->. apply Hp. now left.
Qed.

Lemma lset_process_copies_witness :
  exists bufs',
    Lset.jack_process 2 sample_buffers (Lset.setup_pairs 0 2) = Some bufs'
    /\ bufs' (output_ 1) = [F32.one; F32.half]
    /\ bufs' (input_ 1) = [F32.one; F32.half].
Proof.
  destruct (@lset_process_copies 2 sample_buffers (Lset.setup_pairs 0 2))
    as (bufs' & E & C & F).
  - lia.
  - cbn. repeat constructor; cbn; intuition discriminate.
  - intros port [<-|[<-|[<-|[<-|[]]]]]; reflexivity.
  - exists bufs'. split; [exact E|]. split.
    + exact (C _ (or_introl eq_refl)).
    + apply F. cbn. intuition discriminate.
Defined.

(** *** The amount *)

Lemma ends_in_app body c x :
  Lset.ends_in (body ++ [x]) (length (body ++ [x])) c = Ascii.eqb x c.
Proof.
  unfold Lset.ends_in. rewrite length_app. cbn [length].
  replace (length body + 1 - 1)%nat with (length body) by lia.
  rewrite nth_error_app2, Nat.sub_diag by lia. cbn [nth_error].
  replace (1 <=? length body + 1)%nat with true
    by (symmetry; apply Nat.leb_le; lia).
  reflexivity.
Qed.

Lemma strip_last (body : list ascii) x :
  firstn (length (body ++ [x]) - 1) (body ++ [x]) = body
  /\ (length (body ++ [x]) - 1)%nat = length body.
Proof.
  rewrite length_app. cbn [length].
  replace (length body + 1 - 1)%nat with (length body) by lia.
  split; [|reflexivity].
  rewrite firstn_app, Nat.sub_diag, firstn_all. cbn [firstn].
  apply app_nil_r.
Qed.

(** X26. The units of the amount. The operand of lset is a number followed by
    nothing (frames), by [s] (seconds) or by [ms] (milliseconds): the
    suffix is cut off before [atof] reads the number, and the number is
    scaled by 1, by the sample rate or by the sample rate over 1000. An
    operand that is empty once the suffix is cut off is refused with the
    usage message. *)
Theorem lset_amount_units atof sample_rate body :
  body <> [] ->
  let scaled (unit : float) :=
    Proceed (F64.to_float (F64.mul (F64.of_float unit) (atof body))) in
  Lset.calculate_amount atof sample_rate (body ++ ["m"; "s"]%char)
  = scaled (F32.div (F32.mul (F32.of_int 1) (F32.of_uint32 sample_rate))
              (F32.of_int 1000))
  /\ (Lset.ends_in body (length body) "m" = false ->
      Lset.calculate_amount atof sample_rate (body ++ ["s"]%char)
      = scaled (F32.mul (F32.of_int 1) (F32.of_uint32 sample_rate)))
  /\ (Lset.ends_in body (length body) "s" = false ->
      Lset.calculate_amount atof sample_rate body = scaled (F32.of_int 1))
  /\ Lset.calculate_amount atof sample_rate [] = Usage EXIT_FAILURE
  /\ Lset.calculate_amount atof sample_rate ["s"]%char = Usage EXIT_FAILURE
  /\ Lset.calculate_amount atof sample_rate ["m"; "s"]%char
     = Usage EXIT_FAILURE.
Proof.
  intros Nb scaled.
  assert (Len : (length body =? 0)%nat = false).
  { apply Nat.eqb_neq. intros Z. apply length_zero_iff_nil in Z.
    contradiction. }
  split; [|split; [|split; [|repeat split]]].
  - unfold Lset.calculate_amount.
    change (body ++ ["m"; "s"]%char) with (body ++ ["m"]%char ++ ["s"]%char).
    rewrite app_assoc.
    rewrite ends_in_app. cbn [Ascii.eqb Bool.eqb andb].
    destruct (strip_last (body ++ ["m"]%char) "s") as [-> ->].
    rewrite ends_in_app. cbn [Ascii.eqb Bool.eqb andb].
    destruct (strip_last body "m") as [-> ->].
    rewrite Len. reflexivity.
  - intros E. unfold Lset.calculate_amount.
    rewrite ends_in_app. cbn [Ascii.eqb Bool.eqb andb].
    destruct (strip_last body "s") as [-> ->].
    rewrite E, Len. reflexivity.
  - intros E. unfold Lset.calculate_amount. rewrite E, Len. reflexivity.
Qed.

Lemma lset_amount_units_witness :
  Lset.calculate_amount (fun _ => F64.of_float (F32.of_int 5)) 48000
    ["5"; "m"; "s"]%char = Proceed (F32.of_int 240)
  /\ Lset.calculate_amount (fun _ => F64.of_float (F32.of_int 5)) 48000
       ["5"; "s"]%char = Proceed (F32.of_int 240000)
  /\ Lset.calculate_amount (fun _ => F64.of_float (F32.of_int 5)) 48000
       ["5"]%char = Proceed (F32.of_int 5).
Proof.
  assert (N : ["5"%char] <> []) by discriminate.
  destruct (@lset_amount_units (fun _ => F64.of_float (F32.of_int 5)) 48000
              ["5"%char] N) as (A & B & C & _).
  split; [exact A|]. split; [exact (B eq_refl)|exact (C eq_refl)].
Defined.
